(** * Mitsuba3-Rendering-Examples: the render pipeline of the desktop GUI

    A shallow embedding of
    - [gui/utils/subprocess_renderer.py] (the parent side: [SubprocessRenderer]),
    - [gui/utils/render_subprocess.py] (the child process: [main],
      [preprocess_transforms]),
    - [gui/utils/renderer.py] (the in-process [RenderWorker] preprocessing),
    - [gui_examples/basic_scene.py] ([BasicSceneGenerator.generate]).

    Python objects live in an explicit object store: dictionaries and lists are
    mutable objects reached through references, so that aliasing and in-place
    updates ([obj['to_world'] = ...]) are visible.  The external renderer,
    numpy, pickle, PIL and Qt are interfaces whose results are supplied by the
    environment. *)

From Stdlib Require Import ZArith NArith Lia.
From Corelib Require Import PrimFloat SpecFloat FloatOps.
From stdpp Require Import base option list gmap strings pretty sorting.

Set Warnings "-register-all,-inexact-float".

Open Scope Z_scope.

(** ** Python text

    A Python [str] is a sequence of Unicode code points. *)

Abbreviation pystr := (list N).

(** A literal of the source, given by its ASCII characters. *)
Definition cp (s : string) : pystr :=
  map Ascii.N_of_ascii (String.list_ascii_of_string s).

(** [str.isspace] on one character: the code points Python treats as
    whitespace. *)
Definition isspace (c : N) : bool :=
  ((9 <=? c) && (c <=? 13) || (28 <=? c) && (c <=? 32)
   || (c =? 133) || (c =? 160) || (c =? 5760)
   || (8192 <=? c) && (c <=? 8202)
   || (c =? 8232) || (c =? 8233) || (c =? 8239) || (c =? 8287)
   || (c =? 12288))%N.

Fixpoint lstrip (s : pystr) : pystr :=
  match s with
  | c :: s' => if isspace c then lstrip s' else s
  | [] => []
  end.

Definition rstrip (s : pystr) : pystr := rev (lstrip (rev s)).

(** [s.strip()] *)
Definition strip (s : pystr) : pystr := rstrip (lstrip s).

(** [s.split(sep)] for a one-character separator: never the empty list. *)
Fixpoint split (sep : N) (s : pystr) : list pystr :=
  match s with
  | [] => [[]]
  | c :: s' =>
      if (c =? sep)%N then [] :: split sep s'
      else match split sep s' with
           | w :: ws => (c :: w) :: ws
           | [] => [[c]]
           end
  end.

(** [s.startswith(p)] *)
Fixpoint startswith (p s : pystr) : bool :=
  match p, s with
  | [], _ => true
  | a :: p', b :: s' => (a =? b)%N && startswith p' s'
  | _ :: _, [] => false
  end.

(** [needle in text] *)
Fixpoint contains (needle text : pystr) : bool :=
  startswith needle text ||
  match text with
  | [] => false
  | _ :: text' => contains needle text'
  end.

(** Truth value of a string: non-empty. *)
Definition nonempty (s : pystr) : bool :=
  match s with [] => false | _ => true end.

(** *** [strip_ansi_codes]

    The pattern is [\x1B(?:[@-Z\\-_]|\[[0-?]*[ -/]*[@-~])].  The three
    character classes of the second alternative are pairwise disjoint and
    ['['] is outside the class of the first, so the greedy match is the only
    possible one and the matcher needs no backtracking. *)

Definition in_range (lo hi c : N) : bool := ((lo <=? c) && (c <=? hi))%N.

(** Length of the longest prefix whose characters satisfy [p]. *)
Fixpoint span_len (p : N -> bool) (s : pystr) : nat :=
  match s with
  | c :: s' => if p c then S (span_len p s') else O
  | [] => O
  end.

(** Length of the match of the pattern at the start of [s], if it matches. *)
Definition ansi_escape_match (s : pystr) : option nat :=
  match s with
  | 27%N :: c :: rest =>
      if in_range 64 90 c || in_range 92 95 c then Some 2%nat
      else if (c =? 91)%N then
        let n1 := span_len (in_range 48 63) rest in
        let r1 := drop n1 rest in
        let n2 := span_len (in_range 32 47) r1 in
        match drop n2 r1 with
        | f :: _ => if in_range 64 126 f then Some (3 + n1 + n2)%nat else None
        | [] => None
        end
      else None
  | _ => None
  end.

(** [ansi_escape.sub('', text)]: leftmost non-overlapping matches are removed.
    [skip] counts the characters of a match still to be dropped. *)
Fixpoint ansi_sub (skip : nat) (s : pystr) : pystr :=
  match s with
  | [] => []
  | c :: s' =>
      match skip with
      | S k => ansi_sub k s'
      | O => match ansi_escape_match s with
             | Some n => ansi_sub (pred n) s'
             | None => c :: ansi_sub O s'
             end
      end
  end.

Definition strip_ansi_codes (text : pystr) : pystr := ansi_sub O text.

(** ** Exceptions and results

    Every exception raised in the modelled code is an instance of a subclass
    of [Exception]; [exn_msg] is [str(e)]. *)

Record exn := Exn { exn_class : string; exn_msg : pystr }.

Inductive result (A : Type) :=
| Ok (a : A)
| Raise (e : exn).
Arguments Ok {A} a.
Arguments Raise {A} e.

Definition is_ok {A} (r : result A) : bool :=
  match r with Ok _ => true | Raise _ => false end.

(** State and exceptions: a computation over a store [S] returns a value or
    raises, and leaves the store as it was at that point. *)
Definition M (S A : Type) : Type := S -> result A * S.

Definition ret {S A} (a : A) : M S A := fun s => (Ok a, s).
Definition raise {S A} (e : exn) : M S A := fun s => (Raise e, s).
Definition bind {S A B} (m : M S A) (k : A -> M S B) : M S B :=
  fun s => match m s with
           | (Ok a, s') => k a s'
           | (Raise e, s') => (Raise e, s')
           end.
Definition lift {S A} (r : result A) : M S A := fun s => (r, s).
Definition get_store {S} : M S S := fun s => (Ok s, s).

Notation "x <- m ;; k" := (bind m (fun x => k))
  (at level 100, m at next level, right associativity).
Notation "m ;;; k" := (bind m (fun _ => k))
  (at level 100, right associativity).

(** [for x in xs: body(x)] *)
Fixpoint for_each {S A} (xs : list A) (body : A -> M S unit) : M S unit :=
  match xs with
  | [] => ret tt
  | x :: xs' => body x ;;; for_each xs' body
  end.

(** [[f(x) for x in xs]] *)
Fixpoint map_each {S A B} (xs : list A) (f : A -> M S B) : M S (list B) :=
  match xs with
  | [] => ret []
  | x :: xs' => y <- f x ;; ys <- map_each xs' f ;; ret (y :: ys)
  end.

(** ** Python values and the object store

    Immutable values are carried inline.  Dictionaries and lists are objects
    of the store, reached through [VRef]; identity of such an object is its
    index.  Objects built by an external library (numpy arrays, renderer
    transforms) are opaque handles.  Dictionaries keep insertion order and,
    as in every scene description of the repository, have [str] keys. *)

Inductive val :=
| VNone
| VBool (b : bool)
| VInt (z : Z)
| VFloat (f : float)
| VStr (s : string)
| VTuple (items : list val)
| VObject (handle : N)
| VRef (l : nat).

Inductive obj :=
| ODict (items : list (string * val))
| OList (items : list val).

Abbreviation heap := (list obj).

Definition TypeError (m : string) : exn := Exn "TypeError" (cp m).
Definition AttributeError (m : string) : exn := Exn "AttributeError" (cp m).
Definition KeyError (k : string) : exn := Exn "KeyError" (cp k).
Definition IndexError (m : string) : exn := Exn "IndexError" (cp m).
Definition RecursionError : exn :=
  Exn "RecursionError" (cp "maximum recursion depth exceeded").
(** A reference to no object: no Python program can hold one. *)
Definition Dangling : exn := Exn "SystemError" (cp "dangling reference").

(** A display [{...}] or [[...]] creates a new object. *)
Definition alloc (o : obj) : M heap val :=
  fun h => (Ok (VRef (length h)), h ++ [o]).

(** Calling into an external library, which may read the store. *)
Definition call {A} (f : heap -> result A) : M heap A :=
  fun h => (f h, h).

Fixpoint dict_lookup (key : string) (items : list (string * val)) : option val :=
  match items with
  | [] => None
  | (k, v) :: rest => if String.eqb k key then Some v else dict_lookup key rest
  end.

(** [d[key] = v] on the entries of a dictionary: an existing key keeps its
    position, a new key goes last. *)
Fixpoint dict_set (key : string) (v : val) (items : list (string * val))
  : list (string * val) :=
  match items with
  | [] => [(key, v)]
  | (k, x) :: rest =>
      if String.eqb k key then (k, v) :: rest else (k, x) :: dict_set key v rest
  end.

Definition isinstance_list (h : heap) (v : val) : bool :=
  match v with
  | VRef l => match h !! l with Some (OList _) => true | _ => false end
  | _ => false
  end.

Definition isinstance_dict (h : heap) (v : val) : bool :=
  match v with
  | VRef l => match h !! l with Some (ODict _) => true | _ => false end
  | _ => false
  end.

(** [isinstance(v, (int, float))]; [bool] is a subclass of [int]. *)
Definition isinstance_number (v : val) : bool :=
  match v with
  | VBool _ | VInt _ | VFloat _ => true
  | _ => false
  end.

(** [v == s] for a string literal [s]. *)
Definition eq_str (v : val) (s : string) : bool :=
  match v with
  | VStr s' => String.eqb s' s
  | _ => false
  end.

(** [d.get(key, default)] *)
Definition py_get (d : val) (key : string) (default : val) : M heap val :=
  fun h =>
    match d with
    | VRef l =>
        match h !! l with
        | Some (ODict items) =>
            (Ok (match dict_lookup key items with Some v => v | None => default end), h)
        | Some (OList _) => (Raise (AttributeError "'list' object has no attribute 'get'"), h)
        | None => (Raise Dangling, h)
        end
    | _ => (Raise (AttributeError "object has no attribute 'get'"), h)
    end.

(** [d[key]] for a string key. *)
Definition py_getitem (d : val) (key : string) : M heap val :=
  fun h =>
    match d with
    | VRef l =>
        match h !! l with
        | Some (ODict items) =>
            (match dict_lookup key items with
             | Some v => Ok v
             | None => Raise (KeyError key)
             end, h)
        | Some (OList _) => (Raise (TypeError "list indices must be integers or slices, not str"), h)
        | None => (Raise Dangling, h)
        end
    | VStr _ => (Raise (TypeError "string indices must be integers, not 'str'"), h)
    | VTuple _ => (Raise (TypeError "tuple indices must be integers or slices, not str"), h)
    | _ => (Raise (TypeError "object is not subscriptable"), h)
    end.

(** [key in d] for a dictionary [d]. *)
Definition py_contains (d : val) (key : string) : M heap bool :=
  fun h =>
    match d with
    | VRef l =>
        match h !! l with
        | Some (ODict items) =>
            (Ok (match dict_lookup key items with Some _ => true | None => false end), h)
        | Some (OList items) =>
            (Ok (existsb (fun v => eq_str v key) items), h)
        | None => (Raise Dangling, h)
        end
    | VTuple items => (Ok (existsb (fun v => eq_str v key) items), h)
    | _ => (Raise (TypeError "argument is not iterable"), h)
    end.

(** [l[0]] for a list [l]. *)
Definition py_first (l : val) : M heap val :=
  fun h =>
    match l with
    | VRef a =>
        match h !! a with
        | Some (OList (x :: _)) => (Ok x, h)
        | Some (OList []) => (Raise (IndexError "list index out of range"), h)
        | Some (ODict _) => (Raise (KeyError "0"), h)
        | None => (Raise Dangling, h)
        end
    | _ => (Raise (TypeError "object is not subscriptable"), h)
    end.

(** [d[key] = v] on the dictionary object at [l]. *)
Definition py_setitem (l : nat) (key : string) (v : val) : M heap unit :=
  fun h =>
    match h !! l with
    | Some (ODict items) => (Ok tt, <[l := ODict (dict_set key v items)]> h)
    | _ => (Raise (TypeError "object does not support item assignment"), h)
    end.

(** [y.append(v)] on the list object at [l]. *)
Definition py_append (l : nat) (v : val) : M heap unit :=
  fun h =>
    match h !! l with
    | Some (OList items) => (Ok tt, <[l := OList (items ++ [v])]> h)
    | _ => (Raise (AttributeError "object has no attribute 'append'"), h)
    end.

(** *** [copy.deepcopy]

    The library routine, as [copy.py] has it: atomic values are returned as
    they are, a list or dictionary is copied into a new object that is entered
    in [memo] under the identity of the original before its items are copied,
    so that shared and cyclic structure is preserved; a tuple is rebuilt from
    the copies of its items.  An external object is taken to be its own copy.
    [depth] is the room left on the interpreter's call stack. *)

Definition with_memo {A} (m : M heap A) : M (gmap nat nat * heap) A :=
  fun s => let '(r, h') := m s.2 in (r, (s.1, h')).

Fixpoint deepcopy (depth : nat) (x : val) : M (gmap nat nat * heap) val :=
  match depth with
  | O => raise RecursionError
  | S d =>
      match x with
      | VRef l =>
          fun s =>
            match s.1 !! l with
            | Some l' => (Ok (VRef l'), s)
            | None =>
                match s.2 !! l with
                | Some (OList items) =>
                    let l' := length s.2 in
                    (for_each items (fun a =>
                       a' <- deepcopy d a ;; with_memo (py_append l' a')) ;;;
                     ret (VRef l'))
                      (<[l := l']> s.1, s.2 ++ [OList []])
                | Some (ODict items) =>
                    let l' := length s.2 in
                    (for_each items (fun kv =>
                       v' <- deepcopy d kv.2 ;; with_memo (py_setitem l' kv.1 v')) ;;;
                     ret (VRef l'))
                      (<[l := l']> s.1, s.2 ++ [ODict []])
                | None => (Raise Dangling, s)
                end
            end
      | VTuple items => ys <- map_each items (deepcopy d) ;; ret (VTuple ys)
      | _ => ret x
      end
  end.

(** [copy.deepcopy(x)]: a fresh memo, dropped at the end. *)
Definition copy_deepcopy (depth : nat) (x : val) : M heap val :=
  fun h => let '(r, s) := deepcopy depth x (∅, h) in (r, s.2).

(** ** The external renderer and numpy

    The calls the preprocessing makes.  Each may raise; what it returns is an
    opaque handle.  A call that receives Python objects may read the store. *)

Record mitsuba := {
  np_array_float32 : val -> heap -> result N;
  np_reshape_4_4 : N -> result N;
  ScalarTransform4f : N -> result N;
  ScalarTransform4f_identity : result N;
  look_at : val -> val -> val -> heap -> result N;
  translate : val -> heap -> result N;
  scale : val -> heap -> result N;
  rotate : val -> val -> heap -> result N;
  matmul : N -> N -> result N
}.

Section Preprocessing.

Variable mi : mitsuba.

(** ** [gui/utils/render_subprocess.py]: transform preprocessing *)

(** [_build_transform(transform_dict, mi)].  The default of each [.get] is
    built before the lookup, as Python evaluates it. *)
Fixpoint _build_transform (depth : nat) (transform_dict : val) : M heap N :=
  match depth with
  | O => raise RecursionError
  | S d =>
      transform_type <- py_get transform_dict "type" (VStr "identity") ;;
      transform <-
        (if eq_str transform_type "look_at" then
           d0 <- alloc (OList [VInt 0; VInt 0; VInt 0]) ;;
           origin <- py_get transform_dict "origin" d0 ;;
           d1 <- alloc (OList [VInt 0; VInt 0; VInt 0]) ;;
           target <- py_get transform_dict "target" d1 ;;
           d2 <- alloc (OList [VInt 0; VInt 1; VInt 0]) ;;
           up <- py_get transform_dict "up" d2 ;;
           call (look_at mi origin target up)
         else if eq_str transform_type "translate" then
           d0 <- alloc (OList [VInt 0; VInt 0; VInt 0]) ;;
           value <- py_get transform_dict "value" d0 ;;
           call (translate mi value)
         else if eq_str transform_type "scale" then
           value <- py_get transform_dict "value" (VFloat 1.0) ;;
           if isinstance_number value then
             vs <- alloc (OList [value; value; value]) ;;
             call (scale mi vs)
           else call (scale mi value)
         else if eq_str transform_type "rotate" then
           d0 <- alloc (OList [VInt 0; VInt 0; VInt 1]) ;;
           axis <- py_get transform_dict "axis" d0 ;;
           angle <- py_get transform_dict "angle" (VFloat 0.0) ;;
           call (rotate mi axis angle)
         else lift (ScalarTransform4f_identity mi)) ;;
      has_child <- py_contains transform_dict "child" ;;
      if has_child : bool then
        child <- py_getitem transform_dict "child" ;;
        child_transform <- _build_transform d child ;;
        lift (matmul mi transform child_transform)
      else ret transform
  end.

(** [_process_recursive(obj, mi)].  The loop over [obj.items()] reads the
    entries after the assignment to ['to_world']; nothing the loop body does
    changes an entry under another key. *)
Fixpoint _process_recursive (depth : nat) (obj : val) : M heap unit :=
  match depth with
  | O => raise RecursionError
  | S d =>
      h <- get_store ;;
      match obj with
      | VRef l =>
          match h !! l with
          | Some (ODict items) =>
              (match dict_lookup "to_world" items with
               | Some to_world =>
                   if isinstance_list h to_world then
                     first <- py_first to_world ;;
                     h1 <- get_store ;;
                     matrix_np <-
                       (if isinstance_list h1 first then
                          call (np_array_float32 mi to_world)
                        else
                          a <- call (np_array_float32 mi to_world) ;;
                          lift (np_reshape_4_4 mi a)) ;;
                     t <- lift (ScalarTransform4f mi matrix_np) ;;
                     py_setitem l "to_world" (VObject t)
                   else if isinstance_dict h to_world then
                     t <- _build_transform d to_world ;;
                     py_setitem l "to_world" (VObject t)
                   else ret tt
               | None => ret tt
               end) ;;;
              h2 <- get_store ;;
              match h2 !! l with
              | Some (ODict items') =>
                  for_each items' (fun kv =>
                    if String.eqb kv.1 "to_world" then ret tt
                    else _process_recursive d kv.2)
              | _ => ret tt
              end
          | Some (OList items) => for_each items (_process_recursive d)
          | None => raise Dangling
          end
      | _ => ret tt
      end
  end.

(** [preprocess_transforms(scene_dict)] *)
Definition preprocess_transforms (depth : nat) (scene_dict : val) : M heap val :=
  processed <- copy_deepcopy depth scene_dict ;;
  _process_recursive depth processed ;;;
  ret processed.

(** ** [gui/utils/renderer.py]: [RenderWorker]'s transform preprocessing *)

(** [RenderWorker._build_transform_from_dict(self, transform_dict)] *)
Fixpoint _build_transform_from_dict (depth : nat) (transform_dict : val) : M heap N :=
  match depth with
  | O => raise RecursionError
  | S d =>
      transform_type <- py_get transform_dict "type" (VStr "identity") ;;
      transform <-
        (if eq_str transform_type "translate" then
           d0 <- alloc (OList [VInt 0; VInt 0; VInt 0]) ;;
           value <- py_get transform_dict "value" d0 ;;
           call (translate mi value)
         else if eq_str transform_type "scale" then
           value <- py_get transform_dict "value" (VFloat 1.0) ;;
           if isinstance_number value then
             vs <- alloc (OList [value; value; value]) ;;
             call (scale mi vs)
           else call (scale mi value)
         else if eq_str transform_type "rotate" then
           d0 <- alloc (OList [VInt 0; VInt 0; VInt 1]) ;;
           axis <- py_get transform_dict "axis" d0 ;;
           angle <- py_get transform_dict "angle" (VFloat 0.0) ;;
           call (rotate mi axis angle)
         else lift (ScalarTransform4f_identity mi)) ;;
      has_child <- py_contains transform_dict "child" ;;
      if has_child : bool then
        child <- py_getitem transform_dict "child" ;;
        child_transform <- _build_transform_from_dict d child ;;
        lift (matmul mi transform child_transform)
      else ret transform
  end.

(** [RenderWorker._process_transforms_recursive(self, obj)] *)
Fixpoint _process_transforms_recursive (depth : nat) (obj : val) : M heap unit :=
  match depth with
  | O => raise RecursionError
  | S d =>
      h <- get_store ;;
      match obj with
      | VRef l =>
          match h !! l with
          | Some (ODict items) =>
              (match dict_lookup "to_world" items with
               | Some to_world =>
                   if isinstance_list h to_world then
                     first <- py_first to_world ;;
                     h1 <- get_store ;;
                     if isinstance_list h1 first then
                       matrix_np <- call (np_array_float32 mi to_world) ;;
                       t <- lift (ScalarTransform4f mi matrix_np) ;;
                       py_setitem l "to_world" (VObject t)
                     else
                       a <- call (np_array_float32 mi to_world) ;;
                       matrix_np <- lift (np_reshape_4_4 mi a) ;;
                       t <- lift (ScalarTransform4f mi matrix_np) ;;
                       py_setitem l "to_world" (VObject t)
                   else if isinstance_dict h to_world then
                     t <- _build_transform_from_dict d to_world ;;
                     py_setitem l "to_world" (VObject t)
                   else ret tt
               | None => ret tt
               end) ;;;
              h2 <- get_store ;;
              match h2 !! l with
              | Some (ODict items') =>
                  for_each items' (fun kv =>
                    if String.eqb kv.1 "to_world" then ret tt
                    else _process_transforms_recursive d kv.2)
              | _ => ret tt
              end
          | Some (OList items) => for_each items (_process_transforms_recursive d)
          | None => raise Dangling
          end
      | _ => ret tt
      end
  end.

(** [RenderWorker._preprocess_scene_dict(self, scene_dict)]; both handlers
    re-raise what they caught. *)
Definition _preprocess_scene_dict (depth : nat) (scene_dict : val) : M heap val :=
  processed <- copy_deepcopy depth scene_dict ;;
  _process_transforms_recursive depth processed ;;;
  ret processed.

End Preprocessing.

(** ** [gui_examples/basic_scene.py] *)





(** ** [gui/utils/render_subprocess.py]: the child process *)

(** The pieces of an f-string: literal text, and [{v}] for a value. *)
Inductive frag :=
| Lit (s : string)
| Fmt (v : val)
| Text (t : pystr).

(** A line on the child's stdout: [log] prints ["LOG:[<time>] <message>"],
    [progress] prints ["PROGRESS:<value>"]. *)
Inductive out_line :=
| LOG (message : list frag)
| PROGRESS (value : Z).

(** What the child writes to stderr. *)
Inductive err_line :=
| ERROR (message : pystr)
| Traceback (e : exn).

(** The calls of [main] into the interpreter's environment and the external
    libraries, in the order of the source. *)
Inductive step :=
| ImportMitsuba
| LoadData (scene_file : pystr)
| SetVariant (variant : val)
| LoadDict (scene_dict : val)
| Render (scene : N) (spp : val)
| MakeBitmap (image : N)
| ToArray (bitmap : N)
| To8Bit (img_array : N)
| FromArray (img_8bit : N)
| Save (img : N) (output_file : pystr)
| Unlink (scene_file : pystr).

Section Pipeline.

Context {blob : Type}.

(** The child's environment: the file system it finds, and the outcome of
    every external call. *)
Record child_env := {
  c_files : gmap pystr (list blob);
  c_pickle_load : blob -> result (heap * val);
  c_import_mitsuba : result unit;
  c_mi : mitsuba;
  c_set_variant : val -> heap -> result unit;
  c_load_dict : val -> heap -> result N;
  c_render : N -> val -> heap -> result N;
  c_Bitmap : N -> result N;
  c_np_array : N -> result N;
  c_to_8bit : N -> result N;
  c_fromarray : N -> result N;
  c_save : N -> pystr -> result unit;
  c_unlink : pystr -> result unit;
  c_depth : nat
}.

(** The child's state: its objects, what it has printed, and the external
    calls it has made, each with whether it returned. *)
Record child_state := {
  c_heap : heap;
  c_stdout : list out_line;
  c_stderr : list err_line;
  c_trace : list (step * bool)
}.

Definition child_init : child_state :=
  {| c_heap := []; c_stdout := []; c_stderr := []; c_trace := [] |}.

Definition print_out (l : out_line) : M child_state unit :=
  fun s => (Ok tt, {| c_heap := c_heap s; c_stdout := c_stdout s ++ [l];
                      c_stderr := c_stderr s; c_trace := c_trace s |}).

Definition print_err (l : err_line) (s : child_state) : child_state :=
  {| c_heap := c_heap s; c_stdout := c_stdout s;
     c_stderr := c_stderr s ++ [l]; c_trace := c_trace s |}.

(** [log(message)] *)
Definition log (message : list frag) : M child_state unit :=
  print_out (LOG message).

(** [progress(value)] *)
Definition progress (value : Z) : M child_state unit :=
  print_out (PROGRESS value).

(** Running code that works on the objects only. *)
Definition on_heap {A} (m : M heap A) : M child_state A :=
  fun s => let '(r, h') := m (c_heap s) in
           (r, {| c_heap := h'; c_stdout := c_stdout s;
                  c_stderr := c_stderr s; c_trace := c_trace s |}).

(** An external call: recorded with its outcome. *)
Definition ext {A} (st : step) (f : heap -> result A) : M child_state A :=
  fun s => let r := f (c_heap s) in
           (r, {| c_heap := c_heap s; c_stdout := c_stdout s;
                  c_stderr := c_stderr s;
                  c_trace := c_trace s ++ [(st, is_ok r)] |}).

(** [with open(scene_file, 'rb') as f: data = pickle.load(f)]: the objects
    read become the child's objects. *)
Definition open_and_load (env : child_env) (scene_file : pystr)
  : result (heap * val) :=
  match c_files env !! scene_file with
  | Some (b :: _) => c_pickle_load env b
  | Some [] => Raise (Exn "EOFError" (cp "Ran out of input"))
  | None => Raise (Exn "FileNotFoundError" scene_file)
  end.

Definition load_scene_data (env : child_env) (scene_file : pystr)
  : M child_state val :=
  fun s =>
    let r := open_and_load env scene_file in
    let tr := c_trace s ++ [(LoadData scene_file, is_ok r)] in
    match r with
    | Ok (h, data) =>
        (Ok data, {| c_heap := h; c_stdout := c_stdout s;
                     c_stderr := c_stderr s; c_trace := tr |})
    | Raise e =>
        (Raise e, {| c_heap := c_heap s; c_stdout := c_stdout s;
                     c_stderr := c_stderr s; c_trace := tr |})
    end.

(** The [try] block of [main]. *)
Definition main_try (env : child_env) (scene_file output_file : pystr)
  : M child_state unit :=
  log [Lit "Importing Mitsuba..."] ;;;
  ext ImportMitsuba (fun _ => c_import_mitsuba env) ;;;
  log [Lit "Loading scene data..."] ;;;
  data <- load_scene_data env scene_file ;;
  scene_dict <- on_heap (py_getitem data "scene_dict") ;;
  params <- on_heap (py_getitem data "params") ;;
  variant <- on_heap (py_get params "variant" (VStr "scalar_rgb")) ;;
  log [Lit "Setting variant: "; Fmt variant] ;;;
  ext (SetVariant variant) (c_set_variant env variant) ;;;
  progress 5 ;;;
  log [Lit "Preprocessing scene..."] ;;;
  scene_dict <- on_heap (preprocess_transforms (c_mi env) (c_depth env) scene_dict) ;;
  progress 10 ;;;
  log [Lit "Loading scene..."] ;;;
  scene <- ext (LoadDict scene_dict) (c_load_dict env scene_dict) ;;
  progress 20 ;;;
  spp <- on_heap (py_get params "spp" (VInt 256)) ;;
  log [Lit "Rendering ("; Fmt spp; Lit " spp)..."] ;;;
  progress 30 ;;;
  image <- ext (Render scene spp) (c_render env scene spp) ;;
  progress 80 ;;;
  log [Lit "Saving image..."] ;;;
  bitmap <- ext (MakeBitmap image) (fun _ => c_Bitmap env image) ;;
  img_array <- ext (ToArray bitmap) (fun _ => c_np_array env bitmap) ;;
  img_8bit <- ext (To8Bit img_array) (fun _ => c_to_8bit env img_array) ;;
  img <- ext (FromArray img_8bit) (fun _ => c_fromarray env img_8bit) ;;
  ext (Save img output_file) (fun _ => c_save env img output_file) ;;;
  progress 100 ;;;
  log [Lit "Render complete: "; Text output_file] ;;;
  ext (Unlink scene_file) (fun _ => c_unlink env scene_file).

(** [main()], given [sys.argv]: the exit code and the final state.
    [sys.exit(0)] at the end of the [try] block raises [SystemExit], which
    [except Exception] does not catch. *)
Definition main (env : child_env) (argv : list pystr) : Z * child_state :=
  match argv with
  | [_; scene_file; output_file] =>
      match main_try env scene_file output_file child_init with
      | (Ok _, s) => (0, s)
      | (Raise e, s) => (1, print_err (Traceback e) (print_err (ERROR (exn_msg e)) s))
      end
  | _ => (1, print_err (ERROR (cp "Invalid arguments")) child_init)
  end.

(** ** [gui/utils/subprocess_renderer.py]: the parent side *)

(** The signals of [SubprocessRenderer]. *)
Inductive signal :=
| progress_updated (value : Z)
| render_complete (img_array : N) (output_path : pystr)
| render_failed (message : pystr)
| log_message (message : pystr).

(** [QProcess.ProcessState] *)
Inductive ProcessState := NotRunning | Starting | Running.

(** The methods called on a [QProcess]. *)
Inductive qcall :=
| Start (program : pystr) (arguments : list pystr)
| WaitForStarted (msecs : Z)
| Terminate
| Kill
| WaitForFinished (msecs : Z).

(** A [QProcess] object: its state, its exit code, the path bound in the slot
    connected to [finished], and the calls made on it, oldest first. *)
Record QProcess := {
  state : ProcessState;
  exitCode : Z;
  finished_slot : pystr;
  qcalls : list qcall
}.

(** Levels of the [loguru] logger. *)
Inductive level := DEBUG | INFO | SUCCESS | WARNING | ERROR_ | EXCEPTION.

(** A [SubprocessRenderer] ([output_dir], [process], [temp_files]) in its
    surroundings: the files on disk, the Python objects of the GUI process,
    the signals emitted and the records logged so far. *)
Record world := {
  output_dir : pystr;
  process : option QProcess;
  temp_files : list pystr;
  files : gmap pystr (list blob);
  objects : heap;
  signals : list signal;
  logged : list (level * pystr)
}.

(** What reaches the GUI thread from the pipes of the child: Qt emits
    [readyReadStandardOutput] or [readyReadStandardError], and the text
    is what the slot then reads. *)
Inductive pipe_event :=
| StdoutReady (chunk : pystr)
| StderrReady (data : pystr).

(** The parent's environment: the outcome of what the renderer asks of the
    operating system, of pickle, of pathlib, of PIL and of Qt, and the
    interpreter's [int(text)], which is [None] where it raises.  Of
    [pickle.dump], also what it has written to the file when it raises.  Of
    the wait for the child after [terminate] and after [kill]: what arrives
    from its pipes during the wait, whether it ends within the wait, and
    its exit code then. *)
Record parent_env := {
  p_candidates : list pystr;
  p_pickle_dump : val -> heap -> result blob;
  p_pickle_partial : val -> heap -> list blob;
  p_path_join : pystr -> pystr -> pystr;
  p_path_name : pystr -> pystr;
  p_python_exe : pystr;
  p_script_path : pystr;
  p_started : bool;
  p_events_after_terminate : list pipe_event;
  p_finished_after_terminate : bool;
  p_exit_after_terminate : Z;
  p_events_after_kill : list pipe_event;
  p_finished_after_kill : bool;
  p_exit_after_kill : Z;
  p_Image_open : pystr -> result N;
  p_np_array : N -> result N;
  p_int : pystr -> option Z
}.

Definition emit (s : signal) (w : world) : world :=
  {| output_dir := output_dir w; process := process w; temp_files := temp_files w;
     files := files w; objects := objects w;
     signals := signals w ++ [s]; logged := logged w |}.

Definition logger (lv : level) (m : pystr) (w : world) : world :=
  {| output_dir := output_dir w; process := process w; temp_files := temp_files w;
     files := files w; objects := objects w;
     signals := signals w; logged := logged w ++ [(lv, m)] |}.

Definition set_process (p : option QProcess) (w : world) : world :=
  {| output_dir := output_dir w; process := p; temp_files := temp_files w;
     files := files w; objects := objects w;
     signals := signals w; logged := logged w |}.

Definition set_temp_files (t : list pystr) (w : world) : world :=
  {| output_dir := output_dir w; process := process w; temp_files := t;
     files := files w; objects := objects w;
     signals := signals w; logged := logged w |}.

Definition set_files (f : gmap pystr (list blob)) (w : world) : world :=
  {| output_dir := output_dir w; process := process w; temp_files := temp_files w;
     files := f; objects := objects w;
     signals := signals w; logged := logged w |}.

Definition on_objects {A} (m : M heap A) : M world A :=
  fun w => let '(r, h') := m (objects w) in
           (r, {| output_dir := output_dir w; process := process w;
                  temp_files := temp_files w; files := files w; objects := h';
                  signals := signals w; logged := logged w |}).

(** A method call on the process, recorded. *)
Definition qcall_on (c : qcall) (p : QProcess) : QProcess :=
  {| state := state p; exitCode := exitCode p; finished_slot := finished_slot p;
     qcalls := qcalls p ++ [c] |}.

Definition set_state (st : ProcessState) (p : QProcess) : QProcess :=
  {| state := st; exitCode := exitCode p; finished_slot := finished_slot p;
     qcalls := qcalls p |}.

Definition set_exit (code : Z) (p : QProcess) : QProcess :=
  {| state := state p; exitCode := code; finished_slot := finished_slot p;
     qcalls := qcalls p |}.

(** Something done to [self.process]. *)
Definition on_process (f : QProcess -> QProcess) (w : world) : world :=
  match process w with
  | Some p => set_process (Some (f p)) w
  | None => w
  end.

(** [str(n)] for an [int]. *)
Definition str_of_int (z : Z) : pystr := cp (pretty z).

(** The pictographs of the messages: U+26A0 U+FE0F, U+1F680, U+274C, U+2705. *)
Definition warning_sign : pystr := [9888; 65039]%N.
Definition rocket : pystr := [128640]%N.
Definition cross_mark : pystr := [10060]%N.
Definition check_mark : pystr := [9989]%N.

(** [self.process and self.process.state() == QProcess.ProcessState.Running] *)
Definition running (w : world) : bool :=
  match process w with
  | Some p => match state p with Running => true | _ => false end
  | None => false
  end.

(** [tempfile.NamedTemporaryFile(mode='wb', delete=False, suffix='.pkl')]:
    the library tries the names it draws until one is not taken, and creates
    an empty file under it. *)
Fixpoint first_unused (candidates : list pystr) (fs : gmap pystr (list blob))
  : result pystr :=
  match candidates with
  | [] => Raise (Exn "FileExistsError" (cp "No usable temporary file name found"))
  | c :: cs =>
      match fs !! c with
      | None => Ok c
      | Some _ => first_unused cs fs
      end
  end.

Definition NamedTemporaryFile (env : parent_env) : M world pystr :=
  fun w =>
    match first_unused (p_candidates env) (files w) with
    | Ok name => (Ok name, set_files (<[name := []]> (files w)) w)
    | Raise e => (Raise e, w)
    end.

(** [pickle.dump(obj, file)]: the pickle of [obj] is written to the file;
    when it raises, the file holds what had been written by then. *)
Definition pickle_dump (env : parent_env) (obj : val) (name : pystr) : M world unit :=
  fun w =>
    let old := default [] (files w !! name) in
    match p_pickle_dump env obj (objects w) with
    | Ok b => (Ok tt, set_files (<[name := old ++ [b]]> (files w)) w)
    | Raise e =>
        (Raise e,
         set_files (<[name := old ++ p_pickle_partial env obj (objects w)]> (files w)) w)
    end.

(** The [try] block of [render_scene]. *)
Definition render_scene_try (env : parent_env) (scene_dict params : val)
    (output_filename : pystr) : M world unit :=
  temp_scene_file <- NamedTemporaryFile env ;;
  data <- on_objects (alloc (ODict [("scene_dict", scene_dict); ("params", params)])) ;;
  pickle_dump env data temp_scene_file ;;;
  fun w =>
    let w := set_temp_files (temp_files w ++ [temp_scene_file]) w in
    let output_path := p_path_join env (output_dir w) output_filename in
    let p := {| state := NotRunning; exitCode := 0; finished_slot := output_path;
                qcalls := [] |} in
    let w := set_process (Some p) w in
    let w := logger DEBUG (cp "Starting subprocess: " ++ p_python_exe env
                           ++ cp " " ++ p_script_path env) w in
    let w := emit (log_message (rocket ++ cp " Starting render process...")) w in
    let p := set_state Starting
               (qcall_on (Start (p_python_exe env)
                            [p_script_path env; temp_scene_file; output_path]) p) in
    let p := qcall_on (WaitForStarted 3000) p in
    if p_started env then
      (Ok tt, logger INFO (cp "Render subprocess started")
                (set_process (Some (set_state Running p)) w))
    else
      (Raise (Exn "Exception" (cp "Failed to start render process")),
       set_process (Some p) w).

(** [SubprocessRenderer.render_scene(self, scene_dict, params, output_filename)] *)
Definition render_scene (env : parent_env) (scene_dict params : val)
    (output_filename : pystr) (w : world) : world :=
  if running w then
    emit (log_message (warning_sign ++ cp "  Render already in progress"))
      (logger WARNING (cp "Render already in progress") w)
  else
    match render_scene_try env scene_dict params output_filename w with
    | (Ok _, w') => w'
    | (Raise e, w') =>
        emit (render_failed (exn_msg e))
          (emit (log_message (cross_mark ++ cp " Failed to start render: " ++ exn_msg e))
             (logger EXCEPTION (cp "Failed to start subprocess render: " ++ exn_msg e) w'))
    end.

(** The body of the loop of [_on_stdout] for one line.  The bare [except]
    swallows whatever the parse of the payload raises. *)
Definition on_stdout_line (env : parent_env) (w : world) (line : pystr) : world :=
  if nonempty line then
    if startswith (cp "PROGRESS:") line then
      match split 58 line !! 1%nat with
      | Some payload =>
          match p_int env payload with
          | Some progress => emit (progress_updated progress) w
          | None => w
          end
      | None => w
      end
    else if startswith (cp "LOG:") line then
      let msg := strip (drop 4 line) in
      emit (log_message msg) w
    else logger DEBUG (cp "Subprocess: " ++ line) w
  else w.

(** [SubprocessRenderer._on_stdout(self)]; [chunk] is the decoded text that
    [readAllStandardOutput] returns. *)
Definition _on_stdout (env : parent_env) (chunk : pystr) (w : world) : world :=
  match process w with
  | Some _ =>
      let data := strip_ansi_codes chunk in
      foldl (on_stdout_line env) w (split 10 (strip data))
  | None => w
  end.

(** [SubprocessRenderer._on_stderr(self)]; [data] is the decoded text that
    [readAllStandardError] returns. *)
Definition _on_stderr (data : pystr) (w : world) : world :=
  match process w with
  | Some _ =>
      if nonempty (strip data) then
        if contains (cp "jitc_llvm_init") data || contains (cp "LLVM") data then
          logger DEBUG (cp "Subprocess info: " ++ strip data) w
        else if contains (cp "DeprecationWarning") data || contains (cp "mode") data then
          logger DEBUG (cp "Subprocess warning: " ++ strip data) w
        else logger ERROR_ (cp "Subprocess error: " ++ strip data) w
      else w
  | None => w
  end.

(** [SubprocessRenderer._on_finished(self, output_path)] *)
Definition _on_finished (env : parent_env) (output_path : pystr) : M world unit :=
  fun w =>
    match process w with
    | None =>
        (Raise (AttributeError "'NoneType' object has no attribute 'exitCode'"), w)
    | Some p =>
        let exit_code := exitCode p in
        let w := logger DEBUG (cp "Subprocess finished with exit code: "
                               ++ str_of_int exit_code) w in
        if exit_code =? 0 then
          match match p_Image_open env output_path with
                | Ok img => p_np_array env img
                | Raise e => Raise e
                end with
          | Ok img_array =>
              (Ok tt,
               emit (render_complete img_array output_path)
                 (emit (log_message (check_mark ++ cp " Render complete: "
                                     ++ p_path_name env output_path))
                    (logger SUCCESS (cp "Render completed: " ++ output_path) w)))
          | Raise e =>
              (Ok tt,
               emit (render_failed (cp "Failed to load image: " ++ exn_msg e))
                 (logger EXCEPTION (cp "Failed to load rendered image: " ++ exn_msg e) w))
          end
        else
          let error_msg := cp "Render failed with exit code " ++ str_of_int exit_code in
          (Ok tt,
           emit (render_failed error_msg)
             (emit (log_message (cross_mark ++ cp " " ++ error_msg))
                (logger ERROR_ error_msg w)))
    end.

(** One delivery from the pipes: the slot connected to the signal runs. *)
Definition on_pipe_event (env : parent_env) (w : world) (e : pipe_event) : world :=
  match e with
  | StdoutReady chunk => _on_stdout env chunk w
  | StderrReady data => _on_stderr data w
  end.

(** [self.process.waitForFinished(msecs)], and what it returns.  While the
    GUI thread is blocked in the call, Qt reads the pipes of the child and
    the slots for its output run; and if the child ends within the wait,
    Qt emits [finished] before the call returns [True], so that the slot
    connected in [render_scene], [_on_finished(output_path)], runs inside
    the call. *)
Definition waitForFinished (env : parent_env) (msecs : Z)
    (events : list pipe_event) (finished : bool) (code : Z) (w : world)
  : bool * world :=
  let w := on_process (qcall_on (WaitForFinished msecs)) w in
  let w := foldl (on_pipe_event env) w events in
  if finished then
    let w := on_process (fun p => set_exit code (set_state NotRunning p)) w in
    (true,
     match process w with
     | Some p => (_on_finished env (finished_slot p) w).2
     | None => w
     end)
  else (false, w).

(** [SubprocessRenderer.cancel_render(self)] *)
Definition cancel_render (env : parent_env) (w : world) : world :=
  match process w with
  | Some p =>
      match state p with
      | Running =>
          let w := logger INFO (cp "Terminating render process") w in
          let w := on_process (qcall_on Terminate) w in
          let '(finished, w) :=
            waitForFinished env 3000 (p_events_after_terminate env)
              (p_finished_after_terminate env) (p_exit_after_terminate env) w in
          let w :=
            if finished then w
            else
              let w := logger WARNING
                         (cp "Process did not terminate gracefully, killing...") w in
              let w := on_process (qcall_on Kill) w in
              (waitForFinished env 1000 (p_events_after_kill env)
                 (p_finished_after_kill env) (p_exit_after_kill env) w).2 in
          emit (log_message (cross_mark ++ cp " Render cancelled")) w
      | _ => w
      end
  | None => w
  end.

End Pipeline.

Arguments child_env : clear implicits.
Arguments child_state : clear implicits.
Arguments world : clear implicits.
Arguments parent_env : clear implicits.

(** ** Specifications in the words of the claims *)

(** What one line of the child's output makes the parent emit: a progress
    line with a payload that parses, a log line, or any other line. *)
Inductive line_signals (int_ : pystr -> option Z) : pystr -> list signal -> Prop :=
| progress_line line payload n :
    startswith (cp "PROGRESS:") line = true ->
    split 58 line !! 1%nat = Some payload ->
    int_ payload = Some n ->
    line_signals int_ line [progress_updated n]
| log_line line :
    startswith (cp "LOG:") line = true ->
    line_signals int_ line [log_message (strip (drop 4 line))]
| other_line line :
    (forall payload n,
        startswith (cp "PROGRESS:") line = true ->
        split 58 line !! 1%nat = Some payload ->
        int_ payload <> Some n) ->
    startswith (cp "LOG:") line = false ->
    line_signals int_ line [].

(** ** Concrete environments, for running the model *)

Fixpoint digits_value (acc : Z) (s : pystr) : option Z :=
  match s with
  | [] => Some acc
  | c :: s' =>
      if in_range 48 57 c then digits_value (10 * acc + Z.of_N (c - 48)) s'
      else None
  end.

(** [int(text)] on ASCII text: optional whitespace around an optional sign
    and one or more decimal digits. *)
Definition int_ascii (s : pystr) : option Z :=
  match strip s with
  | [] => None
  | c :: ds =>
      if (c =? 43)%N then (if nonempty ds then digits_value 0 ds else None)
      else if (c =? 45)%N then
        (if nonempty ds then Z.opp <$> digits_value 0 ds else None)
      else digits_value 0 (c :: ds)
  end.

Definition demo_parent_env {blob} (dump : val -> heap -> result blob)
  : parent_env blob :=
  {| p_candidates := [cp "/tmp/tmp0.pkl"; cp "/tmp/tmp1.pkl"];
     p_pickle_dump := dump;
     p_pickle_partial := fun _ _ => [];
     p_path_join := fun d f => d ++ cp "/" ++ f;
     p_path_name := fun p => default [] (last (split 47 p));
     p_python_exe := cp "python";
     p_script_path := cp "gui/utils/render_subprocess.py";
     p_started := true;
     p_events_after_terminate := [StdoutReady (cp "PROGRESS:30" ++ [10%N])];
     p_finished_after_terminate := false;
     p_exit_after_terminate := 15;
     p_events_after_kill := [];
     p_finished_after_kill := true;
     p_exit_after_kill := 9;
     p_Image_open := fun _ => Ok 1%N;
     p_np_array := fun img => Ok img;
     p_int := int_ascii |}.

Definition demo_process (st : ProcessState) : QProcess :=
  {| state := st; exitCode := 0; finished_slot := cp "output/render.png";
     qcalls := [Start (cp "python") [cp "gui/utils/render_subprocess.py";
                                     cp "/tmp/tmp0.pkl"; cp "output/render.png"];
                WaitForStarted 3000] |}.

Definition demo_world {blob} (p : option QProcess) : world blob :=
  {| output_dir := cp "output"; process := p; temp_files := [cp "/tmp/tmp0.pkl"];
     files := {[ cp "/tmp/tmp0.pkl" := [] ]}; objects := [];
     signals := []; logged := [] |}.

(** ** Notions for stating what the preprocessing does to the store *)

(** The references a value holds, also inside tuples. *)
Fixpoint val_refs (v : val) : list nat :=
  match v with
  | VRef l => [l]
  | VTuple items => flat_map val_refs items
  | _ => []
  end.

Definition obj_vals (o : obj) : list val :=
  match o with
  | ODict items => items.*2
  | OList items => items
  end.

(** Every reference of the value is to an object at or above [n]. *)
Definition val_above (n : nat) (v : val) : Prop :=
  Forall (fun l => n <= l)%nat (val_refs v).

(** The objects at or above [n] refer only to objects at or above [n]. *)
Definition closed_above (n : nat) (h : heap) : Prop :=
  forall l o, (n <= l)%nat -> h !! l = Some o -> Forall (val_above n) (obj_vals o).

(** The objects below [n] are as they were, and no object has gone. *)
Definition keeps (n : nat) (h h' : heap) : Prop :=
  (forall l, (l < n)%nat -> h' !! l = h !! l) /\ (length h <= length h')%nat.

(** The value with its references redirected through [m]: the copy of a
    value, where [m] sends each original object to its copy. *)
Fixpoint rename (m : gmap nat nat) (v : val) : val :=
  match v with
  | VRef l => VRef (default l (m !! l))
  | VTuple items => VTuple (map (rename m) items)
  | _ => v
  end.

Definition rename_obj (m : gmap nat nat) (o : obj) : obj :=
  match o with
  | ODict items => ODict (map (fun kv => (kv.1, rename m kv.2)) items)
  | OList items => OList (map (rename m) items)
  end.

(** A list or a dictionary: what the preprocessing takes for a transform. *)
Definition is_container (h : heap) (v : val) : bool :=
  isinstance_list h v || isinstance_dict h v.

(** The objects the preprocessing reaches from a value: through the items
    of lists and through the entries of dictionaries under keys other than
    ['to_world'].  Tuples are not entered. *)
Inductive visited (h : heap) : val -> nat -> Prop :=
| visited_here l : visited h (VRef l) l
| visited_item l0 items v l :
    h !! l0 = Some (OList items) -> v ∈ items -> visited h v l ->
    visited h (VRef l0) l
| visited_entry l0 items k v l :
    h !! l0 = Some (ODict items) -> (k, v) ∈ items -> k <> "to_world" ->
    visited h v l ->
    visited h (VRef l0) l.

(** The objects a value leads to, by any way: through its references (also
    those inside tuples), the items of lists and the values of
    dictionaries under any key. *)
Inductive reachable (h : heap) : val -> nat -> Prop :=
| reachable_ref v l : l ∈ val_refs v -> reachable h v l
| reachable_via v l0 o x l :
    l0 ∈ val_refs v -> h !! l0 = Some o -> x ∈ obj_vals o -> reachable h x l ->
    reachable h v l.

(** Every dictionary of a Python store has distinct keys. *)
Definition keys_unique (h : heap) : Prop :=
  forall l items, h !! l = Some (ODict items) -> NoDup items.*1.

(** The values the child has printed with the [PROGRESS:] tag, in order. *)
Definition progress_values (s : child_state) : list Z :=
  omap (fun l => match l with PROGRESS v => Some v | LOG _ => None end) (c_stdout s).

(** The calls of [mi.render] the child has made, in order: the scene, the
    [spp] argument, and whether the call returned. *)
Definition render_calls (s : child_state) : list (N * val * bool) :=
  omap (fun c : step * bool =>
          match c.1 with
          | Render scene spp => Some (scene, spp, c.2)
          | _ => None
          end) (c_trace s).

(** Loading the scene data, rendering and saving the image have all
    returned. *)
Definition load_render_save_ok (s : child_state) : Prop :=
  (exists f, (LoadData f, true) ∈ c_trace s) /\
  (exists scene spp, (Render scene spp, true) ∈ c_trace s) /\
  (exists img f, (Save img f, true) ∈ c_trace s).

(** A stand-in for the renderer: every call returns, with a handle that
    tells which call made it. *)
Definition demo_mi : mitsuba :=
  {| np_array_float32 := fun _ _ => Ok 5%N;
     np_reshape_4_4 := fun a => Ok a;
     ScalarTransform4f := fun a => Ok (a + 1)%N;
     ScalarTransform4f_identity := Ok 0%N;
     look_at := fun _ _ _ _ => Ok 1%N;
     translate := fun _ _ => Ok 2%N;
     scale := fun _ _ => Ok 3%N;
     rotate := fun _ _ _ => Ok 4%N;
     matmul := fun a b => Ok (10 + a + 10 * b)%N |}.

(** The objects of a small pickle: [{'scene_dict': {...}, 'params': {'spp': 64}}]
    with a camera given by a [look_at] dictionary. *)
Definition demo_pickled : heap * val :=
  ([ OList [VInt 3; VInt 3; VInt 2];
     ODict [("type", VStr "look_at"); ("origin", VRef 0)];
     ODict [("type", VStr "perspective"); ("to_world", VRef 1)];
     ODict [("type", VStr "scene"); ("sensor", VRef 2)];
     ODict [("spp", VInt 64)];
     ODict [("scene_dict", VRef 3); ("params", VRef 4)] ],
   VRef 5).

Definition demo_child_env_with {blob} (fs : gmap pystr (list blob))
    (load : blob -> result (heap * val)) (unlink : result unit) : child_env blob :=
  {| c_files := fs;
     c_pickle_load := load;
     c_import_mitsuba := Ok tt;
     c_mi := demo_mi;
     c_set_variant := fun _ _ => Ok tt;
     c_load_dict := fun _ _ => Ok 100%N;
     c_render := fun _ _ _ => Ok 101%N;
     c_Bitmap := fun _ => Ok 102%N;
     c_np_array := fun _ => Ok 103%N;
     c_to_8bit := fun _ => Ok 104%N;
     c_fromarray := fun _ => Ok 105%N;
     c_save := fun _ _ => Ok tt;
     c_unlink := fun _ => unlink;
     c_depth := 100 |}.

Definition demo_child_env (unlink : result unit) : child_env unit :=
  demo_child_env_with {[ cp "/tmp/tmp0.pkl" := [tt] ]} (fun _ => Ok demo_pickled) unlink.

Definition demo_argv : list pystr :=
  [cp "gui/utils/render_subprocess.py"; cp "/tmp/tmp0.pkl"; cp "output/render.png"].













(** Every reference of the value is to an object below [n]. *)
Definition val_below (n : nat) (v : val) : Prop :=
  Forall (fun l => l < n)%nat (val_refs v).

(** A store as Python has them: the keys of a dictionary are distinct, and
    every reference held by an object is to an object of the store. *)
Definition store_ok (h : heap) : Prop :=
  keys_unique h /\
  forall l o, h !! l = Some o -> Forall (val_below (length h)) (obj_vals o).

(** Every object the value refers to has a copy under [m]. *)
Definition val_in (m : gmap nat nat) (v : val) : Prop :=
  Forall (fun l => is_Some (m !! l)) (val_refs v).

(** How an entry of a dictionary of the argument and the entry at the same
    place in its copy compare after the preprocessing: same key; where the
    preprocessing has reached the dictionary, the key is ['to_world'] and
    the original value is a list or a dictionary, the value is an object of
    the renderer; in every other case it is the copy of the original
    value. *)
Definition entry_copied (h : heap) (m : gmap nat nat) (reached : Prop)
    (e e' : string * val) : Prop :=
  e'.1 = e.1 /\
  (reached -> e.1 = "to_world" -> is_container h e.2 = true ->
   exists t, e'.2 = VObject t) /\
  (~ (reached /\ e.1 = "to_world" /\ is_container h e.2 = true) ->
   e'.2 = rename m e.2).

(** An object of the argument and its copy after the preprocessing: a list is
    copied item by item, a dictionary entry by entry. *)
Definition object_copied (h : heap) (m : gmap nat nat) (reached : Prop)
    (o o' : obj) : Prop :=
  match o with
  | OList items => o' = OList (map (rename m) items)
  | ODict items =>
      exists items', o' = ODict items' /\ Forall2 (entry_copied h m reached) items items'
  end.

(** The state of a [deepcopy] of objects of the store [h0]: the objects of
    [h0] are in place, the memo sends objects of [h0] to objects made since,
    no two to the same, and every object made since is in the memo. *)
Definition copy_inv (h0 : heap) (s : gmap nat nat * heap) : Prop :=
  (forall l, (l < length h0)%nat -> s.2 !! l = h0 !! l) /\
  (length h0 <= length s.2)%nat /\
  (forall l l', s.1 !! l = Some l' ->
                (l < length h0)%nat /\ (length h0 <= l' < length s.2)%nat) /\
  (forall l1 l2 l', s.1 !! l1 = Some l' -> s.1 !! l2 = Some l' -> l1 = l2) /\
  (forall l', (length h0 <= l' < length s.2)%nat -> exists l, s.1 !! l = Some l').

(** The object at [a'] is the finished copy of the object at [a] of [h0]. *)
Definition copied (h0 : heap) (m : gmap nat nat) (h : heap) (a a' : nat) : Prop :=
  exists o, h0 !! a = Some o /\ h !! a' = Some (rename_obj m o) /\
            Forall (val_in m) (obj_vals o).

(** What a call of [deepcopy] that returns [y] for [x] has done. *)
Definition copy_post (h0 : heap) (s : gmap nat nat * heap) (x y : val)
    (s' : gmap nat nat * heap) : Prop :=
  copy_inv h0 s' /\ s.1 ⊆ s'.1 /\
  (forall a, (a < length s.2)%nat -> s'.2 !! a = s.2 !! a) /\
  y = rename s'.1 x /\ val_in s'.1 x /\
  (forall a a', s'.1 !! a = Some a' -> s.1 !! a = None -> copied h0 s'.1 s'.2 a a').

(** [y.append(v)] and [y[k] = v] as functions on the object. *)
Definition append_to (v : val) (o : obj) : obj :=
  match o with OList xs => OList (xs ++ [v]) | ODict _ => o end.

Definition set_in (k : string) (v : val) (o : obj) : obj :=
  match o with ODict xs => ODict (dict_set k v xs) | OList _ => o end.

(** Every reference held by an object is to an object of the store. *)
Definition no_dangling (h : heap) : Prop :=
  forall l o, h !! l = Some o -> Forall (val_below (length h)) (obj_vals o).

(** What [_process_recursive] may do to an object: nothing, or replace the
    list or dictionary under ['to_world'] by an object of the renderer. *)
Definition obj_upd (o o' : obj) : Prop :=
  o' = o \/
  exists items a t,
    o = ODict items /\ dict_lookup "to_world" items = Some (VRef a) /\
    o' = ODict (dict_set "to_world" (VObject t) items).

(** ... and to the store: objects may be added, and each object there was is
    changed at most in that way. *)
Definition upd (h h' : heap) : Prop :=
  (length h <= length h')%nat /\
  forall l o, h !! l = Some o -> exists o', h' !! l = Some o' /\ obj_upd o o'.

(** ... and only to the objects in [S]. *)
Definition upd_in (S : nat -> Prop) (h h' : heap) : Prop :=
  upd h h' /\ forall l o, h !! l = Some o -> h' !! l = Some o \/ S l.

(** No dictionary reached from the value still has a list or a dictionary
    under ['to_world']. *)
Definition processed (h : heap) (v : val) : Prop :=
  forall l items a,
    visited h v l -> h !! l = Some (ODict items) ->
    dict_lookup "to_world" items <> Some (VRef a).

(** A scene whose shapes are kept in a tuple:
    [{'type': 'scene', 'shapes': ({'type': 'sphere', 'to_world':
    {'type': 'translate', 'value': [1, 0, 0]}},)}]. *)
Definition tuple_scene : heap :=
  [ OList [VInt 1; VInt 0; VInt 0];
    ODict [("type", VStr "translate"); ("value", VRef 0)];
    ODict [("type", VStr "sphere"); ("to_world", VRef 1)];
    ODict [("type", VStr "scene"); ("shapes", VTuple [VRef 2])] ].

(** ** [gui/utils/subprocess_renderer.py]: [cleanup] *)

Section Housekeeping.

Context {blob : Type}.

(** The body of the loop of [cleanup] for one temp file.  [unlink_error]
    says for which paths the operating system refuses the deletion, and with
    what exception; the handler logs it and goes on. *)
Definition cleanup_file (unlink_error : pystr -> option exn) (w : world blob)
    (temp_file : pystr) : world blob :=
  match files w !! temp_file with
  | Some _ =>
      match unlink_error temp_file with
      | None => set_files (delete temp_file (files w)) w
      | Some e =>
          logger WARNING (cp "Could not delete temp file " ++ temp_file ++ cp ": "
                          ++ exn_msg e) w
      end
  | None => w
  end.

(** [SubprocessRenderer.cleanup(self)].  The renderer lets go of its
    [QProcess]; the second component is that object as [cleanup] leaves
    it. *)
Definition cleanup (env : parent_env blob) (unlink_error : pystr -> option exn)
    (w : world blob) : world blob * option QProcess :=
  let w :=
    match process w with
    | Some p =>
        match state p with
        | Running =>
            let w := logger INFO (cp "Cleaning up running subprocess...") w in
            let w := on_process (qcall_on Terminate) w in
            let '(finished, w) :=
              waitForFinished env 2000 (p_events_after_terminate env)
                (p_finished_after_terminate env) (p_exit_after_terminate env) w in
            if finished then w
            else
              let w := on_process (qcall_on Kill) w in
              (waitForFinished env 500 (p_events_after_kill env)
                 (p_finished_after_kill env) (p_exit_after_kill env) w).2
        | _ => w
        end
    | None => w
    end in
  let dropped := process w in
  let w := match dropped with Some _ => set_process None w | None => w end in
  match temp_files w with
  | [] => (w, dropped)
  | _ :: _ =>
      let w := logger DEBUG (cp "Cleaning up " ++ str_of_int (Z.of_nat (length (temp_files w)))
                             ++ cp " temp files...") w in
      let w := foldl (cleanup_file unlink_error) w (temp_files w) in
      (set_temp_files [] w, dropped)
  end.

End Housekeeping.

(** ** [gui/utils/renderer.py]: [RenderWorker.run]

    The worker runs in a thread of its own.  What it does is seen through
    the signals it emits, the calls it makes into the renderer and numpy,
    and the objects it builds; the records it sends to the [loguru] logger
    are not part of the model. *)

(** The signals of [RenderWorker]. *)
Inductive worker_signal :=
| w_progress (value : Z)
| w_finished (img_array : N)
| w_error (message : pystr)
| w_log (message : list frag).

(** The worker's environment: the outcome of every external call, and what
    [self._is_cancelled] holds at the two places where [run] reads it
    (another thread may have set it). *)
Record worker_env := {
  wk_mi : mitsuba;
  wk_depth : nat;
  wk_load_dict : val -> heap -> result N;
  wk_render : N -> val -> heap -> result N;
  wk_Bitmap : N -> result N;
  wk_np_array : N -> result N;
  wk_cancelled_after_load : bool;
  wk_cancelled_after_render : bool
}.

Record worker_state := {
  wk_heap : heap;
  wk_signals : list worker_signal;
  wk_trace : list (step * bool)
}.

Definition wk_emit (sg : worker_signal) : M worker_state unit :=
  fun s => (Ok tt, {| wk_heap := wk_heap s; wk_signals := wk_signals s ++ [sg];
                      wk_trace := wk_trace s |}).

Definition wk_on_heap {A} (m : M heap A) : M worker_state A :=
  fun s => let '(r, h') := m (wk_heap s) in
           (r, {| wk_heap := h'; wk_signals := wk_signals s; wk_trace := wk_trace s |}).

Definition wk_ext {A} (st : step) (f : heap -> result A) : M worker_state A :=
  fun s => let r := f (wk_heap s) in
           (r, {| wk_heap := wk_heap s; wk_signals := wk_signals s;
                  wk_trace := wk_trace s ++ [(st, is_ok r)] |}).

(** [try: ... except Exception as e: raise Exception(f"<what>: {str(e)}")] *)
Definition reraise {S A} (what : string) (m : M S A) : M S A :=
  fun s => match m s with
           | (Ok a, s') => (Ok a, s')
           | (Raise e, s') => (Raise (Exn "Exception" (cp what ++ cp ": " ++ exn_msg e)), s')
           end.

(** The outer [try] block of [run]; a [return] ends it. *)
Definition run_try (env : worker_env) (self_scene_dict self_params : val)
  : M worker_state unit :=
  wk_emit (w_log [Lit "Starting render..."]) ;;;
  wk_emit (w_log [Lit "Preprocessing scene..."]) ;;;
  scene_dict <-
    reraise "Scene preprocessing failed"
      (scene_dict <- wk_on_heap (_preprocess_scene_dict (wk_mi env) (wk_depth env)
                                   self_scene_dict) ;;
       wk_emit (w_log [Lit "Scene preprocessing complete"]) ;;;
       ret scene_dict) ;;
  wk_emit (w_progress 10) ;;;
  wk_emit (w_log [Lit "Loading scene..."]) ;;;
  scene <-
    reraise "Scene loading failed"
      (scene <- wk_ext (LoadDict scene_dict) (wk_load_dict env scene_dict) ;;
       wk_emit (w_log [Lit "Scene loaded successfully"]) ;;;
       ret scene) ;;
  if wk_cancelled_after_load env then ret tt
  else
    wk_emit (w_progress 20) ;;;
    integrator <- wk_on_heap (py_get self_params "integrator" (VStr "path")) ;;
    spp <- wk_on_heap (py_get self_params "spp" (VInt 256)) ;;
    wk_emit (w_log [Lit "Rendering with "; Fmt integrator; Lit " integrator (";
                    Fmt spp; Lit " spp)..."]) ;;;
    image <- reraise "Rendering failed"
               (wk_ext (Render scene spp) (wk_render env scene spp)) ;;
    if wk_cancelled_after_render env then ret tt
    else
      wk_emit (w_progress 90) ;;;
      wk_emit (w_log [Lit "Post-processing..."]) ;;;
      bitmap <- reraise "Bitmap conversion failed"
                  (wk_ext (MakeBitmap image) (fun _ => wk_Bitmap env image)) ;;
      wk_emit (w_progress 100) ;;;
      wk_emit (w_log [Lit "Render complete!"]) ;;;
      img_array <- wk_ext (ToArray bitmap) (fun _ => wk_np_array env bitmap) ;;
      wk_emit (w_finished img_array).

(** [RenderWorker.run(self)], for a worker made with
    [RenderWorker(scene_dict, params)], in a store [h]. *)
Definition run (env : worker_env) (self_scene_dict self_params : val) (h : heap)
  : worker_state :=
  match run_try env self_scene_dict self_params
          {| wk_heap := h; wk_signals := []; wk_trace := [] |} with
  | (Ok _, s) => s
  | (Raise e, s) =>
      {| wk_heap := wk_heap s;
         wk_signals := wk_signals s ++ [w_error (cp "Render error: " ++ exn_msg e)];
         wk_trace := wk_trace s |}
  end.

(** The values sent with [progress], and the signals that end a render. *)
Definition worker_progress (sigs : list worker_signal) : list Z :=
  omap (fun s => match s with w_progress v => Some v | _ => None end) sigs.

Definition is_terminal (s : worker_signal) : bool :=
  match s with w_finished _ | w_error _ => true | _ => false end.

(** A call of the trace that, if it is a call of [mi.render], has the given
    [spp]. *)
Definition renders_with (spp : val) (c : step * bool) : Prop :=
  match c.1 with
  | Render _ spp' => spp' = spp
  | _ => True
  end.

Definition demo_worker_env : worker_env :=
  {| wk_mi := demo_mi; wk_depth := 100;
     wk_load_dict := fun _ _ => Ok 100%N;
     wk_render := fun _ _ _ => Ok 101%N;
     wk_Bitmap := fun _ => Ok 102%N;
     wk_np_array := fun _ => Ok 103%N;
     wk_cancelled_after_load := false;
     wk_cancelled_after_render := false |}.

(** ** [gui/utils/renderer.py]: [MitsubaRenderer] *)

(** The attributes that the class [RenderWorker] and its instances have of
    their own: the four signals, the methods, and what [__init__] sets. *)
Definition RenderWorker_attributes : list string :=
  ["progress"; "finished"; "error"; "log"; "__init__"; "run";
   "_preprocess_scene_dict"; "_process_transforms_recursive";
   "_build_transform_from_dict"; "scene_dict"; "params"; "_is_cancelled"].

(** What the renderer does outside itself: calls of [mi.set_variant], threads
    started on [RenderWorker.run], calls on the worker, and images saved. *)
Inductive gui_call :=
| SetVariantMain (variant : val)
| ThreadStart (scene_dict params : val)
| WorkerCall (method : string)
| ThreadJoin
| SaveImage (img : N) (path : pystr).

(** A [MitsubaRenderer]: its fields, the signals it has emitted and the
    calls it has made.  A worker is given by the two arguments it was made
    with. *)
Record mitsuba_renderer := {
  mr_output_dir : pystr;
  current_worker : option (val * val);
  current_thread : option (val * val);
  _is_rendering : bool;
  mr_signals : list signal;
  mr_calls : list gui_call
}.

(** The environment of the renderer: the outcome of the external calls, and
    which attributes the base class [QObject] provides. *)
Record gui_env := {
  g_set_variant : val -> heap -> result unit;
  g_thread_start : result unit;
  g_qobject_has : string -> bool;
  g_path_join : pystr -> pystr -> pystr;
  g_with_suffix_png : pystr -> pystr;
  g_clip : N -> result N;
  g_to_uint8 : N -> result N;
  g_shape : N -> list Z;
  g_fromarray : N -> string -> result N;
  g_save : N -> pystr -> result unit
}.

Definition mr_emit (s : signal) : M mitsuba_renderer unit :=
  fun r => (Ok tt, {| mr_output_dir := mr_output_dir r; current_worker := current_worker r;
                      current_thread := current_thread r; _is_rendering := _is_rendering r;
                      mr_signals := mr_signals r ++ [s]; mr_calls := mr_calls r |}).

Definition mr_call {A} (c : gui_call) (x : result A) : M mitsuba_renderer A :=
  fun r => (x, {| mr_output_dir := mr_output_dir r; current_worker := current_worker r;
                  current_thread := current_thread r; _is_rendering := _is_rendering r;
                  mr_signals := mr_signals r; mr_calls := mr_calls r ++ [c] |}).

Definition set_is_rendering (b : bool) : M mitsuba_renderer unit :=
  fun r => (Ok tt, {| mr_output_dir := mr_output_dir r; current_worker := current_worker r;
                      current_thread := current_thread r; _is_rendering := b;
                      mr_signals := mr_signals r; mr_calls := mr_calls r |}).

Definition set_current_worker (wk : option (val * val)) : M mitsuba_renderer unit :=
  fun r => (Ok tt, {| mr_output_dir := mr_output_dir r; current_worker := wk;
                      current_thread := current_thread r; _is_rendering := _is_rendering r;
                      mr_signals := mr_signals r; mr_calls := mr_calls r |}).

Definition set_current_thread (t : option (val * val)) : M mitsuba_renderer unit :=
  fun r => (Ok tt, {| mr_output_dir := mr_output_dir r; current_worker := current_worker r;
                      current_thread := t; _is_rendering := _is_rendering r;
                      mr_signals := mr_signals r; mr_calls := mr_calls r |}).

(** Reading the store of the GUI process, which the renderer does not
    change. *)
Definition reading {A} (h : heap) (m : M heap A) : M mitsuba_renderer A :=
  fun r => ((m h).1, r).

(** The [try] block of [MitsubaRenderer.render_scene]. *)
Definition mr_render_scene_try (env : gui_env) (h : heap) (scene_dict params : val)
  : M mitsuba_renderer unit :=
  has_variant <- reading h (py_contains params "variant") ;;
  (if has_variant : bool then
     reading h (py_getitem params "variant") ;;;
     variant <- reading h (py_getitem params "variant") ;;
     mr_call (SetVariantMain variant) (g_set_variant env variant h)
   else ret tt) ;;;
  set_current_worker (Some (scene_dict, params)) ;;;
  set_is_rendering true ;;;
  set_current_thread (Some (scene_dict, params)) ;;;
  mr_call (ThreadStart scene_dict params) (g_thread_start env).

(** [MitsubaRenderer.render_scene(self, scene_dict, params, output_filename)];
    the file name is bound in the slot connected to the worker's
    [finished]. *)
Definition mr_render_scene (env : gui_env) (h : heap) (scene_dict params : val)
    (r : mitsuba_renderer) : mitsuba_renderer :=
  if _is_rendering r then
    (mr_emit (log_message (warning_sign ++ cp "  Render already in progress")) r).2
  else
    match mr_render_scene_try env h scene_dict params r with
    | (Ok _, r') => r'
    | (Raise e, r') =>
        ((mr_emit (log_message (cross_mark ++ cp " Failed to start render: "
                                ++ exn_msg e)) ;;;
          mr_emit (render_failed (exn_msg e)) ;;;
          set_is_rendering false) r').2
    end.

(** [worker.<name>()] on a [RenderWorker]: the attribute is looked up on the
    instance, its class and the base class. *)
Definition worker_method (env : gui_env) (name : string) : M mitsuba_renderer unit :=
  if bool_decide (name ∈ RenderWorker_attributes) || g_qobject_has env name then
    mr_call (WorkerCall name) (Ok tt)
  else
    raise (Exn "AttributeError"
             (cp "'RenderWorker' object has no attribute '" ++ cp name ++ cp "'")).

(** [MitsubaRenderer.cancel_render(self)] *)
Definition mr_cancel_render (env : gui_env) : M mitsuba_renderer unit :=
  fun r =>
    match current_worker r with
    | Some _ =>
        if _is_rendering r then
          (worker_method env "cancel" ;;;
           (match current_thread r with
            | Some _ => mr_call ThreadJoin (Ok tt)
            | None => ret tt
            end) ;;;
           set_is_rendering false ;;;
           mr_emit (log_message (cross_mark ++ cp " Render cancelled"))) r
        else (Ok tt, r)
    | None => (Ok tt, r)
    end.

(** [MitsubaRenderer._on_progress], [_on_error] and [_on_log]: the slots
    connected to the worker's signals. *)
Definition _on_progress (value : Z) : M mitsuba_renderer unit :=
  mr_emit (progress_updated value).

Definition _on_error (error_msg : pystr) : M mitsuba_renderer unit :=
  set_is_rendering false ;;; mr_emit (render_failed error_msg).

Definition _on_log (message : pystr) : M mitsuba_renderer unit :=
  mr_emit (log_message message).

(** The mode [_on_render_complete] gives [Image.fromarray] for an array of
    the given shape. *)
Definition image_mode (shape : list Z) : string :=
  match shape with
  | [_; _; c] => if c =? 4 then "RGBA" else if c =? 3 then "RGB" else "L"
  | _ => "L"
  end.

(** [MitsubaRenderer._on_render_complete(self, image_array, filename)] *)
Definition _on_render_complete (env : gui_env) (image_array : N) (filename : pystr)
    (r : mitsuba_renderer) : mitsuba_renderer :=
  let '(_, r) := set_is_rendering false r in
  let body : M mitsuba_renderer unit :=
    let output_path := g_path_join env (mr_output_dir r) filename in
    img_normalized <- lift (g_clip env image_array) ;;
    img_8bit <- lift (g_to_uint8 env img_normalized) ;;
    img <- lift (g_fromarray env img_8bit (image_mode (g_shape env img_8bit))) ;;
    let png_path := g_with_suffix_png env output_path in
    mr_call (SaveImage img png_path) (g_save env img png_path) ;;;
    mr_emit (render_complete image_array png_path) in
  match body r with
  | (Ok _, r') => r'
  | (Raise e, r') =>
      (mr_emit (render_failed (cp "Failed to save render: " ++ exn_msg e)) r').2
  end.

Definition demo_gui_env : gui_env :=
  {| g_set_variant := fun _ _ => Ok tt;
     g_thread_start := Ok tt;
     g_qobject_has := fun name => bool_decide (name ∈ ["deleteLater"; "moveToThread";
                                                       "objectName"; "parent"]);
     g_path_join := fun d f => d ++ cp "/" ++ f;
     g_with_suffix_png := fun p => default [] (head (split 46 p)) ++ cp ".png";
     g_clip := fun a => Ok a;
     g_to_uint8 := fun a => Ok a;
     g_shape := fun _ => [600; 800; 3];
     g_fromarray := fun a _ => Ok a;
     g_save := fun _ _ => Ok tt |}.

Definition demo_renderer (rendering : bool) : mitsuba_renderer :=
  {| mr_output_dir := cp "output";
     current_worker := if rendering then Some (VRef 3, VRef 4) else None;
     current_thread := if rendering then Some (VRef 3, VRef 4) else None;
     _is_rendering := rendering; mr_signals := []; mr_calls := [] |}.

(** ** Notions for the further properties *)

(** A signal that carries output of the child. *)
Definition is_output_signal (s : signal) : Prop :=
  match s with
  | progress_updated _ | log_message _ => True
  | render_complete _ _ | render_failed _ => False
  end.

(** What [_on_finished(output_path)] emits for an exit code. *)
Definition finished_signals {blob} (env : parent_env blob) (output_path : pystr)
    (exit_code : Z) : list signal :=
  if exit_code =? 0 then
    match match p_Image_open env output_path with
          | Ok img => p_np_array env img
          | Raise e => Raise e
          end with
    | Ok img_array =>
        [log_message (check_mark ++ cp " Render complete: "
                      ++ p_path_name env output_path);
         render_complete img_array output_path]
    | Raise e => [render_failed (cp "Failed to load image: " ++ exn_msg e)]
    end
  else
    let error_msg := cp "Render failed with exit code " ++ str_of_int exit_code in
    [log_message (cross_mark ++ cp " " ++ error_msg); render_failed error_msg].

(** The process after [terminate], a wait of [m1] ms and, if it has not
    ended by then, [kill] and a wait of [m2] ms. *)
Definition stopped {blob} (env : parent_env blob) (m1 m2 : Z) (p : QProcess)
  : QProcess :=
  let p1 := qcall_on (WaitForFinished m1) (qcall_on Terminate p) in
  if p_finished_after_terminate env then
    set_exit (p_exit_after_terminate env) (set_state NotRunning p1)
  else
    let p2 := qcall_on (WaitForFinished m2) (qcall_on Kill p1) in
    if p_finished_after_kill env then
      set_exit (p_exit_after_kill env) (set_state NotRunning p2)
    else p2.

(** What [_on_finished] emits while the renderer waits for the child it
    has asked to stop: nothing when the child outlasts the waits. *)
Definition stop_signals {blob} (env : parent_env blob) (output_path : pystr)
  : list signal :=
  if p_finished_after_terminate env then
    finished_signals env output_path (p_exit_after_terminate env)
  else if p_finished_after_kill env then
    finished_signals env output_path (p_exit_after_kill env)
  else [].

(** A decimal digit or the minus sign. *)
Definition is_digit_or_minus (c : N) : bool := in_range 48 57 c || (c =? 45)%N.

(** What [print(f"PROGRESS:{value}", flush=True)] writes for an [int]. *)
Definition progress_text (value : Z) : pystr :=
  cp "PROGRESS:" ++ str_of_int value ++ [10%N].

(** A parent environment in which pickling raises after a first write, and
    one in which the child does not start. *)
Definition demo_parent_env_unpicklable : parent_env unit :=
  {| p_candidates := [cp "/tmp/tmp0.pkl"; cp "/tmp/tmp1.pkl"];
     p_pickle_dump := fun _ _ => Raise (Exn "PicklingError" (cp "Can't pickle object"));
     p_pickle_partial := fun _ _ => [tt];
     p_path_join := fun d f => d ++ cp "/" ++ f;
     p_path_name := fun p => default [] (last (split 47 p));
     p_python_exe := cp "python";
     p_script_path := cp "gui/utils/render_subprocess.py";
     p_started := true;
     p_events_after_terminate := [];
     p_finished_after_terminate := false;
     p_exit_after_terminate := 15;
     p_events_after_kill := [];
     p_finished_after_kill := true;
     p_exit_after_kill := 9;
     p_Image_open := fun _ => Ok 1%N;
     p_np_array := fun img => Ok img;
     p_int := int_ascii |}.

Definition demo_parent_env_stalled : parent_env unit :=
  {| p_candidates := [cp "/tmp/tmp0.pkl"; cp "/tmp/tmp1.pkl"];
     p_pickle_dump := fun _ _ => Ok tt;
     p_pickle_partial := fun _ _ => [];
     p_path_join := fun d f => d ++ cp "/" ++ f;
     p_path_name := fun p => default [] (last (split 47 p));
     p_python_exe := cp "python";
     p_script_path := cp "gui/utils/render_subprocess.py";
     p_started := false;
     p_events_after_terminate := [];
     p_finished_after_terminate := false;
     p_exit_after_terminate := 15;
     p_events_after_kill := [];
     p_finished_after_kill := true;
     p_exit_after_kill := 9;
     p_Image_open := fun _ => Ok 1%N;
     p_np_array := fun img => Ok img;
     p_int := int_ascii |}.

(** No dictionary of the store has ['type'] equal to ['look_at']. *)
Definition no_look_at (h : heap) : Prop :=
  forall l items,
    h !! l = Some (ODict items) -> dict_lookup "type" items <> Some (VStr "look_at").

(** A scene with a ground plane placed by a ['translate'] with a ['scale']
    child, as [BasicSceneGenerator.generate] builds it, and no camera. *)
Definition ground_scene : heap :=
  [ OList [VInt 0; VInt 0; VInt (-1)];
    ODict [("type", VStr "scale"); ("value", VInt 20)];
    ODict [("type", VStr "translate"); ("value", VRef 0); ("child", VRef 1)];
    ODict [("type", VStr "rectangle"); ("to_world", VRef 2)];
    ODict [("type", VStr "scene"); ("ground", VRef 3)] ].

(** ** [gui/core/main_window.py] and [gui/tabs]: a render request *)






Section Request.

Context {blob : Type}.


End Request.



(** What [print(f"LOG:[{timestamp}] {message}", flush=True)] writes. *)
Definition log_text (timestamp message : pystr) : pystr :=
  cp "LOG:[" ++ timestamp ++ cp "] " ++ message ++ [10%N].


(** The renderer but for its process, its signals and its log. *)
Definition same_files {blob} (w w' : world blob) : Prop :=
  temp_files w' = temp_files w /\ files w' = files w /\
  objects w' = objects w /\ output_dir w' = output_dir w.

(** * Theorems *)

(** ** The parent's reading of the child's output *)

Section Stdout.

Context {blob : Type}.
Implicit Types (w : world blob) (env : parent_env blob).

Lemma signals_emit s w : signals (emit s w) = signals w ++ [s].
Proof. reflexivity. Qed.

Lemma signals_logger lv m w : signals (logger lv m w) = signals w.
Proof. reflexivity. Qed.

Lemma progress_not_log (line : pystr) :
  startswith (cp "PROGRESS:") line = true -> startswith (cp "LOG:") line = false.
Proof.
  destruct line as [|c line]; [done|].
  change (cp "PROGRESS:") with (80%N :: cp "ROGRESS:").
  change (cp "LOG:") with (76%N :: cp "OG:").
  cbn [startswith]. intros H.
  apply andb_true_iff in H as [Hc _]. apply N.eqb_eq in Hc. by subst c.
Qed.

(** One line either is empty and emits nothing, or emits what its tag says. *)
Lemma on_stdout_line_signals env w line :
  exists sigs,
    (if nonempty line then line_signals (p_int env) line sigs else sigs = []) /\
    signals (on_stdout_line env w line) = signals w ++ sigs.
Proof.
  unfold on_stdout_line.
  destruct (nonempty line) eqn:Hne.
  - destruct (startswith (cp "PROGRESS:") line) eqn:Hp.
    + destruct (split 58 line !! 1%nat) as [payload|] eqn:Hsp.
      * destruct (p_int env payload) as [n|] eqn:Hint.
        -- exists [progress_updated n]. split; [eauto using line_signals | done].
        -- exists []. split; [|by rewrite app_nil_r].
           apply other_line.
           ++ intros payload' n' _ Hsp'. congruence.
           ++ by apply progress_not_log.
      * exists []. split; [|by rewrite app_nil_r].
        apply other_line.
        -- intros payload' n' _ Hsp'. congruence.
        -- by apply progress_not_log.
    + destruct (startswith (cp "LOG:") line) eqn:Hl.
      * exists [log_message (strip (drop 4 line))]. split; [eauto using line_signals | done].
      * exists []. split; [|by rewrite app_nil_r].
        apply other_line; [congruence | done].
  - exists []. split; [done | by rewrite app_nil_r].
Qed.

Lemma on_stdout_lines_signals env lines : forall w,
  exists sigs,
    Forall2 (line_signals (p_int env)) (List.filter nonempty lines) sigs /\
    signals (foldl (on_stdout_line env) w lines) = signals w ++ concat sigs.
Proof.
  induction lines as [|line lines IH]; intros w; simpl.
  - exists []. split; [constructor | by rewrite app_nil_r].
  - destruct (on_stdout_line_signals env w line) as (s1 & Hs1 & E1).
    destruct (IH (on_stdout_line env w line)) as (ss & Hss & E2).
    destruct (nonempty line).
    + exists (s1 :: ss). split; [by constructor|].
      rewrite E2, E1. simpl. by rewrite app_assoc.
    + subst s1. exists ss. split; [done|].
      rewrite E2, E1. by rewrite app_nil_r.
Qed.

(** C1: for every chunk that [_on_stdout] receives while the renderer has a
    process, the non-empty lines of the chunk (ANSI codes removed, then
    stripped, then split at newlines) are classified one by one: a
    [PROGRESS:] line whose payload parses emits [progress_updated] with that
    integer, a [LOG:] line emits [log_message] with the stripped remainder
    after the four characters of the tag, every other line emits nothing; the
    signals emitted are exactly these, in the order of the lines. *)
Theorem on_stdout_classifies_lines env w p chunk :
  process w = Some p ->
  exists sigs,
    Forall2 (line_signals (p_int env))
      (List.filter nonempty (split 10 (strip (strip_ansi_codes chunk)))) sigs /\
    signals (_on_stdout env chunk w) = signals w ++ concat sigs.
Proof.
  intros Hp. unfold _on_stdout. rewrite Hp.
  apply on_stdout_lines_signals.
Qed.

End Stdout.

Definition demo_chunk : pystr :=
  cp "PROGRESS:5" ++ [10; 27; 91; 51; 49; 109]%N
  ++ cp "LOG:[12:00:01] Loading scene..." ++ [27; 91; 48; 109; 10]%N
  ++ cp "hello" ++ [10; 10]%N ++ cp "PROGRESS:abc" ++ [10]%N
  ++ cp "PROGRESS: 80 :x" ++ [13; 10]%N.

Example on_stdout_demo :
  signals (_on_stdout (demo_parent_env (fun _ _ => Ok tt)) demo_chunk
             (demo_world (Some (demo_process Running))))
  = [progress_updated 5; log_message (cp "[12:00:01] Loading scene...");
     progress_updated 80].
Proof. vm_compute. reflexivity. Qed.

Lemma on_stdout_classifies_lines_witness :
  process (demo_world (blob := unit) (Some (demo_process Running)))
  = Some (demo_process Running) /\
  exists sigs,
    Forall2 (line_signals int_ascii)
      (List.filter nonempty (split 10 (strip (strip_ansi_codes demo_chunk)))) sigs /\
    signals (_on_stdout (demo_parent_env (fun _ _ => Ok tt)) demo_chunk
               (demo_world (Some (demo_process Running))))
    = signals (demo_world (blob := unit) (Some (demo_process Running))) ++ concat sigs.
Proof.
  split; [reflexivity|].
  apply (on_stdout_classifies_lines (demo_parent_env (fun _ _ => Ok tt))
           (demo_world (Some (demo_process Running))) (demo_process Running) demo_chunk).
  reflexivity.
Defined.

(** ** One render at a time, and cancelling *)

Section OneProcess.

Context {blob : Type}.
Implicit Types (w : world blob) (env : parent_env blob).

(** C5: while [self.process] is in the [Running] state, [render_scene] emits
    the warning through [log_message] (and logs it) and returns: no process
    is started, no file is created, no object is built, and the process, the
    list of temp files and every other field are as before. *)
Theorem render_scene_while_running env w p scene_dict params output_filename :
  process w = Some p ->
  state p = Running ->
  let w' := render_scene env scene_dict params output_filename w in
  signals w' = signals w ++ [log_message (warning_sign ++ cp "  Render already in progress")]
  /\ logged w' = logged w ++ [(WARNING, cp "Render already in progress")]
  /\ process w' = Some p
  /\ temp_files w' = temp_files w
  /\ files w' = files w
  /\ objects w' = objects w
  /\ output_dir w' = output_dir w.
Proof.
  intros Hp Hst. unfold render_scene, running. rewrite Hp, Hst. simpl.
  by rewrite Hp.
Qed.

End OneProcess.

Lemma render_scene_while_running_witness :
  let w := demo_world (blob := unit) (Some (demo_process Running)) in
  let w' := render_scene (demo_parent_env (fun _ _ => Ok tt)) VNone VNone
              (cp "render.png") w in
  process w = Some (demo_process Running) /\
  state (demo_process Running) = Running /\
  signals w' = signals w ++ [log_message (warning_sign ++ cp "  Render already in progress")]
  /\ logged w' = logged w ++ [(WARNING, cp "Render already in progress")]
  /\ process w' = Some (demo_process Running)
  /\ temp_files w' = temp_files w
  /\ files w' = files w
  /\ objects w' = objects w
  /\ output_dir w' = output_dir w.
Proof.
  split; [reflexivity|]. split; [reflexivity|].
  apply (render_scene_while_running (demo_parent_env (fun _ _ => Ok tt))
           (demo_world (Some (demo_process Running))) (demo_process Running)
           VNone VNone (cp "render.png")); reflexivity.
Defined.

(** ** Reasoning about store computations *)

Lemma bind_eq {S A B} (m : M S A) (k : A -> M S B) s r s' :
  bind m k s = (r, s') ->
  (exists a s1, m s = (Ok a, s1) /\ k a s1 = (r, s')) \/
  (exists e, m s = (Raise e, s') /\ r = Raise e).
Proof.
  unfold bind. destruct (m s) as [[a|e] s1]; intros H.
  - left. eauto.
  - right. inversion H; subst. eauto.
Qed.

Lemma keeps_refl n h : keeps n h h.
Proof. by split. Qed.

Lemma keeps_trans n h1 h2 h3 : keeps n h1 h2 -> keeps n h2 h3 -> keeps n h1 h3.
Proof.
  intros [A1 L1] [A2 L2]. split; [|lia].
  intros l Hl. by rewrite A2, A1.
Qed.

Lemma keeps_prefix (h h' : heap) : keeps (length h) h h' -> h `prefix_of` h'.
Proof.
  intros [A L]. exists (drop (length h) h').
  rewrite <- (take_drop (length h) h') at 1. f_equal.
  apply list_eq. intros i.
  destruct (decide (i < length h)%nat) as [Hi|Hi].
  - by rewrite lookup_take_lt, A.
  - rewrite lookup_take_ge by lia. symmetry. apply lookup_ge_None. lia.
Qed.

Lemma keeps_app n (h k : heap) : (n <= length h)%nat -> keeps n h (h ++ k).
Proof.
  intros Hn. split; [|rewrite length_app; lia].
  intros l Hl. apply lookup_app_l. lia.
Qed.

Lemma keeps_insert n (h : heap) l o : (n <= l)%nat -> keeps n h (<[l := o]> h).
Proof.
  intros Hn. split; [|by rewrite length_insert].
  intros l' Hl. apply list_lookup_insert_ne. lia.
Qed.

(** *** A logic of postconditions

    [holds G R m s P]: run from [s], the computation ends in a state related
    to [s] by [R] and satisfying [G], and a returned value satisfies [P]
    there.  [R] is a preorder (what a computation may do to the state), [G]
    an invariant of the state. *)

Section Logic.

Context {S : Type} (G : S -> Prop) (R : S -> S -> Prop) `{!PreOrder R}.

Definition holds {A} (m : M S A) (s : S) (P : A -> S -> Prop) : Prop :=
  forall r s', m s = (r, s') -> R s s' /\ G s' /\ forall a, r = Ok a -> P a s'.

Lemma holds_ret {A} (a : A) s (P : A -> S -> Prop) :
  G s -> P a s -> holds (ret a) s P.
Proof. intros HG HP r s' [= <- <-]. split; [done|]. split; [done|]. by intros ? [= <-]. Qed.

Lemma holds_raise {A} e s (P : A -> S -> Prop) :
  G s -> holds (raise e) s P.
Proof. intros HG r s' [= <- <-]. by repeat split. Qed.

Lemma holds_lift {A} (x : result A) s (P : A -> S -> Prop) :
  G s -> (forall a, x = Ok a -> P a s) -> holds (lift x) s P.
Proof. intros HG HP r s' [= <- <-]. by repeat split. Qed.

Lemma holds_get_store s (P : S -> S -> Prop) :
  G s -> P s s -> holds get_store s P.
Proof. intros HG HP r s' [= <- <-]. split; [done|]. split; [done|]. by intros ? [= <-]. Qed.

Lemma holds_mono {A} (m : M S A) s (P Q : A -> S -> Prop) :
  holds m s P -> (forall a s', R s s' -> G s' -> P a s' -> Q a s') -> holds m s Q.
Proof.
  intros Hm HPQ r s' E. destruct (Hm r s' E) as (HR & HG & HP).
  repeat split; try done. intros a ->. by apply HPQ, HP.
Qed.

Lemma holds_bind {A B} (m : M S A) (k : A -> M S B) s
    (P : A -> S -> Prop) (Q : B -> S -> Prop) :
  holds m s P ->
  (forall a s1, R s s1 -> G s1 -> P a s1 ->
     holds (k a) s1 (fun b s2 => R s s2 -> Q b s2)) ->
  holds (bind m k) s Q.
Proof.
  intros Hm Hk r s' E.
  apply bind_eq in E as [(a & s1 & E1 & E2)|(e & E1 & ->)].
  - destruct (Hm _ _ E1) as (HR & HG & HP).
    destruct (Hk a s1 HR HG (HP a eq_refl) _ _ E2) as (HR2 & HG2 & HQ).
    assert (R s s') by (by etrans).
    repeat split; try done. intros b ->. by apply HQ.
  - destruct (Hm _ _ E1) as (HR & HG & _). by repeat split.
Qed.

Lemma holds_for_each {A} (xs : list A) (body : A -> M S unit) s :
  G s ->
  (forall x s1, x ∈ xs -> R s s1 -> G s1 -> holds (body x) s1 (fun _ _ => True)) ->
  holds (for_each xs body) s (fun _ _ => True).
Proof.
  revert s. induction xs as [|x xs IH]; intros s HG Hb; simpl.
  - by apply holds_ret.
  - eapply holds_bind.
    + apply Hb; [by left|done|done].
    + intros [] s1 HR1 HG1 _. eapply holds_mono.
      * apply IH; [done|]. intros y s2 Hy HR2 HG2.
        apply Hb; [by right|by etrans|done].
      * done.
Qed.

Lemma holds_map_each {A B} (xs : list A) (f : A -> M S B) s (P : B -> Prop) :
  G s ->
  (forall x s1, x ∈ xs -> R s s1 -> G s1 -> holds (f x) s1 (fun b _ => P b)) ->
  holds (map_each xs f) s (fun ys _ => Forall P ys).
Proof.
  revert s. induction xs as [|x xs IH]; intros s HG Hf; simpl.
  - by apply holds_ret.
  - eapply holds_bind.
    + apply Hf; [by left|done|done].
    + intros y s1 HR1 HG1 Hy. eapply holds_bind.
      * apply IH; [done|]. intros z s2 Hz HR2 HG2.
        apply Hf; [by right|by etrans|done].
      * intros ys s2 HR2 HG2 Hys. apply holds_ret; [done|].
        intros _. by constructor.
Qed.

Lemma holds_for_each_all {A} (xs : list A) (body : A -> M S unit) s
    (Q : A -> S -> Prop) :
  (forall x s1 s2, x ∈ xs -> R s s1 -> G s1 -> R s1 s2 -> Q x s1 -> Q x s2) ->
  G s ->
  (forall x s1, x ∈ xs -> R s s1 -> G s1 -> holds (body x) s1 (fun _ s2 => Q x s2)) ->
  holds (for_each xs body) s (fun _ s' => Forall (fun x => Q x s') xs).
Proof.
  revert s. induction xs as [|x xs IH]; intros s Hst HG Hb; simpl.
  - apply holds_ret; [done|constructor].
  - intros r s' E.
    apply bind_eq in E as [([] & s1 & E1 & E2)|(e & E1 & ->)].
    + destruct (Hb x s (list_elem_of_here _ _) (reflexivity _) HG _ _ E1)
        as (HR1 & HG1 & HQ1).
      destruct (IH s1) with (r := r) (s' := s') as (HR2 & HG2 & HQ2); try done.
      * intros y sa sb Hy HRa HGa HRb HQ.
        apply (Hst y sa sb); [by right|by etrans|done..].
      * intros y sa Hy HRa HGa. apply Hb; [by right|by etrans|done].
      * split; [by etrans|]. split; [done|]. intros [] ->. constructor.
        -- apply (Hst x s1 s'); [by left|done..|exact (HQ1 tt eq_refl)].
        -- exact (HQ2 tt eq_refl).
    + destruct (Hb x s (list_elem_of_here _ _) (reflexivity _) HG _ _ E1)
        as (HR1 & HG1 & _).
      by repeat split.
Qed.

End Logic.

(** ** The preprocessing leaves the objects it was given alone

    [n] is the size of the store before the call: the objects below [n] are
    the caller's.  The copy lives at or above [n] and refers to nothing
    below. *)

Definition good (n : nat) (h : heap) : Prop :=
  closed_above n h /\ (n <= length h)%nat.

#[local] Instance keeps_preorder n : PreOrder (keeps n).
Proof. split; [intros h; apply keeps_refl | intros h1 h2 h3; apply keeps_trans]. Qed.

Lemma val_above_ref n l : val_above n (VRef l) <-> (n <= l)%nat.
Proof.
  unfold val_above; simpl. by rewrite Forall_singleton.
Qed.

Lemma val_above_tuple n items :
  val_above n (VTuple items) <-> Forall (val_above n) items.
Proof.
  unfold val_above; simpl.
  induction items as [|v items IH]; simpl.
  - split; constructor.
  - rewrite Forall_app, Forall_cons, IH. done.
Qed.

Lemma val_above_atom n v :
  val_refs v = [] -> val_above n v.
Proof. unfold val_above. intros ->. constructor. Qed.

Lemma dict_lookup_elem key items v :
  dict_lookup key items = Some v -> (key, v) ∈ items.
Proof.
  induction items as [|[k x] items IH]; simpl; [done|].
  destruct (String.eqb k key) eqn:E.
  - intros [= ->]. apply String.eqb_eq in E as ->. by left.
  - intros H. right. by apply IH.
Qed.

Lemma dict_lookup_above n key items v :
  Forall (val_above n) items.*2 -> dict_lookup key items = Some v -> val_above n v.
Proof.
  intros HF Hl. apply dict_lookup_elem in Hl.
  rewrite Forall_forall in HF. apply HF.
  apply list_elem_of_fmap. by exists (key, v).
Qed.

Lemma dict_set_above n key v items :
  val_above n v -> Forall (val_above n) items.*2 ->
  Forall (val_above n) (dict_set key v items).*2.
Proof.
  intros Hv. induction items as [|[k x] items IH]; simpl.
  - intros _. by repeat constructor.
  - intros [Hx Hi]%Forall_cons. destruct (String.eqb k key); simpl.
    + by constructor.
    + constructor; [done|]. by apply IH.
Qed.

Lemma good_app n h o :
  good n h -> Forall (val_above n) (obj_vals o) -> good n (h ++ [o]).
Proof.
  intros [Hc Hn] Ho. split; [|rewrite length_app; lia].
  intros l o' Hl. rewrite lookup_app_Some. intros [E|[_ E]].
  - by eapply Hc.
  - apply list_lookup_singleton_Some in E as [_ <-]. done.
Qed.

Lemma good_insert n h l o :
  good n h -> Forall (val_above n) (obj_vals o) -> good n (<[l := o]> h).
Proof.
  intros [Hc Hn] Ho. split; [|by rewrite length_insert].
  intros l' o' Hl. rewrite list_lookup_insert_Some.
  intros [(-> & <- & _)|[_ E]]; [done|by eapply Hc].
Qed.

Section Frame.

Variable n : nat.

Abbreviation framed := (holds (good n) (keeps n)).

Lemma framed_alloc o h (P : val -> heap -> Prop) :
  good n h -> Forall (val_above n) (obj_vals o) ->
  P (VRef (length h)) (h ++ [o]) ->
  framed (alloc o) h P.
Proof.
  intros Hg Ho HP r h' [= <- <-]. split; [apply keeps_app, Hg|].
  split; [by apply good_app|]. by intros ? [= <-].
Qed.

Lemma framed_call {A} (f : heap -> result A) h (P : A -> heap -> Prop) :
  good n h -> (forall a, P a h) -> framed (call f) h P.
Proof. intros Hg HP r h' [= <- <-]. split; [apply keeps_refl|]. split; [done|]. intros; apply HP. Qed.

Lemma framed_py_get d key dflt h (P : val -> heap -> Prop) :
  good n h -> val_above n d -> val_above n dflt ->
  (forall v, val_above n v -> P v h) ->
  framed (py_get d key dflt) h P.
Proof.
  intros Hg Hd Hdf HP r h' E. unfold py_get in E.
  assert (h' = h) as ->.
  { destruct d; try (by inversion E). destruct (h !! l) as [[]|]; by inversion E. }
  split; [apply keeps_refl|]. split; [done|]. intros v ->.
  destruct d; try done. apply val_above_ref in Hd.
  destruct (h !! l) as [[items|]|] eqn:El; try done.
  inversion E as [E']. apply HP.
  destruct (dict_lookup key items) eqn:Ek; [|done].
  eapply dict_lookup_above; [|done]. by apply (proj1 Hg l (ODict items)).
Qed.

Lemma framed_py_getitem d key h (P : val -> heap -> Prop) :
  good n h -> val_above n d ->
  (forall v, val_above n v -> P v h) ->
  framed (py_getitem d key) h P.
Proof.
  intros Hg Hd HP r h' E. unfold py_getitem in E.
  assert (h' = h) as ->.
  { destruct d; try (by inversion E). destruct (h !! l) as [[]|]; by inversion E. }
  split; [apply keeps_refl|]. split; [done|]. intros v ->.
  destruct d; try done. apply val_above_ref in Hd.
  destruct (h !! l) as [[items|]|] eqn:El; try done.
  destruct (dict_lookup key items) eqn:Ek; [|done].
  inversion E; subst. apply HP.
  eapply dict_lookup_above; [|done]. by apply (proj1 Hg l (ODict items)).
Qed.

Lemma framed_py_contains d key h (P : bool -> heap -> Prop) :
  good n h -> (forall b, P b h) -> framed (py_contains d key) h P.
Proof.
  intros Hg HP r h' E. unfold py_contains in E.
  assert (h' = h) as ->.
  { destruct d; try (by inversion E). destruct (h !! l) as [[]|]; by inversion E. }
  split; [apply keeps_refl|]. split; [done|]. intros; apply HP.
Qed.

Lemma framed_py_first l h (P : val -> heap -> Prop) :
  good n h -> val_above n l ->
  (forall v, val_above n v -> P v h) ->
  framed (py_first l) h P.
Proof.
  intros Hg Hl HP r h' E. unfold py_first in E.
  assert (h' = h) as ->.
  { destruct l as [| | | | | | |a]; try (by inversion E).
    destruct (h !! a) as [[|[|]]|]; by inversion E. }
  split; [apply keeps_refl|]. split; [done|]. intros v ->.
  destruct l as [| | | | | | |a]; try done. apply val_above_ref in Hl.
  destruct (h !! a) as [[|[|x items]]|] eqn:El; try done.
  inversion E; subst. apply HP.
  by destruct (Forall_cons_1 _ _ _ (proj1 Hg a (OList (v :: items)) Hl El)).
Qed.

Lemma framed_py_setitem l key v h :
  good n h -> (n <= l)%nat -> val_above n v ->
  framed (py_setitem l key v) h (fun _ _ => True).
Proof.
  intros Hg Hl Hv r h' E. unfold py_setitem in E.
  destruct (h !! l) as [[items|]|] eqn:El; inversion E; subst; try (split; [apply keeps_refl|by split]).
  split; [by apply keeps_insert|]. split; [|done].
  apply good_insert; [done|]. simpl. apply dict_set_above; [done|].
  by apply (proj1 Hg l (ODict items)).
Qed.

Lemma framed_py_append l v h :
  good n h -> (n <= l)%nat -> val_above n v ->
  framed (py_append l v) h (fun _ _ => True).
Proof.
  intros Hg Hl Hv r h' E. unfold py_append in E.
  destruct (h !! l) as [[|items]|] eqn:El; inversion E; subst; try (split; [apply keeps_refl|by split]).
  split; [by apply keeps_insert|]. split; [|done].
  apply good_insert; [done|]. simpl. apply Forall_app. split; [|by repeat constructor].
  by apply (proj1 Hg l (OList items)).
Qed.

End Frame.

Lemma holds_bind' {S A B} (G : S -> Prop) (R : S -> S -> Prop) `{!PreOrder R}
    (m : M S A) (k : A -> M S B) s (P : A -> S -> Prop) (Q : B -> S -> Prop) :
  holds G R m s P ->
  (forall a s1, R s s1 -> G s1 -> P a s1 -> holds G R (k a) s1 Q) ->
  holds G R (bind m k) s Q.
Proof.
  intros Hm Hk r s' E.
  apply bind_eq in E as [(a & s1 & E1 & E2)|(e & E1 & ->)].
  - destruct (Hm _ _ E1) as (HR & HG & HP).
    destruct (Hk a s1 HR HG (HP a eq_refl) _ _ E2) as (HR2 & HG2 & HQ).
    split; [by etrans|]. by split.
  - destruct (Hm _ _ E1) as (HR & HG & _). by repeat split.
Qed.

Lemma holds_true {S A} (G : S -> Prop) (R : S -> S -> Prop) `{!PreOrder R}
    (m : M S A) s (P : A -> S -> Prop) :
  holds G R m s P -> holds G R m s (fun _ _ => True).
Proof. intros H r s' E. destruct (H r s' E) as (HR & HG & _). by repeat split. Qed.

Section FrameCode.

Variable mi : mitsuba.
Variable n : nat.

Abbreviation framed' := (holds (good n) (keeps n)).

Lemma framed_alloc_v o h :
  good n h -> Forall (val_above n) (obj_vals o) ->
  framed' (alloc o) h (fun v _ => val_above n v).
Proof.
  intros Hg Ho. apply framed_alloc; [done..|]. apply val_above_ref, Hg.
Qed.

Lemma framed_py_get_v d key dflt h :
  good n h -> val_above n d -> val_above n dflt ->
  framed' (py_get d key dflt) h (fun v _ => val_above n v).
Proof. intros. by apply framed_py_get. Qed.

Lemma framed_py_getitem_v d key h :
  good n h -> val_above n d ->
  framed' (py_getitem d key) h (fun v _ => val_above n v).
Proof. intros. by apply framed_py_getitem. Qed.

Lemma framed_py_first_v l h :
  good n h -> val_above n l ->
  framed' (py_first l) h (fun v _ => val_above n v).
Proof. intros. by apply framed_py_first. Qed.

Lemma framed_py_contains_v d key h :
  good n h -> framed' (py_contains d key) h (fun _ _ => True).
Proof. intros. by apply framed_py_contains. Qed.

Lemma framed_call_v {A} (f : heap -> result A) h :
  good n h -> framed' (call f) h (fun _ _ => True).
Proof. intros. by apply framed_call. Qed.

Lemma framed_lift_v {A} (x : result A) h :
  good n h -> framed' (lift x) h (fun _ _ => True).
Proof. intros. apply holds_lift; [apply _|done..]. Qed.

Ltac above :=
  first [ assumption
        | apply val_above_atom; reflexivity
        | apply val_above_ref; lia
        | repeat (first [apply Forall_nil_2 | apply Forall_cons_2]); above ].

Ltac frame_leaf :=
  first [ apply framed_alloc_v | apply framed_py_get_v | apply framed_py_getitem_v
        | apply framed_py_first_v | apply framed_py_contains_v
        | apply framed_call_v | apply framed_lift_v
        | apply framed_py_setitem | apply framed_py_append
        | apply holds_raise | apply holds_ret ];
  try (match goal with |- PreOrder _ => apply _ end);
  try done; try above.

Ltac frame_step :=
  lazymatch goal with
  | |- holds _ _ (bind _ _) _ _ =>
      eapply holds_bind';
        try (match goal with |- PreOrder _ => apply _ end);
        [ | intros ? ? ? ? ?]
  | |- holds _ _ (if ?b then _ else _) _ _ => destruct b eqn:?
  | |- holds _ _ _ _ (fun _ _ => True) =>
      first [ frame_leaf
            | eapply holds_true;
              try (match goal with |- PreOrder _ => apply _ end); frame_leaf ]
  | |- holds _ _ _ _ _ => frame_leaf
  end.

Lemma build_transform_framed d : forall v h,
  good n h -> val_above n v ->
  framed' (_build_transform mi d v) h (fun _ _ => True).
Proof.
  induction d as [|d IH]; intros v h Hg Hv; simpl.
  - apply holds_raise; [apply _|done].
  - repeat frame_step.
    all: try (eapply holds_true;
              try (match goal with |- PreOrder _ => apply _ end);
              apply IH; [done|above]).
Qed.

Lemma build_transform_from_dict_framed d : forall v h,
  good n h -> val_above n v ->
  framed' (_build_transform_from_dict mi d v) h (fun _ _ => True).
Proof.
  induction d as [|d IH]; intros v h Hg Hv; simpl.
  - apply holds_raise; [apply _|done].
  - repeat frame_step.
    all: try (eapply holds_true;
              try (match goal with |- PreOrder _ => apply _ end);
              apply IH; [done|above]).
Qed.

Lemma framed_get_store_v h :
  good n h -> framed' get_store h (fun a h' => a = h /\ h' = h).
Proof. intros. apply holds_get_store; [apply _|done..]. Qed.

Lemma closed_entry h l items key v :
  good n h -> (n <= l)%nat -> h !! l = Some (ODict items) ->
  (key, v) ∈ items -> val_above n v.
Proof.
  intros [Hc _] Hl El Hin. specialize (Hc l _ Hl El). simpl in Hc.
  rewrite Forall_forall in Hc. apply Hc.
  apply list_elem_of_fmap. by exists (key, v).
Qed.

Lemma closed_item h l items v :
  good n h -> (n <= l)%nat -> h !! l = Some (OList items) ->
  v ∈ items -> val_above n v.
Proof.
  intros [Hc _] Hl El Hin. specialize (Hc l _ Hl El). simpl in Hc.
  rewrite Forall_forall in Hc. by apply Hc.
Qed.

Lemma process_recursive_framed d : forall v h,
  good n h -> val_above n v ->
  framed' (_process_recursive mi d v) h (fun _ _ => True).
Proof.
  induction d as [|d IH]; intros v h Hg Hv; simpl.
  - apply holds_raise; [apply _|done].
  - eapply holds_bind'; [apply _|by apply framed_get_store_v|].
    intros ? ? _ _ [-> ->].
    destruct v as [| | | | | | |l]; try (apply holds_ret; [apply _|done..]).
    apply val_above_ref in Hv.
    destruct (h !! l) as [[items|items]|] eqn:El.
    + eapply holds_bind' with (P := fun _ _ => True); [apply _| |].
      * destruct (dict_lookup "to_world" items) as [tw|] eqn:Etw;
          [|apply holds_ret; [apply _|done..]].
        assert (val_above n tw) as Htw
          by (eapply closed_entry; eauto using dict_lookup_elem).
        destruct (isinstance_list h tw); [|destruct (isinstance_dict h tw)].
        -- eapply holds_bind'; [apply _|by apply framed_py_first_v|].
           intros first h1 _ Hg1 _.
           eapply holds_bind'; [apply _|by apply framed_get_store_v|].
           intros ? ? _ _ [-> ->].
           repeat frame_step.
        -- eapply holds_bind'; [apply _|by apply build_transform_framed|].
           intros t h1 _ Hg1 _. frame_step.
        -- apply holds_ret; [apply _|done..].
      * intros [] h1 _ Hg1 _.
        eapply holds_bind'; [apply _|by apply framed_get_store_v|].
        intros ? ? _ _ [-> ->].
        destruct (h1 !! l) as [[items'|]|] eqn:El1;
          try (apply holds_ret; [apply _|done..]).
        apply holds_for_each; [apply _|done|].
        intros [k x] h2 Hin _ Hg2. simpl.
        destruct (String.eqb k "to_world"); [apply holds_ret; [apply _|done..]|].
        apply IH; [done|]. by eapply (closed_entry h1).
    + apply holds_for_each; [apply _|done|].
      intros x h2 Hin _ Hg2. apply IH; [done|].
      by eapply (closed_item h).
    + apply holds_raise; [apply _|done].
Qed.

Lemma process_transforms_recursive_framed d : forall v h,
  good n h -> val_above n v ->
  framed' (_process_transforms_recursive mi d v) h (fun _ _ => True).
Proof.
  induction d as [|d IH]; intros v h Hg Hv; simpl.
  - apply holds_raise; [apply _|done].
  - eapply holds_bind'; [apply _|by apply framed_get_store_v|].
    intros ? ? _ _ [-> ->].
    destruct v as [| | | | | | |l]; try (apply holds_ret; [apply _|done..]).
    apply val_above_ref in Hv.
    destruct (h !! l) as [[items|items]|] eqn:El.
    + eapply holds_bind' with (P := fun _ _ => True); [apply _| |].
      * destruct (dict_lookup "to_world" items) as [tw|] eqn:Etw;
          [|apply holds_ret; [apply _|done..]].
        assert (val_above n tw) as Htw
          by (eapply closed_entry; eauto using dict_lookup_elem).
        destruct (isinstance_list h tw); [|destruct (isinstance_dict h tw)].
        -- eapply holds_bind'; [apply _|by apply framed_py_first_v|].
           intros first h1 _ Hg1 _.
           eapply holds_bind'; [apply _|by apply framed_get_store_v|].
           intros ? ? _ _ [-> ->].
           repeat frame_step.
        -- eapply holds_bind'; [apply _|by apply build_transform_from_dict_framed|].
           intros t h1 _ Hg1 _. frame_step.
        -- apply holds_ret; [apply _|done..].
      * intros [] h1 _ Hg1 _.
        eapply holds_bind'; [apply _|by apply framed_get_store_v|].
        intros ? ? _ _ [-> ->].
        destruct (h1 !! l) as [[items'|]|] eqn:El1;
          try (apply holds_ret; [apply _|done..]).
        apply holds_for_each; [apply _|done|].
        intros [k x] h2 Hin _ Hg2. simpl.
        destruct (String.eqb k "to_world"); [apply holds_ret; [apply _|done..]|].
        apply IH; [done|]. by eapply (closed_entry h1).
    + apply holds_for_each; [apply _|done|].
      intros x h2 Hin _ Hg2. apply IH; [done|].
      by eapply (closed_item h).
    + apply holds_raise; [apply _|done].
Qed.

End FrameCode.

(** *** [copy.deepcopy] builds above [n] and touches nothing below *)

Section FrameCopy.

Variable n : nat.

Definition good_copy (s : gmap nat nat * heap) : Prop :=
  good n s.2 /\ forall l l', s.1 !! l = Some l' -> (n <= l')%nat.

Definition keeps_copy (s s' : gmap nat nat * heap) : Prop := keeps n s.2 s'.2.

#[local] Instance keeps_copy_preorder : PreOrder keeps_copy.
Proof.
  split; [intros s; apply keeps_refl | intros s1 s2 s3; apply keeps_trans].
Qed.

Lemma with_memo_framed {A} (m : M heap A) s (P : A -> heap -> Prop) :
  good_copy s ->
  holds (good n) (keeps n) m s.2 P ->
  holds good_copy keeps_copy (with_memo m) s (fun a s' => P a s'.2).
Proof.
  intros [Hg Hm] H r s' E. unfold with_memo in E.
  destruct (m s.2) as [r0 h'] eqn:Em. inversion E; subst.
  destruct (H _ _ Em) as (HR & HG & HP).
  split; [done|]. split; [by split|]. done.
Qed.

Lemma deepcopy_framed d : forall x s,
  good_copy s ->
  holds good_copy keeps_copy (deepcopy d x) s (fun y _ => val_above n y).
Proof.
  induction d as [|d IH]; intros x s Hs; simpl.
  - apply holds_raise; [apply _|done].
  - destruct x as [| | | | |items| |l];
      try (apply holds_ret; [apply _|done|by apply val_above_atom]).
    + eapply holds_bind'; [apply _| |].
      * apply holds_map_each with (P := val_above n); [apply _|done|].
        intros x s1 _ _ Hs1. by apply IH.
      * intros ys s1 _ Hs1 Hys. apply holds_ret; [apply _|done|].
        by apply val_above_tuple.
    + intros r s' E. destruct Hs as [Hg Hm].
      destruct (s.1 !! l) as [l'|] eqn:El.
      { inversion E; subst. split; [apply keeps_refl|]. split; [done|].
        intros ? [= <-]. apply val_above_ref. eauto. }
      assert (forall o, Forall (val_above n) (obj_vals o) ->
                good_copy (<[l := length s.2]> s.1, s.2 ++ [o])) as Hs0.
      { intros o Ho. split; simpl; [by apply good_app|].
        intros a b [[_ <-]|[_ E']]%lookup_insert_Some; [apply Hg|eauto]. }
      assert (forall o, keeps_copy s (<[l := length s.2]> s.1, s.2 ++ [o])) as Hk
        by (intros; apply keeps_app, Hg).
      assert (n <= length s.2)%nat as Hn by apply Hg.
      destruct (s.2 !! l) as [[items|items]|] eqn:Eo.
      * assert (holds good_copy keeps_copy
                  (for_each items (fun kv =>
                     v' <- deepcopy d kv.2 ;;
                     with_memo (py_setitem (length s.2) kv.1 v')) ;;;
                   ret (VRef (length s.2)))
                  (<[l := length s.2]> s.1, s.2 ++ [ODict []])
                  (fun y _ => val_above n y)) as H.
        { eapply holds_bind' with (P := fun _ _ => True); [apply _| |].
          - apply holds_for_each; [apply _|by apply Hs0|].
            intros kv s1 _ _ Hs1. eapply holds_bind'; [apply _|by apply IH|].
            intros v' s2 _ Hs2 Hv'. eapply holds_true; [apply _|].
            apply with_memo_framed; [done|].
            by apply framed_py_setitem; [apply Hs2|..].
          - intros [] s1 _ Hs1 _. apply holds_ret; [apply _|done|].
            by apply val_above_ref. }
        destruct (H _ _ E) as (HR & HG & HP).
        split; [|done]. etrans; [apply Hk|done].
      * assert (holds good_copy keeps_copy
                  (for_each items (fun a =>
                     a' <- deepcopy d a ;; with_memo (py_append (length s.2) a')) ;;;
                   ret (VRef (length s.2)))
                  (<[l := length s.2]> s.1, s.2 ++ [OList []])
                  (fun y _ => val_above n y)) as H.
        { eapply holds_bind' with (P := fun _ _ => True); [apply _| |].
          - apply holds_for_each; [apply _|by apply Hs0|].
            intros a s1 _ _ Hs1. eapply holds_bind'; [apply _|by apply IH|].
            intros v' s2 _ Hs2 Hv'. eapply holds_true; [apply _|].
            apply with_memo_framed; [done|].
            by apply framed_py_append; [apply Hs2|..].
          - intros [] s1 _ Hs1 _. apply holds_ret; [apply _|done|].
            by apply val_above_ref. }
        destruct (H _ _ E) as (HR & HG & HP).
        split; [|done]. etrans; [apply Hk|done].
      * inversion E; subst. split; [apply keeps_refl|]. by split.
Qed.

Lemma copy_deepcopy_framed d x h :
  good n h ->
  holds (good n) (keeps n) (copy_deepcopy d x) h (fun y _ => val_above n y).
Proof.
  intros Hg r h' E. unfold copy_deepcopy in E.
  destruct (deepcopy d x (∅, h)) as [r0 s] eqn:Ed. inversion E; subst.
  destruct (deepcopy_framed d x (∅, h)) with (r := r) (s' := s) as (HR & HG & HP);
    [|done|].
  - split; [done|]. intros l l'. simpl. by rewrite lookup_empty.
  - split; [done|]. split; [apply HG|]. done.
Qed.

End FrameCopy.

Section FramePreprocess.

Variable mi : mitsuba.

Lemma preprocess_transforms_framed n d x h :
  good n h ->
  holds (good n) (keeps n) (preprocess_transforms mi d x) h (fun y _ => val_above n y).
Proof.
  intros Hg. unfold preprocess_transforms.
  eapply holds_bind'; [apply _|by apply copy_deepcopy_framed|].
  intros y h1 _ Hg1 Hy.
  eapply holds_bind'; [apply _|by apply process_recursive_framed|].
  intros [] h2 _ Hg2 _. by apply holds_ret; [apply _|..].
Qed.

Lemma preprocess_scene_dict_framed n d x h :
  good n h ->
  holds (good n) (keeps n) (_preprocess_scene_dict mi d x) h (fun y _ => val_above n y).
Proof.
  intros Hg. unfold _preprocess_scene_dict.
  eapply holds_bind'; [apply _|by apply copy_deepcopy_framed|].
  intros y h1 _ Hg1 Hy.
  eapply holds_bind'; [apply _|by apply process_transforms_recursive_framed|].
  intros [] h2 _ Hg2 _. by apply holds_ret; [apply _|..].
Qed.

Lemma good_length (h : heap) : good (length h) h.
Proof.
  split; [|done]. intros l o Hl E. apply lookup_lt_Some in E. lia.
Qed.

(** Whatever the call returns or raises, the store it was given is a prefix
    of the store it leaves. *)
Lemma preprocess_transforms_prefix d x h :
  h `prefix_of` (preprocess_transforms mi d x h).2.
Proof.
  destruct (preprocess_transforms mi d x h) as [r h'] eqn:E.
  apply keeps_prefix.
  by destruct (preprocess_transforms_framed (length h) d x h (good_length h) r h' E).
Qed.

End FramePreprocess.

(** ** The child process *)

Section Child.

Context {blob : Type}.
Implicit Types (env : child_env blob).

(** Running [main_try] one call at a time: every call into the store or the
    environment either returns or ends the block. *)
Lemma on_heap_eq {A} (m : M heap A) s r s' :
  on_heap m s = (r, s') ->
  exists h', m (c_heap s) = (r, h') /\
    s' = {| c_heap := h'; c_stdout := c_stdout s; c_stderr := c_stderr s;
            c_trace := c_trace s |}.
Proof.
  unfold on_heap. destruct (m (c_heap s)) as [r0 h']. intros [= <- <-]. eauto.
Qed.

Lemma ext_eq {A} st (f : heap -> result A) s r s' :
  ext st f s = (r, s') ->
  f (c_heap s) = r /\
    s' = {| c_heap := c_heap s; c_stdout := c_stdout s; c_stderr := c_stderr s;
            c_trace := c_trace s ++ [(st, is_ok r)] |}.
Proof. unfold ext. by intros [= <- <-]. Qed.

Lemma load_scene_data_eq env scene_file s r s' :
  load_scene_data env scene_file s = (r, s') ->
  (exists h data, open_and_load env scene_file = Ok (h, data) /\ r = Ok data /\
     s' = {| c_heap := h; c_stdout := c_stdout s; c_stderr := c_stderr s;
             c_trace := c_trace s ++ [(LoadData scene_file, true)] |}) \/
  (exists e, open_and_load env scene_file = Raise e /\ r = Raise e /\
     s' = {| c_heap := c_heap s; c_stdout := c_stdout s; c_stderr := c_stderr s;
             c_trace := c_trace s ++ [(LoadData scene_file, false)] |}).
Proof.
  unfold load_scene_data.
  destruct (open_and_load env scene_file) as [[h data]|e]; intros [= <- <-];
    [left|right]; eauto 10.
Qed.

Ltac child_prim E :=
  lazymatch type of E with
  | log _ _ = _ => unfold log, print_out in E; injection E as ? ?
  | progress _ _ = _ => unfold progress, print_out in E; injection E as ? ?
  | on_heap _ _ = _ => apply on_heap_eq in E as (? & E & ?)
  | ext _ _ _ = _ => apply ext_eq in E as [E ?]
  | load_scene_data _ _ _ = _ =>
      apply load_scene_data_eq in E as [(? & ? & E & ? & ?)|(? & E & ? & ?)]
  end;
  try discriminate; simplify_eq; cbn [c_heap c_stdout c_stderr c_trace child_init] in *.

Ltac child_step E :=
  let E1 := fresh "E" in
  apply bind_eq in E as [(? & ? & E1 & E)|(? & E1 & ->)];
  child_prim E1.

Ltac run_child E :=
  unfold main_try in E; repeat child_step E; try child_prim E;
  try (match goal with
       | |- context [match ?x with Ok _ => _ | Raise _ => _ end] =>
           destruct x eqn:?
       end);
  cbn [is_ok print_err c_heap c_stdout c_stderr c_trace fst snd] in *.

(** C10: the values printed with the [PROGRESS:] tag are, in every run, a
    prefix of 5, 10, 20, 30, 80, 100, and all of it when the exit code is 0;
    so they increase strictly, lie between 0 and 100, and never decrease. *)
Theorem progress_sequence env argv :
  progress_values (main env argv).2 `prefix_of` [5; 10; 20; 30; 80; 100] /\
  ((main env argv).1 = 0 ->
   progress_values (main env argv).2 = [5; 10; 20; 30; 80; 100]) /\
  StronglySorted Z.lt (progress_values (main env argv).2) /\
  Forall (fun v => 0 <= v <= 100) (progress_values (main env argv).2).
Proof.
  assert (progress_values (main env argv).2 `prefix_of` [5; 10; 20; 30; 80; 100] /\
          ((main env argv).1 = 0 ->
           progress_values (main env argv).2 = [5; 10; 20; 30; 80; 100])) as [Hp Hall].
  { unfold main.
    destruct argv as [|? [|scene_file [|output_file [|]]]];
      try (split; [by eexists|done]).
    destruct (main_try env scene_file output_file child_init) as [r s] eqn:E.
    run_child E.
    all: split; [by eexists|done]. }
  split; [done|]. split; [done|].
  destruct Hp as [k Hk].
  assert (StronglySorted Z.lt [5; 10; 20; 30; 80; 100]) as Hs
    by (repeat constructor; lia).
  assert (Forall (fun v => 0 <= v <= 100) [5; 10; 20; 30; 80; 100]) as Hf
    by (repeat constructor; lia).
  rewrite Hk in Hs, Hf. split.
  - by apply StronglySorted_app_1_l in Hs.
  - by apply Forall_app in Hf as [? _].
Qed.

Lemma py_getitem_store d key h r h' : py_getitem d key h = (r, h') -> h' = h.
Proof.
  unfold py_getitem. destruct d; try (by intros [= _ <-]).
  destruct (h !! l) as [[]|]; by intros [= _ <-].
Qed.

Lemma py_get_store d key dflt h r h' : py_get d key dflt h = (r, h') -> h' = h.
Proof.
  unfold py_get. destruct d; try (by intros [= _ <-]).
  destruct (h !! l) as [[]|]; by intros [= _ <-].
Qed.

Lemma py_getitem_dict l items key h :
  h !! l = Some (ODict items) ->
  py_getitem (VRef l) key h
  = (match dict_lookup key items with Some v => Ok v | None => Raise (KeyError key) end, h).
Proof. unfold py_getitem. by intros ->. Qed.

Lemma py_get_dict l items key dflt h :
  h !! l = Some (ODict items) ->
  py_get (VRef l) key dflt h = (Ok (default dflt (dict_lookup key items)), h).
Proof. unfold py_get. intros ->. by destruct (dict_lookup key items). Qed.

(** C3: the [spp] with which the child calls the renderer's [render] is the
    value stored under ['spp'] in the params dictionary it loaded, as it is,
    and 256 when the dictionary has no such key.  Whatever the run does,
    [render] is not called with another [spp]; and when the calls before it
    return (the import, [set_variant], the preprocessing and [load_dict]),
    the child calls [render] once, on the loaded scene and with that
    [spp]. *)
Theorem spp_passed_through env script scene_file output_file h0 dl ditems pl items :
  open_and_load env scene_file = Ok (h0, VRef dl) ->
  h0 !! dl = Some (ODict ditems) ->
  dict_lookup "params" ditems = Some (VRef pl) ->
  h0 !! pl = Some (ODict items) ->
  let run := main env [script; scene_file; output_file] in
  let spp := default (VInt 256) (dict_lookup "spp" items) in
  Forall (fun c => c.1.2 = spp) (render_calls run.2) /\
  (forall sd sd' h1 scene,
      c_import_mitsuba env = Ok tt ->
      dict_lookup "scene_dict" ditems = Some sd ->
      c_set_variant env (default (VStr "scalar_rgb") (dict_lookup "variant" items)) h0
      = Ok tt ->
      preprocess_transforms (c_mi env) (c_depth env) sd h0 = (Ok sd', h1) ->
      c_load_dict env sd' h1 = Ok scene ->
      render_calls run.2 = [(scene, spp, is_ok (c_render env scene spp h1))]).
Proof.
  intros Hload Hd Hp Hitems run spp. subst run spp. unfold main.
  destruct (main_try env scene_file output_file child_init) as [r s] eqn:E.
  run_child E.
  all: unfold render_calls, print_err; simpl.
  all: try (by split; [repeat constructor
                      |intros sd sd' h1 scene Himp Hsd Hvar Hpre Hld;
                       repeat match goal with
                              | H : match dict_lookup "scene_dict" _ with _ => _ end = _ |- _ =>
                                  rewrite Hsd in H
                              end;
                       simplify_eq; congruence]).
  all: rewrite Hload in *; simplify_eq.
  all: repeat match goal with
       | H : py_getitem _ _ _ = _ |- _ =>
           pose proof (py_getitem_store _ _ _ _ _ H); subst;
           rewrite (py_getitem_dict _ _ _ _ Hd) in H; rewrite ?Hp in H;
           injection H as H
       end.
  all: repeat match goal with
       | H : py_get _ "variant" _ _ = _ |- _ =>
           pose proof (py_get_store _ _ _ _ _ _ H); subst;
           rewrite (py_get_dict _ _ _ _ _ Hitems) in H; injection H as H
       end.
  all: try (by split; [repeat constructor
                      |intros sd sd' h1 scene Himp Hsd Hvar Hpre Hld;
                       repeat match goal with
                              | H : match dict_lookup "scene_dict" _ with _ => _ end = _ |- _ =>
                                  rewrite Hsd in H
                              end;
                       simplify_eq; congruence]).
  all: match goal with
       | H : preprocess_transforms ?mi ?d ?x ?h = (_, ?h') |- _ =>
           pose proof (preprocess_transforms_prefix mi d x h) as Hpre0;
           rewrite H in Hpre0; simpl in Hpre0;
           pose proof (prefix_lookup_Some _ _ _ _ Hitems Hpre0) as Hpl
       end.
  all: try (by split; [repeat constructor
                      |intros sd sd' h1 scene Himp Hsd Hvar Hpre Hld;
                       repeat match goal with
                              | H : match dict_lookup "scene_dict" _ with _ => _ end = _ |- _ =>
                                  rewrite Hsd in H
                              end;
                       simplify_eq; congruence]).
  all: subst.
  all: match goal with
       | H : py_get _ "spp" _ _ = _ |- _ =>
           rewrite (py_get_dict _ _ _ _ _ Hpl) in H; simplify_eq
       end.
  all: split; [by repeat constructor|];
    intros sd sd' h1 scene Himp Hsd Hvar Hpre Hld;
    repeat match goal with
           | H : match dict_lookup "scene_dict" _ with _ => _ end = _ |- _ =>
               rewrite Hsd in H
           end;
    simplify_eq;
    repeat match goal with
           | H1 : ?t = _, H2 : ?t = _ |- _ => rewrite H1 in H2; simplify_eq
           end;
    try done;
    repeat match goal with
           | H : ?t = _ |- context [?t] => rewrite H
           end;
    done.
Qed.

(** The child side of the exit-code protocol. *)
Lemma main_exit_code env argv :
  let run := main env argv in
  (run.1 = 0 \/ run.1 = 1) /\
  (run.1 = 0 <-> length argv = 3%nat /\ (c_trace run.2).*2 = replicate 11 true) /\
  (run.1 = 0 -> load_render_save_ok run.2 /\ c_stderr run.2 = []) /\
  (run.1 = 1 ->
   c_stderr run.2 = [ERROR (cp "Invalid arguments")] \/
   exists e, c_stderr run.2 = [ERROR (exn_msg e); Traceback e]) /\
  (length argv <> 3%nat ->
   run.1 = 1 /\ c_stderr run.2 = [ERROR (cp "Invalid arguments")] /\
   c_stdout run.2 = [] /\ c_trace run.2 = []).
Proof.
  intros run. subst run. unfold main.
  destruct argv as [|? [|scene_file [|output_file [|]]]];
    try (simpl; repeat split; (done || lia || (by left) || (by right) || idtac);
         by intros [? ?]).
  destruct (main_try env scene_file output_file child_init) as [r s] eqn:E.
  run_child E.
  all: repeat split; try done; try lia; try (by left); try (by right; eauto);
    try (by intros [_ ?]).
  all: unfold load_render_save_ok; cbn [c_trace];
    repeat split; eexists; try eexists;
    solve [repeat first [apply list_elem_of_here | apply list_elem_of_further]].
Qed.

End Child.

Example main_demo_exit_0 :
  (main (demo_child_env (Ok tt)) demo_argv).1 = 0 /\
  progress_values (main (demo_child_env (Ok tt)) demo_argv).2 = [5; 10; 20; 30; 80; 100] /\
  (c_trace (main (demo_child_env (Ok tt)) demo_argv).2).*1
  = [ImportMitsuba; LoadData (cp "/tmp/tmp0.pkl"); SetVariant (VStr "scalar_rgb");
     LoadDict (VRef 6); Render 100 (VInt 64); MakeBitmap 101; ToArray 102;
     To8Bit 103; FromArray 104; Save 105 (cp "output/render.png");
     Unlink (cp "/tmp/tmp0.pkl")].
Proof. vm_compute. done. Qed.

(** ** The exit code *)

Section ExitCode.

Context {blob : Type}.

(** What [_on_finished] emits, by the exit code of the process. *)
Lemma on_finished_signals (penv : parent_env blob) path (w : world blob) :
  match process w with
  | Some p =>
      exists new,
        signals (_on_finished penv path w).2 = signals w ++ new /\
        (forall img pth,
            render_complete img pth ∈ new ->
            exitCode p = 0 /\ pth = path /\
            exists image, p_Image_open penv path = Ok image /\
                          p_np_array penv image = Ok img) /\
        (exitCode p <> 0 ->
         (exists msg, render_failed msg ∈ new) /\
         forall img pth, render_complete img pth ∉ new)
  | None => signals (_on_finished penv path w).2 = signals w
  end.
Proof.
  unfold _on_finished. destruct (process w) as [p|]; [|done].
  destruct (exitCode p =? 0) eqn:Hc.
  - apply Z.eqb_eq in Hc.
    destruct (p_Image_open penv path) as [image|e] eqn:Ho;
      [destruct (p_np_array penv image) as [img_array|e] eqn:Ha|].
    + eexists [_; _]. simpl. split; [by rewrite <- app_assoc|]. split; [|done].
      intros img pth Hin. apply elem_of_cons in Hin as [|Hin]; [done|].
      apply list_elem_of_singleton in Hin. simplify_eq. eauto.
    + eexists [_]. simpl. split; [done|]. split; [|done].
      intros img pth Hin. by apply list_elem_of_singleton in Hin.
    + eexists [_]. simpl. split; [done|]. split; [|done].
      intros img pth Hin. by apply list_elem_of_singleton in Hin.
  - apply Z.eqb_neq in Hc.
    eexists [_; _]. simpl. split; [by rewrite <- app_assoc|]. split.
    + intros img pth Hin. apply elem_of_cons in Hin as [|Hin]; [done|].
      by apply list_elem_of_singleton in Hin.
    + intros _. split; [eexists; apply list_elem_of_further, list_elem_of_here|].
      intros img pth Hin. apply elem_of_cons in Hin as [|Hin]; [done|].
      by apply list_elem_of_singleton in Hin.
Qed.

(** C2, as the code has it: the child exits with code 0 exactly when every
    call of the [try] block has returned, from importing the renderer to
    deleting the scene file (eleven calls; loading, rendering and saving are
    among them), and otherwise with code 1 after an [ERROR:] line on stderr,
    which is the case with other than two arguments and when anything
    raises; the parent emits [render_complete] only for exit code 0 with an
    image it could open, and [render_failed] for every other exit code. *)
Theorem exit_code_protocol :
  (forall (env : child_env blob) argv,
      let run := main env argv in
      (run.1 = 0 \/ run.1 = 1) /\
      (run.1 = 0 <->
       length argv = 3%nat /\ (c_trace run.2).*2 = replicate 11 true) /\
      (run.1 = 0 -> load_render_save_ok run.2 /\ c_stderr run.2 = []) /\
      (run.1 = 1 ->
       c_stderr run.2 = [ERROR (cp "Invalid arguments")] \/
       exists e, c_stderr run.2 = [ERROR (exn_msg e); Traceback e]) /\
      (length argv <> 3%nat ->
       run.1 = 1 /\ c_stderr run.2 = [ERROR (cp "Invalid arguments")] /\
       c_stdout run.2 = [] /\ c_trace run.2 = [])) /\
  (forall (penv : parent_env blob) path (w : world blob),
      match process w with
      | Some p =>
          exists new,
            signals (_on_finished penv path w).2 = signals w ++ new /\
            (forall img pth,
                render_complete img pth ∈ new ->
                exitCode p = 0 /\ pth = path /\
                exists image, p_Image_open penv path = Ok image /\
                              p_np_array penv image = Ok img) /\
            (exitCode p <> 0 ->
             (exists msg, render_failed msg ∈ new) /\
             forall img pth, render_complete img pth ∉ new)
      | None => signals (_on_finished penv path w).2 = signals w
      end).
Proof.
  split.
  - intros env argv. apply main_exit_code.
  - intros penv path w. apply on_finished_signals.
Qed.

End ExitCode.

(** C2 as stated fails: with every call returning except the deletion of the
    scene file, the data is loaded, the image rendered and saved, and the
    exit code is 1. *)
Lemma exit_code_0_not_just_load_render_save :
  ~ (forall (env : child_env unit) argv,
        (main env argv).1 = 0 <-> load_render_save_ok (main env argv).2).
Proof.
  intros H.
  destruct (H (demo_child_env (Raise (Exn "PermissionError" (cp "/tmp/tmp0.pkl"))))
              demo_argv) as [_ H1].
  assert (load_render_save_ok
            (main (demo_child_env (Raise (Exn "PermissionError" (cp "/tmp/tmp0.pkl"))))
               demo_argv).2) as Hok.
  { vm_compute.
    repeat split; eexists; try eexists;
      solve [repeat first [apply list_elem_of_here | apply list_elem_of_further]]. }
  specialize (H1 Hok). vm_compute in H1. discriminate.
Qed.

(** ** Handing the scene to the child *)

Section HandOver.

Context {blob : Type}.
Implicit Types (w : world blob) (env : parent_env blob) (cenv : child_env blob).




End HandOver.


(** ** The basic scene *)






Lemma bind_ok {S A B} (m : M S A) (k : A -> M S B) s a s1 :
  m s = (Ok a, s1) -> bind m k s = k a s1.
Proof. unfold bind. by intros ->. Qed.




















(** ** The two preprocessings compared *)


Section Compare.

Variable mi : mitsuba.

Lemma py_contains_dict l items key (h : heap) :
  h !! l = Some (ODict items) ->
  py_contains (VRef l) key h
  = (Ok (match dict_lookup key items with Some _ => true | None => false end), h).
Proof. unfold py_contains. by intros ->. Qed.

(** C8 fails on the code: for a ['look_at'] dictionary (here without a
    child) [RenderWorker._build_transform_from_dict] has no case and returns
    the identity transform, where [_build_transform] of the child process
    calls the renderer's [look_at] with the origin, target and up vector of
    the dictionary. *)
Theorem render_worker_ignores_look_at d td h items :
  h !! td = Some (ODict items) ->
  dict_lookup "type" items = Some (VStr "look_at") ->
  dict_lookup "child" items = None ->
  _build_transform_from_dict mi (S d) (VRef td) h
  = (ScalarTransform4f_identity mi, h) /\
  let h1 := h ++ [OList [VInt 0; VInt 0; VInt 0]] in
  let h2 := h1 ++ [OList [VInt 0; VInt 0; VInt 0]] in
  let h3 := h2 ++ [OList [VInt 0; VInt 1; VInt 0]] in
  _build_transform mi (S d) (VRef td) h
  = (look_at mi
       (default (VRef (length h)) (dict_lookup "origin" items))
       (default (VRef (length h1)) (dict_lookup "target" items))
       (default (VRef (length h2)) (dict_lookup "up" items)) h3, h3).
Proof.
  intros Hh Hty Hch. split.
  - cbn [_build_transform_from_dict].
    rewrite (bind_ok _ _ _ _ _ (py_get_dict _ _ _ _ _ Hh)). rewrite Hty.
    change (default (VStr "identity") (Some (VStr "look_at"))) with (VStr "look_at").
    cbn [eq_str String.eqb Ascii.eqb Bool.eqb].
    unfold bind at 1. unfold lift at 1.
    destruct (ScalarTransform4f_identity mi) as [t|e]; [|done].
    rewrite (bind_ok _ _ _ _ _ (py_contains_dict _ _ _ _ Hh)). by rewrite Hch.
  - intros h1 h2 h3.
    assert (h1 !! td = Some (ODict items)) as Hh1 by by apply lookup_app_l_Some.
    assert (h2 !! td = Some (ODict items)) as Hh2 by by apply lookup_app_l_Some.
    assert (h3 !! td = Some (ODict items)) as Hh3 by by apply lookup_app_l_Some.
    cbn [_build_transform].
    rewrite (bind_ok _ _ _ _ _ (py_get_dict _ _ _ _ _ Hh)). rewrite Hty.
    change (default (VStr "identity") (Some (VStr "look_at"))) with (VStr "look_at").
    cbn [eq_str String.eqb Ascii.eqb Bool.eqb].
    unfold bind at 1. unfold bind at 1. unfold alloc at 1. cbv beta iota.
    fold h1. rewrite (bind_ok _ _ _ _ _ (py_get_dict _ _ _ _ _ Hh1)).
    unfold bind at 1. unfold alloc at 1. cbv beta iota.
    fold h2. rewrite (bind_ok _ _ _ _ _ (py_get_dict _ _ _ _ _ Hh2)).
    unfold bind at 1. unfold alloc at 1. cbv beta iota.
    fold h3. rewrite (bind_ok _ _ _ _ _ (py_get_dict _ _ _ _ _ Hh3)).
    unfold call.
    destruct (look_at mi _ _ _ h3) as [t|e]; [|done].
    rewrite (bind_ok _ _ _ _ _ (py_contains_dict _ _ _ _ Hh3)). by rewrite Hch.
Qed.

End Compare.

Lemma render_worker_ignores_look_at_witness :
  let h := demo_pickled.1 in
  let items := [("type", VStr "look_at"); ("origin", VRef 0)] in
  h !! 1%nat = Some (ODict items) /\
  _build_transform_from_dict demo_mi 1 (VRef 1) h = (Ok 0%N, h) /\
  let h1 := h ++ [OList [VInt 0; VInt 0; VInt 0]] in
  let h2 := h1 ++ [OList [VInt 0; VInt 0; VInt 0]] in
  let h3 := h2 ++ [OList [VInt 0; VInt 1; VInt 0]] in
  _build_transform demo_mi 1 (VRef 1) h
  = (look_at demo_mi (VRef 0) (VRef (length h1)) (VRef (length h2)) h3, h3).
Proof.
  intros h items. split; [reflexivity|].
  apply (render_worker_ignores_look_at demo_mi 0 1 h items); reflexivity.
Defined.

(** The two preprocessings of one scene: the copy of the sensor (object 7)
    gets the camera transform from the child's code and the identity from
    [RenderWorker]'s. *)
Example preprocess_look_at_diverges :
  let h := demo_pickled.1 in
  exists h1 h2,
    preprocess_transforms demo_mi 100 (VRef 3) h = (Ok (VRef 6), h1) /\
    _preprocess_scene_dict demo_mi 100 (VRef 3) h = (Ok (VRef 6), h2) /\
    h1 !! 7%nat = Some (ODict [("type", VStr "perspective"); ("to_world", VObject 1)]) /\
    h2 !! 7%nat = Some (ODict [("type", VStr "perspective"); ("to_world", VObject 0)]) /\
    take 6 h1 = h /\ take 6 h2 = h.
Proof. vm_compute. eexists _, _. repeat split. Qed.

Lemma spp_passed_through_witness :
  let run := main (demo_child_env (Ok tt)) demo_argv in
  open_and_load (demo_child_env (Ok tt)) (cp "/tmp/tmp0.pkl") = Ok demo_pickled /\
  Forall (fun c => c.1.2 = VInt 64) (render_calls run.2) /\
  render_calls run.2 = [(100%N, VInt 64, true)].
Proof.
  intros run. split; [vm_compute; reflexivity|].
  destruct (spp_passed_through (demo_child_env (Ok tt))
              (cp "gui/utils/render_subprocess.py") (cp "/tmp/tmp0.pkl")
              (cp "output/render.png") demo_pickled.1 5
              [("scene_dict", VRef 3); ("params", VRef 4)] 4 [("spp", VInt 64)])
    as [Hall Hcall].
  - vm_compute. reflexivity.
  - reflexivity.
  - reflexivity.
  - reflexivity.
  - split; [exact Hall|].
    eapply (Hcall (VRef 3)); [reflexivity..| |reflexivity].
    vm_compute. reflexivity.
Defined.

(** ** What the preprocessing returns *)

(** Induction on values, through the items of tuples. *)
Lemma val_ind_items (P : val -> Prop) :
  P VNone -> (forall b, P (VBool b)) -> (forall z, P (VInt z)) ->
  (forall f, P (VFloat f)) -> (forall s, P (VStr s)) ->
  (forall items, Forall P items -> P (VTuple items)) ->
  (forall o, P (VObject o)) -> (forall l, P (VRef l)) ->
  forall v, P v.
Proof.
  intros HN HB HI HF HS HT HO HR.
  fix IH 1. intros [|b|z|f|s|items|o|l].
  - exact HN.
  - apply HB.
  - apply HI.
  - apply HF.
  - apply HS.
  - apply HT. induction items as [|v items IHitems]; constructor.
    + apply IH.
    + exact IHitems.
  - apply HO.
  - apply HR.
Qed.

Lemma val_in_ref m l : val_in m (VRef l) <-> is_Some (m !! l).
Proof. unfold val_in; simpl. by rewrite Forall_singleton. Qed.

Lemma val_in_tuple m items : val_in m (VTuple items) <-> Forall (val_in m) items.
Proof.
  unfold val_in; simpl. induction items as [|v items IH]; simpl.
  - split; constructor.
  - by rewrite Forall_app, Forall_cons, IH.
Qed.

Lemma val_below_ref n l : val_below n (VRef l) <-> (l < n)%nat.
Proof. unfold val_below; simpl. by rewrite Forall_singleton. Qed.

Lemma val_below_tuple n items :
  val_below n (VTuple items) <-> Forall (val_below n) items.
Proof.
  unfold val_below; simpl. induction items as [|v items IH]; simpl.
  - split; constructor.
  - by rewrite Forall_app, Forall_cons, IH.
Qed.

Lemma val_in_mono m m' v : m ⊆ m' -> val_in m v -> val_in m' v.
Proof.
  intros Hm Hv. unfold val_in. eapply Forall_impl; [exact Hv|].
  intros l [x Hx]. exists x. by eapply lookup_weaken.
Qed.

Lemma rename_mono m m' v : m ⊆ m' -> val_in m v -> rename m' v = rename m v.
Proof.
  intros Hm. induction v as [| | | | |items IH| |l] using val_ind_items;
    try done; intros Hv; simpl.
  - f_equal. apply val_in_tuple in Hv.
    induction IH as [|v items Hv1 _ IHitems]; [done|].
    apply Forall_cons in Hv as [Hv Hitems]. simpl. f_equal; auto.
  - apply val_in_ref in Hv as [x Hx].
    by rewrite Hx, (lookup_weaken _ _ _ _ Hx Hm).
Qed.

Lemma rename_obj_mono m m' o :
  m ⊆ m' -> Forall (val_in m) (obj_vals o) -> rename_obj m' o = rename_obj m o.
Proof.
  intros Hm Ho. destruct o as [items|items]; simpl in *; f_equal.
  - induction items as [|[k v] items IH]; [done|].
    apply Forall_cons in Ho as [Hv Ho]. simpl. f_equal; [|by apply IH].
    f_equal. by apply rename_mono.
  - induction items as [|v items IH]; [done|].
    apply Forall_cons in Ho as [Hv Ho]. simpl. f_equal; [|by apply IH].
    by apply rename_mono.
Qed.

Lemma foldl_append_to (f : val -> val) items : forall acc,
  foldl (fun o a => append_to (f a) o) (OList acc) items = OList (acc ++ map f items).
Proof.
  induction items as [|a items IH]; intros acc; simpl.
  - by rewrite app_nil_r.
  - rewrite IH. by rewrite <- app_assoc.
Qed.

Lemma dict_set_new k v items :
  k ∉ items.*1 -> dict_set k v items = items ++ [(k, v)].
Proof.
  induction items as [|[k' x] items IH]; simpl; [done|].
  intros Hk. apply not_elem_of_cons in Hk as [Hne Hk].
  destruct (String.eqb k' k) eqn:E.
  - apply String.eqb_eq in E. congruence.
  - by rewrite IH.
Qed.

Lemma foldl_set_in (f : val -> val) (items : list (string * val)) : forall acc,
  NoDup (acc.*1 ++ items.*1) ->
  foldl (fun o kv => set_in kv.1 (f kv.2) o) (ODict acc) items
  = ODict (acc ++ map (fun kv => (kv.1, f kv.2)) items).
Proof.
  induction items as [|[k v] items IH]; intros acc Hnd; simpl.
  - by rewrite app_nil_r.
  - rewrite dict_set_new.
    + rewrite IH; [by rewrite <- app_assoc|].
      rewrite fmap_app. simpl. by rewrite <- app_assoc.
    + simpl in Hnd. apply NoDup_app in Hnd as (_ & Hd & _).
      intros Hin. apply (Hd k Hin). by left.
Qed.

Section CopyIso.

Variable h0 : heap.
Hypothesis Hok : store_ok h0.

Lemma copied_mono m m' (h h' : heap) a a' :
  copied h0 m h a a' -> m ⊆ m' -> h' !! a' = h !! a' -> copied h0 m' h' a a'.
Proof.
  intros (o & Ho & Hc & Hin) Hm Hh. exists o. split; [done|]. split.
  - by rewrite Hh, (rename_obj_mono m m').
  - eapply Forall_impl; [done|]. intros v. by apply val_in_mono.
Qed.

Lemma copy_inv_lookup s a o :
  copy_inv h0 s -> s.2 !! a = Some o -> (a < length s.2)%nat.
Proof. intros _ H. by apply lookup_lt_Some in H. Qed.

(** The loop of [_deepcopy_list] and [_deepcopy_dict]: the items are copied
    in turn and written into the new object at [lc]. *)
Lemma copy_loop {A} d (proj : A -> val) (write : A -> val -> M heap unit)
    (step : A -> val -> obj -> obj) lc :
  (forall x s y s', deepcopy d x s = (Ok y, s') -> copy_inv h0 s ->
                    val_below (length h0) x -> copy_post h0 s x y s') ->
  (forall a v (h : heap) h', write a v h = (Ok tt, h') ->
     exists o, h !! lc = Some o /\ h' = <[lc := step a v o]> h) ->
  forall rest s s' o,
    for_each rest (fun a => a' <- deepcopy d (proj a) ;; with_memo (write a a')) s
    = (Ok tt, s') ->
    copy_inv h0 s -> Forall (fun a => val_below (length h0) (proj a)) rest ->
    (exists lsrc, s.1 !! lsrc = Some lc) -> s.2 !! lc = Some o ->
    copy_inv h0 s' /\ s.1 ⊆ s'.1 /\
    (forall a, (a < length s.2)%nat -> a <> lc -> s'.2 !! a = s.2 !! a) /\
    s'.2 !! lc = Some (foldl (fun o a => step a (rename s'.1 (proj a)) o) o rest) /\
    Forall (fun a => val_in s'.1 (proj a)) rest /\
    (forall a a', s'.1 !! a = Some a' -> s.1 !! a = None -> copied h0 s'.1 s'.2 a a').
Proof.
  intros IHd Hwrite rest.
  induction rest as [|x rest IH]; intros s s' o E Hinv Hbelow [lsrc Hsrc] Hlc.
  - injection E as <-.
    split; [done|]. split; [done|]. split; [done|]. split; [done|].
    split; [constructor|]. intros a a' Ha Hn. congruence.
  - simpl in E.
    apply bind_eq in E as [([] & s1 & E1 & E)|(? & _ & ?)]; [|done].
    apply bind_eq in E1 as [(v' & sa & Ea & Ew)|(? & _ & ?)]; [|done].
    apply Forall_cons in Hbelow as [Hx Hrest].
    destruct (IHd _ _ _ _ Ea Hinv Hx) as (Hinva & Hsub & Hsame & -> & Hinx & Hnew).
    unfold with_memo in Ew.
    destruct (write x (rename sa.1 (proj x)) sa.2) as [r h'] eqn:Ewr.
    injection Ew as -> <-.
    destruct (Hwrite _ _ _ _ Ewr) as (oa & Hoa & ->).
    assert (lc < length s.2)%nat as Hlclt by by apply lookup_lt_Some in Hlc.
    rewrite (Hsame lc Hlclt), Hlc in Hoa. injection Hoa as <-.
    destruct Hinva as (Ia1 & Ia2 & Ia3 & Ia4 & Ia5).
    pose proof (lookup_weaken _ _ _ _ Hsrc Hsub) as Hsrca.
    destruct (Ia3 _ _ Hsrca) as (Hsrclt & Hlcge & Hlclta).
    assert (copy_inv h0 (sa.1, <[lc := step x (rename sa.1 (proj x)) o]> sa.2)) as Hinv1.
    { split; [|split; [|split; [|split]]]; simpl.
      - intros l Hl. rewrite list_lookup_insert_ne by lia. by apply Ia1.
      - by rewrite length_insert.
      - intros l l' Hl. rewrite length_insert. by apply Ia3.
      - done.
      - intros l'. rewrite length_insert. by apply Ia5. }
    destruct (IH _ _ (step x (rename sa.1 (proj x)) o) E Hinv1 Hrest)
      as (Hinv' & Hsub' & Hsame' & Hlc' & Hin' & Hnew'); simpl.
    { by exists lsrc. }
    { by apply list_lookup_insert_eq. }
    simpl in *. rewrite length_insert in Hsame'.
    assert (length s.2 <= length sa.2)%nat as Hlen.
    { destruct (decide (length s.2 <= length sa.2)%nat); [done|].
      pose proof (Hsame (length sa.2) ltac:(lia)) as Hc.
      rewrite (lookup_ge_None_2 sa.2) in Hc by lia.
      symmetry in Hc. apply lookup_ge_None in Hc. lia. }
    split; [done|]. split; [by etrans|]. split; [|split; [|split]].
    + intros a Ha Hne. rewrite Hsame' by (done || lia).
      rewrite list_lookup_insert_ne by done. by apply Hsame.
    + rewrite Hlc'. simpl. by rewrite (rename_mono sa.1 s'.1 (proj x) Hsub' Hinx).
    + constructor; [by eapply val_in_mono|done].
    + intros a a' Ha Hn.
      destruct (sa.1 !! a) as [a''|] eqn:Eaa.
      * pose proof (lookup_weaken _ _ _ _ Eaa Hsub') as Ha'.
        rewrite Ha in Ha'. injection Ha' as <-.
        apply (copied_mono sa.1 _ sa.2); [by apply Hnew|done|].
        destruct (Ia3 _ _ Eaa) as (_ & _ & Halt).
        assert (a' <> lc) as Hne.
        { intros ->. assert (a = lsrc) by by eapply Ia4. congruence. }
        rewrite Hsame' by done. by rewrite list_lookup_insert_ne.
      * by apply Hnew'.
Qed.

Lemma copy_map_each d :
  (forall x s y s', deepcopy d x s = (Ok y, s') -> copy_inv h0 s ->
                    val_below (length h0) x -> copy_post h0 s x y s') ->
  forall items s ys s',
    map_each items (deepcopy d) s = (Ok ys, s') ->
    copy_inv h0 s -> Forall (val_below (length h0)) items ->
    copy_inv h0 s' /\ s.1 ⊆ s'.1 /\
    (forall a, (a < length s.2)%nat -> s'.2 !! a = s.2 !! a) /\
    ys = map (rename s'.1) items /\ Forall (val_in s'.1) items /\
    (forall a a', s'.1 !! a = Some a' -> s.1 !! a = None -> copied h0 s'.1 s'.2 a a').
Proof.
  intros IHd items.
  induction items as [|x items IH]; intros s ys s' E Hinv Hbelow.
  - injection E as <- <-.
    split; [done|]. split; [done|]. split; [done|]. split; [done|].
    split; [constructor|]. intros a a' Ha Hn. congruence.
  - simpl in E.
    apply bind_eq in E as [(y & sa & Ea & E)|(? & _ & ?)]; [|done].
    apply bind_eq in E as [(ys' & sb & Eb & E)|(? & _ & ?)]; [|done].
    injection E as <- <-.
    apply Forall_cons in Hbelow as [Hx Hrest].
    destruct (IHd _ _ _ _ Ea Hinv Hx) as (Hinva & Hsub & Hsame & -> & Hinx & Hnew).
    destruct (IH _ _ _ Eb Hinva Hrest) as (Hinv' & Hsub' & Hsame' & -> & Hin' & Hnew').
    assert (length s.2 <= length sa.2)%nat as Hlen.
    { destruct (decide (length s.2 <= length sa.2)%nat); [done|].
      pose proof (Hsame (length sa.2) ltac:(lia)) as Hc.
      rewrite (lookup_ge_None_2 sa.2) in Hc by lia.
      symmetry in Hc. apply lookup_ge_None in Hc. lia. }
    split; [done|]. split; [by etrans|]. split; [|split; [|split]].
    + intros a Ha. rewrite Hsame' by lia. by apply Hsame.
    + simpl. f_equal. symmetry. by apply rename_mono.
    + constructor; [by eapply val_in_mono|done].
    + intros a a' Ha Hn.
      destruct (sa.1 !! a) as [a''|] eqn:Eaa.
      * pose proof (lookup_weaken _ _ _ _ Eaa Hsub') as Ha'.
        rewrite Ha in Ha'. injection Ha' as <-.
        apply (copied_mono sa.1 _ sa.2); [by apply Hnew|done|].
        destruct Hinva as (_ & _ & Ia3 & _).
        destruct (Ia3 _ _ Eaa) as (_ & _ & Halt). by apply Hsame'.
      * by apply Hnew'.
Qed.

Lemma py_append_inv lc a (h : heap) h' :
  py_append lc a h = (Ok tt, h') ->
  exists o, h !! lc = Some o /\ h' = <[lc := append_to a o]> h.
Proof.
  unfold py_append. destruct (h !! lc) as [[|items]|]; try done.
  intros [= <-]. eauto.
Qed.

Lemma py_setitem_inv lc k a (h : heap) h' :
  py_setitem lc k a h = (Ok tt, h') ->
  exists o, h !! lc = Some o /\ h' = <[lc := set_in k a o]> h.
Proof.
  unfold py_setitem. destruct (h !! lc) as [[items|]|]; try done.
  intros [= <-]. eauto.
Qed.

Lemma copy_inv_alloc s l o :
  copy_inv h0 s -> (l < length h0)%nat -> s.1 !! l = None ->
  copy_inv h0 (<[l := length s.2]> s.1, s.2 ++ [o]).
Proof.
  intros (I1 & I2 & I3 & I4 & I5) Hl Hn. split; [|split; [|split; [|split]]]; simpl.
  - intros a Ha. rewrite lookup_app_l by lia. by apply I1.
  - rewrite length_app. lia.
  - intros a a'. rewrite length_app. simpl.
    intros [[-> <-]|[_ Ha]]%lookup_insert_Some; [lia|].
    destruct (I3 _ _ Ha). lia.
  - intros a1 a2 a'.
    intros [[-> <-]|[Hne1 Ha1]]%lookup_insert_Some
           [[-> E]|[Hne2 Ha2]]%lookup_insert_Some; try done.
    + destruct (I3 _ _ Ha2). lia.
    + destruct (I3 _ _ Ha1). lia.
    + by eapply I4.
  - intros a'. rewrite length_app. simpl. intros Ha'.
    destruct (decide (a' = length s.2)) as [->|Hne].
    + exists l. by rewrite lookup_insert_eq.
    + destruct (I5 a') as [a Ha]; [lia|]. exists a.
      rewrite lookup_insert_ne; [done|]. intros ->. congruence.
Qed.

(** [deepcopy] of a value of a well-formed store: the result is the value
    redirected through the final memo, and every object entered in the memo
    during the call is, at the end, the copy of its original. *)
Lemma deepcopy_copies d : forall x s y s',
  deepcopy d x s = (Ok y, s') ->
  copy_inv h0 s -> val_below (length h0) x -> copy_post h0 s x y s'.
Proof.
  induction d as [|d IH]; intros x s y s' E Hinv Hx; [done|].
  simpl in E.
  destruct x as [| | | | |items| |l];
    try (injection E as <- <-; split; [done|]; split; [done|]; split; [done|];
         split; [done|]; split; [constructor|]; intros a a' Ha Hn; congruence).
  - apply bind_eq in E as [(ys & s1 & E1 & E)|(? & _ & ?)]; [|done].
    injection E as <- <-. apply val_below_tuple in Hx.
    destruct (copy_map_each d IH _ _ _ _ E1 Hinv Hx)
      as (Hinv' & Hsub & Hsame & -> & Hin & Hnew).
    split; [done|]. split; [done|]. split; [done|]. split; [done|].
    split; [by apply val_in_tuple|done].
  - apply val_below_ref in Hx.
    destruct (s.1 !! l) as [l'|] eqn:El.
    { injection E as <- <-. split; [done|]. split; [done|]. split; [done|].
      split; [by simpl; rewrite El|]. split; [by apply val_in_ref|].
      intros a a' Ha Hn. congruence. }
    pose proof Hinv as (I1 & I2 & I3 & I4 & I5).
    pose proof (copy_inv_alloc s l) as Hinv0.
    assert (s.1 ⊆ <[l := length s.2]> s.1) as Hsub0 by by apply insert_subseteq.
    destruct (s.2 !! l) as [[items|items]|] eqn:Eo; [| |done].
    + rewrite I1 in Eo by done.
      apply bind_eq in E as [([] & s1 & E1 & E)|(? & _ & ?)]; [|done].
      injection E as <- <-.
      destruct (copy_loop d snd (fun kv v => py_setitem (length s.2) kv.1 v)
                  (fun kv v => set_in kv.1 v) (length s.2) IH
                  ltac:(intros; by apply py_setitem_inv)
                  _ _ _ (ODict []) E1 (Hinv0 _ Hinv Hx El))
        as (Hinv' & Hsub & Hsame & Hlc & Hin & Hnew); simpl.
      { destruct Hok as [_ Hb]. specialize (Hb _ _ Eo). simpl in Hb.
        by rewrite Forall_fmap in Hb. }
      { exists l. by rewrite lookup_insert_eq. }
      { by apply list_lookup_middle. }
      simpl in *. rewrite length_app in Hsame. simpl in Hsame.
      assert (s1.1 !! l = Some (length s.2)) as Hl'.
      { eapply lookup_weaken; [|done]. by rewrite lookup_insert_eq. }
      split; [done|]. split; [by etrans|]. split; [|split; [|split]].
      * intros a Ha. rewrite Hsame by lia. by apply lookup_app_l.
      * simpl. by rewrite Hl'.
      * by apply val_in_ref.
      * intros a a' Ha Hn. destruct (decide (a = l)) as [->|Hne].
        -- rewrite Hl' in Ha. injection Ha as <-.
           exists (ODict items). split; [done|]. split.
           ++ rewrite Hlc. f_equal.
              rewrite (foldl_set_in (rename s1.1)); [done|]. simpl.
              by apply (proj1 Hok l).
           ++ simpl. by rewrite Forall_fmap.
        -- apply Hnew; [done|]. by rewrite lookup_insert_ne.
    + rewrite I1 in Eo by done.
      apply bind_eq in E as [([] & s1 & E1 & E)|(? & _ & ?)]; [|done].
      injection E as <- <-.
      destruct (copy_loop d id (fun a v => py_append (length s.2) v)
                  (fun a v => append_to v) (length s.2) IH
                  ltac:(intros; by apply py_append_inv)
                  _ _ _ (OList []) E1 (Hinv0 _ Hinv Hx El))
        as (Hinv' & Hsub & Hsame & Hlc & Hin & Hnew); simpl.
      { destruct Hok as [_ Hb]. by specialize (Hb _ _ Eo). }
      { exists l. by rewrite lookup_insert_eq. }
      { by apply list_lookup_middle. }
      simpl in *. rewrite length_app in Hsame. simpl in Hsame.
      assert (s1.1 !! l = Some (length s.2)) as Hl'.
      { eapply lookup_weaken; [|done]. by rewrite lookup_insert_eq. }
      split; [done|]. split; [by etrans|]. split; [|split; [|split]].
      * intros a Ha. rewrite Hsame by lia. by apply lookup_app_l.
      * simpl. by rewrite Hl'.
      * by apply val_in_ref.
      * intros a a' Ha Hn. destruct (decide (a = l)) as [->|Hne].
        -- rewrite Hl' in Ha. injection Ha as <-.
           exists (OList items). split; [done|]. split; [|done].
           rewrite Hlc. f_equal.
           by rewrite (foldl_append_to (rename s1.1)).
        -- apply Hnew; [done|]. by rewrite lookup_insert_ne.
Qed.

End CopyIso.
(** ** What [_process_recursive] does to the copy *)

Lemma val_below_atom n v : val_refs v = [] -> val_below n v.
Proof. unfold val_below. intros ->. constructor. Qed.

Lemma val_below_mono n n' v : val_below n v -> (n <= n')%nat -> val_below n' v.
Proof.
  unfold val_below. intros Hv Hn. eapply Forall_impl; [exact Hv|].
  simpl. intros l Hl. lia.
Qed.

Lemma Forall_below_mono n n' (vs : list val) :
  Forall (val_below n) vs -> (n <= n')%nat -> Forall (val_below n') vs.
Proof.
  intros Hv Hn. eapply Forall_impl; [exact Hv|].
  intros v Hb. by eapply val_below_mono.
Qed.

Lemma dict_lookup_set_eq key v items :
  dict_lookup key (dict_set key v items) = Some v.
Proof.
  induction items as [|[k x] items IH]; simpl.
  - by rewrite String.eqb_refl.
  - destruct (String.eqb k key) eqn:E; simpl; by rewrite E.
Qed.

Lemma dict_set_elem_ne key v items k x :
  k <> key -> (k, x) ∈ dict_set key v items -> (k, x) ∈ items.
Proof.
  intros Hne. induction items as [|[k' x'] items IH]; simpl.
  - intros [= -> ->]%list_elem_of_singleton. done.
  - destruct (String.eqb k' key) eqn:E.
    + apply String.eqb_eq in E as ->.
      intros [[= -> ->]|Hin]%elem_of_cons; [done|by right].
    + intros [->|Hin]%elem_of_cons; [by left|right; by apply IH].
Qed.

Lemma dict_set_below n key v items :
  val_below n v -> Forall (val_below n) items.*2 ->
  Forall (val_below n) (dict_set key v items).*2.
Proof.
  intros Hv. induction items as [|[k x] items IH]; simpl; intros Hi.
  - by repeat constructor.
  - apply Forall_cons in Hi as [Hx Hi].
    destruct (String.eqb k key); simpl; constructor; auto.
Qed.

Lemma no_dangling_app h o :
  no_dangling h -> Forall (val_below (length h)) (obj_vals o) ->
  no_dangling (h ++ [o]).
Proof.
  intros Hh Ho l o' Hl. rewrite length_app. simpl.
  apply lookup_app_Some in Hl as [Hl|[_ Hl]].
  - eapply Forall_below_mono; [by eapply Hh|lia].
  - apply list_lookup_singleton_Some in Hl as [_ <-].
    eapply Forall_below_mono; [done|lia].
Qed.

Lemma no_dangling_insert h l o :
  no_dangling h -> Forall (val_below (length h)) (obj_vals o) ->
  no_dangling (<[l := o]> h).
Proof.
  intros Hh Ho l' o' Hl. rewrite length_insert.
  apply list_lookup_insert_Some in Hl as [(-> & <- & _)|[_ Hl]]; [done|].
  by eapply Hh.
Qed.

Lemma no_dangling_entry h l items k v :
  no_dangling h -> h !! l = Some (ODict items) -> (k, v) ∈ items ->
  val_below (length h) v.
Proof.
  intros Hh Hl Hin. specialize (Hh _ _ Hl). simpl in Hh.
  rewrite Forall_forall in Hh. apply Hh.
  apply list_elem_of_fmap. by exists (k, v).
Qed.

Lemma no_dangling_item h l items v :
  no_dangling h -> h !! l = Some (OList items) -> v ∈ items ->
  val_below (length h) v.
Proof.
  intros Hh Hl Hin. specialize (Hh _ _ Hl). simpl in Hh.
  rewrite Forall_forall in Hh. by apply Hh.
Qed.

Lemma obj_upd_dict items o' :
  obj_upd (ODict items) o' ->
  exists items', o' = ODict items' /\
    (forall k x, k <> "to_world" -> (k, x) ∈ items' -> (k, x) ∈ items) /\
    (forall a, dict_lookup "to_world" items' = Some (VRef a) -> items' = items).
Proof.
  intros [->|(items0 & a & t & [= <-] & Hlk & ->)].
  - exists items. by repeat split.
  - eexists. split; [done|]. split.
    + intros k x Hne. by apply dict_set_elem_ne.
    + intros a'. by rewrite dict_lookup_set_eq.
Qed.

Lemma obj_upd_list items o' : obj_upd (OList items) o' -> o' = OList items.
Proof. by intros [->|(items0 & a & t & [=] & _)]. Qed.

Lemma obj_upd_trans o1 o2 o3 : obj_upd o1 o2 -> obj_upd o2 o3 -> obj_upd o1 o3.
Proof.
  intros [->|(items & a & t & -> & Hlk & ->)]; [done|].
  intros [->|(items' & a' & t' & [= <-] & Hlk' & ->)].
  - right. by exists items, a, t.
  - by rewrite dict_lookup_set_eq in Hlk'.
Qed.

#[local] Instance upd_preorder : PreOrder upd.
Proof.
  split.
  - intros h. split; [done|]. intros l o Hl. exists o. split; [done|by left].
  - intros h1 h2 h3 [Hn1 H1] [Hn2 H2]. split; [lia|].
    intros l o Hl. destruct (H1 _ _ Hl) as (o2 & Hl2 & Hu1).
    destruct (H2 _ _ Hl2) as (o3 & Hl3 & Hu2).
    exists o3. split; [done|]. by eapply obj_upd_trans.
Qed.

Lemma prefix_upd (h h' : heap) : h `prefix_of` h' -> upd h h'.
Proof.
  intros Hp. split; [by apply prefix_length|].
  intros l o Hl. exists o. split; [by eapply prefix_lookup_Some|by left].
Qed.

Lemma upd_length h h' : upd h h' -> (length h <= length h')%nat.
Proof. by intros [? _]. Qed.

#[local] Instance upd_in_preorder S : PreOrder (upd_in S).
Proof.
  split.
  - intros h. split; [done|]. intros l o Hl. by left.
  - intros h1 h2 h3 [H1 K1] [H2 K2]. split; [by etrans|].
    intros l o Hl. destruct (K1 _ _ Hl) as [Hl2|?]; [|by right]. by apply K2.
Qed.

Lemma prefix_upd_in S (h h' : heap) : h `prefix_of` h' -> upd_in S h h'.
Proof.
  intros Hp. split; [by apply prefix_upd|].
  intros l o Hl. left. by eapply prefix_lookup_Some.
Qed.

Lemma visited_upd_back h h' v l :
  no_dangling h -> upd h h' -> val_below (length h) v ->
  visited h' v l -> visited h v l /\ (l < length h)%nat.
Proof.
  intros Hnd [_ Hu] Hv Hvis.
  induction Hvis as [l|l0 items v l Hl0 Hin Hvis IH|l0 items k v l Hl0 Hin Hne Hvis IH].
  - split; [constructor|]. by apply val_below_ref.
  - apply val_below_ref in Hv.
    destruct (lookup_lt_is_Some_2 h l0 Hv) as [o Ho].
    destruct (Hu _ _ Ho) as (o' & Ho' & Hupd).
    rewrite Hl0 in Ho'. injection Ho' as <-.
    destruct o as [its|its].
    { apply obj_upd_dict in Hupd as (? & [=] & _). }
    apply obj_upd_list in Hupd as [= ->].
    destruct IH as [IH Hlt]; [by eapply no_dangling_item|].
    split; [by eapply visited_item|done].
  - apply val_below_ref in Hv.
    destruct (lookup_lt_is_Some_2 h l0 Hv) as [o Ho].
    destruct (Hu _ _ Ho) as (o' & Ho' & Hupd).
    rewrite Hl0 in Ho'. injection Ho' as <-.
    destruct o as [its|its].
    2: { by apply obj_upd_list in Hupd. }
    apply obj_upd_dict in Hupd as (? & [= <-] & Hsub & _).
    pose proof (Hsub _ _ Hne Hin) as Hin0.
    destruct IH as [IH Hlt]; [by eapply no_dangling_entry|].
    split; [by eapply visited_entry|done].
Qed.

Lemma processed_upd h h' v :
  no_dangling h -> upd h h' -> val_below (length h) v ->
  processed h v -> processed h' v.
Proof.
  intros Hnd Hu Hv Hp l items a Hvis Hl Hlk.
  destruct (visited_upd_back _ _ _ _ Hnd Hu Hv Hvis) as [Hvis0 Hlt].
  destruct (lookup_lt_is_Some_2 h l Hlt) as [o Ho].
  destruct (proj2 Hu _ _ Ho) as (o' & Ho' & Hupd).
  rewrite Hl in Ho'. injection Ho' as <-.
  destruct o as [its|its]; [|by apply obj_upd_list in Hupd].
  apply obj_upd_dict in Hupd as (? & [= <-] & _ & Hsame).
  rewrite (Hsame _ Hlk) in Hlk. by eapply Hp.
Qed.

Lemma processed_atom h v : (forall l, v <> VRef l) -> processed h v.
Proof. intros Hv l items a Hvis. inversion Hvis; subst; by edestruct Hv. Qed.

Section Update.

Variable mi : mitsuba.

(** Calls that leave the store as it is, under any relation on stores. *)
Section Reads.

Context (R : heap -> heap -> Prop) `{!PreOrder R}.

Lemma reads_py_get d key dflt h :
  no_dangling h -> val_below (length h) d -> val_below (length h) dflt ->
  holds no_dangling R (py_get d key dflt) h
    (fun v h' => h' = h /\ val_below (length h) v).
Proof.
  intros Hg Hd Hdf r h' E. unfold py_get in E.
  assert (h' = h) as ->.
  { destruct d; try (by inversion E). destruct (h !! l) as [[]|]; by inversion E. }
  split; [done|]. split; [done|]. intros v ->. split; [done|].
  destruct d; try done.
  destruct (h !! l) as [[items|]|] eqn:El; try done.
  inversion E as [E'].
  destruct (dict_lookup key items) eqn:Ek; [|done].
  eapply no_dangling_entry; eauto using dict_lookup_elem.
Qed.

Lemma reads_py_getitem d key h :
  no_dangling h ->
  holds no_dangling R (py_getitem d key) h
    (fun v h' => h' = h /\ val_below (length h) v).
Proof.
  intros Hg r h' E. unfold py_getitem in E.
  assert (h' = h) as ->.
  { destruct d; try (by inversion E). destruct (h !! l) as [[]|]; by inversion E. }
  split; [done|]. split; [done|]. intros v ->. split; [done|].
  destruct d; try done.
  destruct (h !! l) as [[items|]|] eqn:El; try done.
  destruct (dict_lookup key items) eqn:Ek; [|done].
  inversion E; subst.
  eapply no_dangling_entry; eauto using dict_lookup_elem.
Qed.

Lemma reads_py_first l h :
  no_dangling h ->
  holds no_dangling R (py_first l) h
    (fun v h' => h' = h /\ val_below (length h) v).
Proof.
  intros Hg r h' E. unfold py_first in E.
  assert (h' = h) as ->.
  { destruct l as [| | | | | | |a]; try (by inversion E).
    destruct (h !! a) as [[|[|]]|]; by inversion E. }
  split; [done|]. split; [done|]. intros v ->. split; [done|].
  destruct l as [| | | | | | |a]; try done.
  destruct (h !! a) as [[|[|x items]]|] eqn:El; try done.
  inversion E; subst.
  eapply no_dangling_item; [done..|by left].
Qed.

Lemma reads_py_contains d key h :
  no_dangling h ->
  holds no_dangling R (py_contains d key) h (fun _ h' => h' = h).
Proof.
  intros Hg r h' E. unfold py_contains in E.
  assert (h' = h) as ->.
  { destruct d; try (by inversion E). destruct (h !! l) as [[]|]; by inversion E. }
  by repeat split.
Qed.

Lemma reads_call {A} (f : heap -> result A) h :
  no_dangling h -> holds no_dangling R (call f) h (fun _ h' => h' = h).
Proof. intros Hg r h' [= <- <-]. by repeat split. Qed.

Lemma reads_lift {A} (x : result A) h :
  no_dangling h -> holds no_dangling R (lift x) h (fun _ h' => h' = h).
Proof. intros Hg r h' [= <- <-]. by repeat split. Qed.

Lemma reads_get_store h :
  no_dangling h -> holds no_dangling R get_store h (fun a h' => a = h /\ h' = h).
Proof. intros. by apply holds_get_store. Qed.

End Reads.

Abbreviation grows := (holds no_dangling prefix).

Lemma grows_alloc o h :
  no_dangling h -> Forall (val_below (length h)) (obj_vals o) ->
  grows (alloc o) h (fun v h' => val_below (length h') v).
Proof.
  intros Hg Ho r h' [= <- <-]. split; [by apply prefix_app_r|].
  split; [by apply no_dangling_app|]. intros ? [= <-].
  apply val_below_ref. rewrite length_app. simpl. lia.
Qed.

Lemma grows_py_get d key dflt h :
  no_dangling h -> val_below (length h) d -> val_below (length h) dflt ->
  grows (py_get d key dflt) h (fun v h' => val_below (length h') v).
Proof.
  intros. eapply holds_mono; [apply reads_py_get; [apply _|done..]|]. by intros v h' _ _ [-> ?].
Qed.

Lemma grows_py_getitem d key h :
  no_dangling h -> grows (py_getitem d key) h (fun v h' => val_below (length h') v).
Proof.
  intros. eapply holds_mono; [apply reads_py_getitem; [apply _|done..]|]. by intros v h' _ _ [-> ?].
Qed.

Lemma grows_py_contains d key h :
  no_dangling h -> grows (py_contains d key) h (fun _ _ => True).
Proof. intros. eapply holds_mono; [apply reads_py_contains; [apply _|done..]|done]. Qed.

Lemma grows_call {A} (f : heap -> result A) h :
  no_dangling h -> grows (call f) h (fun _ _ => True).
Proof. intros. eapply holds_mono; [apply reads_call; [apply _|done..]|done]. Qed.

Lemma grows_lift {A} (x : result A) h :
  no_dangling h -> grows (lift x) h (fun _ _ => True).
Proof. intros. eapply holds_mono; [apply reads_lift; [apply _|done..]|done]. Qed.

Ltac below :=
  first [ apply val_below_atom; reflexivity
        | eapply val_below_mono; [eassumption|lia]
        | apply Forall_nil_2
        | apply Forall_cons_2; below ].

Ltac grows_leaf :=
  first [ apply grows_alloc | apply grows_py_get | apply grows_py_getitem
        | apply grows_py_contains | apply grows_call | apply grows_lift
        | apply holds_raise | apply holds_ret ];
  try (match goal with |- PreOrder _ => apply _ end);
  try done; try (cbv beta in *; simpl; below).

Ltac grows_step :=
  lazymatch goal with
  | |- holds _ _ (bind _ _) _ _ =>
      eapply holds_bind';
        try (match goal with |- PreOrder _ => apply _ end);
        [ | let HR := fresh "HR" in
            intros ? ? HR ? ?; apply prefix_length in HR ]
  | |- holds _ _ (if ?b then _ else _) _ _ => destruct b eqn:?
  | |- holds _ _ _ _ (fun _ _ => True) =>
      first [ grows_leaf
            | eapply holds_true;
              try (match goal with |- PreOrder _ => apply _ end); grows_leaf ]
  | |- holds _ _ _ _ _ => grows_leaf
  end.

Lemma build_transform_grows d : forall v h,
  no_dangling h -> val_below (length h) v ->
  grows (_build_transform mi d v) h (fun _ _ => True).
Proof.
  induction d as [|d IH]; intros v h Hg Hv; simpl.
  - apply holds_raise; [apply _|done].
  - repeat grows_step.
    all: try (eapply holds_true;
              try (match goal with |- PreOrder _ => apply _ end);
              apply IH; [done|cbv beta in *; below]).
Qed.

Variable S : nat -> Prop.

Abbreviation updates := (holds no_dangling (upd_in S)).

Lemma grows_updates {A} (m : M heap A) h (P : A -> heap -> Prop) :
  grows m h P -> updates m h (fun a h' => h `prefix_of` h' /\ P a h').
Proof.
  intros Hm r h' E. destruct (Hm r h' E) as (Hp & Hg & HP).
  split; [by apply prefix_upd_in|]. split; [done|]. intros a Ha. by split; [|apply HP].
Qed.

Lemma updates_py_setitem l items a t h :
  no_dangling h -> h !! l = Some (ODict items) ->
  dict_lookup "to_world" items = Some (VRef a) -> S l ->
  updates (py_setitem l "to_world" (VObject t)) h
    (fun _ h' => forall items' a',
       h' !! l = Some (ODict items') ->
       dict_lookup "to_world" items' <> Some (VRef a')).
Proof.
  intros Hg Hl Hlk HS r h' E. unfold py_setitem in E. rewrite Hl in E.
  injection E as <- <-.
  assert (l < length h)%nat as Hlt by by apply lookup_lt_Some in Hl.
  split; [|split].
  - split; [split|].
    + by rewrite length_insert.
    + intros l' o Hl'. destruct (decide (l' = l)) as [->|Hne].
      * rewrite list_lookup_insert_eq by done. eexists. split; [done|].
        rewrite Hl in Hl'. injection Hl' as <-. right. by exists items, a, t.
      * rewrite list_lookup_insert_ne by done. exists o. split; [done|by left].
    + intros l' o Hl'. destruct (decide (l' = l)) as [->|Hne]; [by right|].
      left. by rewrite list_lookup_insert_ne.
  - apply no_dangling_insert; [done|]. simpl.
    apply dict_set_below; [by apply val_below_atom|]. by apply (Hg l (ODict items)).
  - intros _ _ items' a'. rewrite list_lookup_insert_eq by done.
    intros [= <-]. by rewrite dict_lookup_set_eq.
Qed.

Lemma is_container_ref h a :
  no_dangling h -> (a < length h)%nat ->
  isinstance_list h (VRef a) = false -> isinstance_dict h (VRef a) = false -> False.
Proof.
  intros _ Ha. simpl. destruct (lookup_lt_is_Some_2 h a Ha) as [[|] ->]; done.
Qed.

Lemma isinstance_list_ref h v :
  isinstance_list h v = true -> exists a, v = VRef a.
Proof. destruct v; try done. eauto. Qed.

Lemma isinstance_dict_ref h v :
  isinstance_dict h v = true -> exists a, v = VRef a.
Proof. destruct v; try done. eauto. Qed.

(** [_process_recursive] changes the store only by putting objects of the
    renderer in the place of lists and dictionaries under ['to_world'], it
    does so only in the dictionaries it reaches, and when it returns it
    has done so in every one of them. *)
Lemma process_recursive_processes d : forall v h,
  no_dangling h -> val_below (length h) v ->
  (forall l, visited h v l -> S l) ->
  updates (_process_recursive mi d v) h (fun _ h' => processed h' v).
Proof.
  induction d as [|d IH]; intros v h Hg Hv HS; simpl.
  - apply holds_raise; [apply _|done].
  - eapply holds_bind'; [apply _|apply reads_get_store; [apply _|done..]|].
    intros ? ? _ _ [-> ->].
    destruct v as [| | | | | | |l];
      try (apply holds_ret; [apply _|done|by apply processed_atom]).
    pose proof Hv as Hvl. apply val_below_ref in Hv.
    destruct (h !! l) as [[items|items]|] eqn:El.
    + eapply holds_bind' with
        (P := fun _ h1 => forall items1 a,
                h1 !! l = Some (ODict items1) ->
                dict_lookup "to_world" items1 <> Some (VRef a)); [apply _| |].
      * destruct (dict_lookup "to_world" items) as [tw|] eqn:Etw.
        2: { apply holds_ret; [apply _|done|].
             intros items1 a. rewrite El. intros [= <-]. by rewrite Etw. }
        assert (val_below (length h) tw) as Htw
          by (eapply no_dangling_entry; eauto using dict_lookup_elem).
        destruct (isinstance_list h tw) eqn:Elist;
          [|destruct (isinstance_dict h tw) eqn:Edict].
        -- destruct (isinstance_list_ref _ _ Elist) as [a ->].
           eapply holds_bind'; [apply _|apply reads_py_first; [apply _|done..]|].
           intros first ? _ _ [-> _].
           eapply holds_bind'; [apply _|apply reads_get_store; [apply _|done..]|].
           intros ? ? _ _ [-> ->].
           eapply holds_bind' with (P := fun _ h1 => h1 = h); [apply _| |].
           { destruct (isinstance_list h first); [apply reads_call; [apply _|done..]|].
             eapply holds_bind'; [apply _|apply reads_call; [apply _|done..]|].
             intros ? ? _ _ ->. apply reads_lift; [apply _|done..]. }
           intros ? ? _ _ ->.
           eapply holds_bind'; [apply _|apply reads_lift; [apply _|done..]|].
           intros t ? _ _ ->.
           eapply updates_py_setitem; [done..|]. apply HS. constructor.
        -- destruct (isinstance_dict_ref _ _ Edict) as [a ->].
           eapply holds_bind';
             [apply _|by apply grows_updates, build_transform_grows|].
           intros t h1 _ Hg1 [Hp _].
           eapply updates_py_setitem; [done| |done|].
           ++ by eapply prefix_lookup_Some.
           ++ apply HS. constructor.
        -- apply holds_ret; [apply _|done|].
           intros items1 a. rewrite El. intros [= <-]. rewrite Etw.
           intros [= ->]. apply val_below_ref in Htw.
           by eapply is_container_ref.
      * intros [] h1 HR1 Hg1 HP1.
        eapply holds_bind'; [apply _|apply reads_get_store; [apply _|done..]|].
        intros ? ? _ _ [-> ->].
        destruct (proj2 (proj1 HR1) _ _ El) as (o1 & El1 & Hupd1).
        apply obj_upd_dict in Hupd1 as (items' & -> & Hback & _).
        rewrite El1.
        assert (forall k x s1 l0, (k, x) ∈ items' -> k <> "to_world" ->
                  upd_in S h1 s1 -> visited s1 x l0 -> S l0) as Hsub.
        { intros k x s1 l0 Hin Hne HRa Hvis.
          pose proof (Hback _ _ Hne Hin) as Hin0.
          apply HS. eapply visited_entry; [done..|].
          eapply (visited_upd_back h s1); [done| |by eapply no_dangling_entry|done].
          apply proj1 in HR1, HRa. by etrans. }
        eapply holds_mono.
        { apply holds_for_each_all with
            (Q := fun kv s => kv.1 <> "to_world" -> processed s kv.2);
            [apply _| |done|].
          - intros [k x] s1 s2 Hin HRa Hga HRb HQ Hne. simpl in *.
            eapply processed_upd; [done|by apply HRb| |by apply HQ].
            eapply val_below_mono; [by eapply (no_dangling_entry h1)|].
            by apply upd_length, HRa.
          - intros [k x] s1 Hin HRa Hga. simpl.
            destruct (String.eqb k "to_world") eqn:Ek.
            + apply holds_ret; [apply _|done|].
              intros Hne. by apply String.eqb_eq in Ek.
            + eapply holds_mono; [apply IH; [done| |]|by intros].
              * eapply val_below_mono; [by eapply (no_dangling_entry h1)|].
                by apply upd_length, HRa.
              * intros l0. apply (Hsub k x s1 l0 Hin); [|done].
                intros ->. by rewrite String.eqb_refl in Ek. }
        intros [] h2 HR2 Hg2 HQ x itemsx a Hvis Hx Hlk. simpl in HQ.
        destruct (proj2 (proj1 HR2) _ _ El1) as (o2 & El2 & Hupd2).
        apply obj_upd_dict in Hupd2 as (items2 & -> & Hsub2 & Hsame).
        inversion Hvis as [|? its ? ? Hl0|? its k v0 ? Hl0 Hin Hne Hv0]; subst.
        -- rewrite El2 in Hx. injection Hx as <-.
           rewrite (Hsame _ Hlk) in Hlk. by eapply HP1.
        -- by rewrite El2 in Hl0.
        -- rewrite El2 in Hl0. injection Hl0 as <-.
           rewrite Forall_forall in HQ.
           by eapply (HQ (k, v0) (Hsub2 _ _ Hne Hin)).
    + eapply holds_mono.
      { apply holds_for_each_all with (Q := fun x s => processed s x);
          [apply _| |done|].
        - intros x s1 s2 Hin HRa Hga HRb HQ.
          eapply processed_upd; [done|by apply HRb| |done].
          eapply val_below_mono; [by eapply (no_dangling_item h)|].
          by apply upd_length, HRa.
        - intros x s1 Hin HRa Hga. apply IH; [done| |].
          + eapply val_below_mono; [by eapply (no_dangling_item h)|].
            by apply upd_length, HRa.
          + intros l0 Hvis. apply HS. eapply visited_item; [done..|].
            eapply (visited_upd_back h s1);
              [done|by apply HRa|by eapply no_dangling_item|done]. }
      intros [] h2 HR2 Hg2 HQ x itemsx a Hvis Hx Hlk. simpl in HQ.
      destruct (proj2 (proj1 HR2) _ _ El) as (o2 & El2 & Hupd2).
      apply obj_upd_list in Hupd2 as ->.
      inversion Hvis as [|? its ? ? Hl0 Hin Hv0|? its k v0 ? Hl0]; subst.
      -- by rewrite El2 in Hx.
      -- rewrite El2 in Hl0. injection Hl0 as <-.
         rewrite Forall_forall in HQ. by eapply (HQ _ Hin).
      -- by rewrite El2 in Hl0.
    + apply holds_raise; [apply _|done].
Qed.

End Update.

(** ** The copy after the processing *)

Lemma dict_lookup_NoDup k v items :
  NoDup items.*1 -> (k, v) ∈ items -> dict_lookup k items = Some v.
Proof.
  induction items as [|[k' x] items IH]; simpl; [by intros _ ?%elem_of_nil|].
  intros [Hk Hnd]%NoDup_cons [[= -> ->]|Hin]%elem_of_cons.
  - by rewrite String.eqb_refl.
  - destruct (String.eqb k' k) eqn:E; [|by apply IH].
    apply String.eqb_eq in E as ->. destruct Hk.
    apply list_elem_of_fmap. by exists (k, v).
Qed.

Lemma dict_set_elem_other key v items k x :
  k <> key -> (k, x) ∈ items -> (k, x) ∈ dict_set key v items.
Proof.
  intros Hne. induction items as [|[k' x'] items IH]; simpl;
    [by intros ?%elem_of_nil|].
  destruct (String.eqb k' key) eqn:E.
  - apply String.eqb_eq in E as ->.
    intros [[= -> ->]|Hin]%elem_of_cons; [done|by right].
  - intros [->|Hin]%elem_of_cons; [by left|right; by apply IH].
Qed.

Lemma dict_set_keys key v items :
  is_Some (dict_lookup key items) -> (dict_set key v items).*1 = items.*1.
Proof.
  induction items as [|[k x] items IH]; simpl; [by intros [? ?]|].
  destruct (String.eqb k key) eqn:E; simpl; [done|].
  intros H. f_equal. by apply IH.
Qed.

Lemma rename_ref_inv m v a' : rename m v = VRef a' -> exists a, v = VRef a.
Proof. destruct v; try done. eauto. Qed.

Lemma is_container_true h v :
  is_container h v = true -> exists a, v = VRef a /\ (a < length h)%nat.
Proof.
  unfold is_container. destruct v as [| | | | | | |a]; try done. simpl.
  destruct (h !! a) eqn:E; [|done]. intros _. exists a. split; [done|].
  by apply lookup_lt_Some in E.
Qed.

Lemma is_container_below h a : (a < length h)%nat -> is_container h (VRef a) = true.
Proof.
  intros Ha. unfold is_container. simpl.
  by destruct (lookup_lt_is_Some_2 h a Ha) as [[|] ->].
Qed.

Section Result.

Variables (h0 h1 h2 : heap) (m : gmap nat nat) (S : nat -> Prop).
Hypothesis Hok : store_ok h0.
Hypothesis Hm : forall a a', m !! a = Some a' -> (a < length h0)%nat.
Hypothesis Hcopied : forall a a', m !! a = Some a' -> copied h0 m h1 a a'.
Hypothesis Hupd : upd_in S h1 h2.

(** What the processing reaches in the copy includes the copy of what it
    would reach in the original. *)
Lemma visited_copy x l :
  visited h0 x l -> val_in m x ->
  exists l', m !! l = Some l' /\ visited h2 (rename m x) l'.
Proof.
  induction 1 as [l|l0 items v l Hl0 Hin Hvis IH|l0 items k v l Hl0 Hin Hne Hvis IH];
    intros [l0' Hl0']%val_in_ref; simpl; rewrite Hl0'; simpl.
  - exists l0'. split; [done|constructor].
  - destruct (Hcopied _ _ Hl0') as (o & Ho & Ho1 & Hvals).
    rewrite Hl0 in Ho. injection Ho as <-.
    destruct (proj2 (proj1 Hupd) _ _ Ho1) as (o2 & Ho2 & Hu).
    apply obj_upd_list in Hu as ->.
    destruct IH as (l' & Hl' & Hv').
    { simpl in Hvals. rewrite Forall_forall in Hvals. by apply Hvals. }
    exists l'. split; [done|].
    eapply visited_item; [done| |done]. apply list_elem_of_fmap. by exists v.
  - destruct (Hcopied _ _ Hl0') as (o & Ho & Ho1 & Hvals).
    rewrite Hl0 in Ho. injection Ho as <-.
    destruct (proj2 (proj1 Hupd) _ _ Ho1) as (o2 & Ho2 & Hu).
    destruct IH as (l' & Hl' & Hv').
    { simpl in Hvals. rewrite Forall_forall in Hvals. apply Hvals.
      apply list_elem_of_fmap. by exists (k, v). }
    exists l'. split; [done|].
    assert ((k, rename m v) ∈ map (fun kv : string * val => (kv.1, rename m kv.2)) items)
      as Hin'.
    { apply list_elem_of_fmap. by exists (k, v). }
    destruct Hu as [->|(items0 & a & t & [= <-] & Hlk & ->)].
    + by eapply visited_entry.
    + eapply visited_entry; [done| |done..]. by apply dict_set_elem_other.
Qed.

(** ... and, before the processing, nothing else. *)
Lemma visited_back v' l' :
  visited h1 v' l' ->
  forall x, v' = rename m x -> val_in m x ->
  exists l, m !! l = Some l' /\ visited h0 x l.
Proof.
  induction 1 as [l'|l0' items' v' l' Hl0 Hin Hvis IH
                  |l0' items' k v' l' Hl0 Hin Hne Hvis IH];
    intros x Hx Hinx; symmetry in Hx;
    destruct (rename_ref_inv _ _ _ Hx) as [a ->];
    apply val_in_ref in Hinx as [a' Ha]; simpl in Hx; rewrite Ha in Hx;
    simpl in Hx; injection Hx as ->.
  - exists a. split; [done|constructor].
  - destruct (Hcopied _ _ Ha) as (o & Ho & Ho1 & Hvals).
    rewrite Hl0 in Ho1. destruct o as [items|items]; [done|].
    injection Ho1 as ->. apply list_elem_of_fmap in Hin as (v & -> & Hin).
    destruct (IH v eq_refl) as (l & Hl & Hv).
    { simpl in Hvals. rewrite Forall_forall in Hvals. by apply Hvals. }
    exists l. split; [done|]. by eapply visited_item.
  - destruct (Hcopied _ _ Ha) as (o & Ho & Ho1 & Hvals).
    rewrite Hl0 in Ho1. destruct o as [items|items]; [|done].
    injection Ho1 as ->. apply list_elem_of_fmap in Hin as ([k0 v] & [= -> ->] & Hin).
    destruct (IH v eq_refl) as (l & Hl & Hv).
    { simpl in Hvals. rewrite Forall_forall in Hvals. apply Hvals.
      apply list_elem_of_fmap. by exists (k0, v). }
    exists l. split; [done|]. by eapply visited_entry.
Qed.

(** Every object the argument leads to has a copy. *)
Lemma reachable_in x l : reachable h0 x l -> val_in m x -> is_Some (m !! l).
Proof.
  induction 1 as [v l Hl|v l0 o x l Hl0 Ho Hx Hr IH]; intros Hv;
    unfold val_in in Hv; rewrite Forall_forall in Hv.
  - by apply Hv.
  - destruct (Hv _ Hl0) as [l0' Hl0'].
    destruct (Hcopied _ _ Hl0') as (o' & Ho' & _ & Hvals).
    rewrite Ho in Ho'. injection Ho' as <-.
    apply IH. rewrite Forall_forall in Hvals. by apply Hvals.
Qed.

(** An object of the original and its copy after the processing. *)
Lemma object_copied_after (reached : Prop) a a' o :
  m !! a = Some a' -> h0 !! a = Some o ->
  (reached -> forall items v,
     h2 !! a' = Some (ODict items) -> dict_lookup "to_world" items <> Some (VRef v)) ->
  (S a' -> reached) ->
  exists o', h2 !! a' = Some o' /\ object_copied h0 m reached o o'.
Proof.
  intros Ha Ho Hdone Hreached.
  destruct (Hcopied _ _ Ha) as (o0 & Ho0 & Ho1 & Hvals).
  rewrite Ho in Ho0. injection Ho0 as <-.
  destruct (proj2 (proj1 Hupd) _ _ Ho1) as (o2 & Ho2 & Hu).
  exists o2. split; [done|].
  destruct o as [items|items]; simpl in *.
  2: { by apply obj_upd_list in Hu. }
  assert (NoDup items.*1) as Hnd by by apply (proj1 Hok a).
  set (items1 := map (fun kv : string * val => (kv.1, rename m kv.2)) items) in *.
  assert (o2 = ODict items1 \/
          reached /\ exists v t, dict_lookup "to_world" items1 = Some (VRef v) /\
                                 o2 = ODict (dict_set "to_world" (VObject t) items1))
    as Hu'.
  { destruct (proj2 Hupd _ _ Ho1) as [Hsame|HS].
    - left. congruence.
    - destruct Hu as [->|(items0 & v & t & [= <-] & Hlk & ->)]; [by left|].
      right. split; [by apply Hreached|]. by exists v, t. }
  clear Hu.
  assert (exists items2, o2 = ODict items2 /\ items2.*1 = items.*1 /\
            Forall2 (fun e e' : string * val =>
                       e'.1 = e.1 /\
                       (e'.2 = rename m e.2 \/
                        reached /\ e.1 = "to_world" /\ is_container h0 e.2 = true /\
                        exists t, e'.2 = VObject t)) items items2)
    as (items2 & -> & Hkeys & Hall).
  { assert (Forall2 (fun e e' : string * val =>
                       e'.1 = e.1 /\ e'.2 = rename m e.2) items items1) as Hsame.
    { subst items1. clear. induction items as [|e items IH]; simpl; by constructor. }
    assert (items1.*1 = items.*1) as Hk1.
    { subst items1. rewrite <- list_fmap_compose. by apply list_fmap_ext. }
    destruct Hu' as [->|(Hr & v & t & Hlk & ->)].
    - exists items1. split; [done|]. split; [done|].
      eapply Forall2_impl; [exact Hsame|]. intros e e' [? ?]. auto.
    - eexists. split; [done|]. split.
      { by rewrite dict_set_keys. }
      clear Hk1 Ho Ho1 Ho2 Hdone Hnd. revert Hlk Hvals Hsame. generalize items1.
      clear items1. intros items1 Hlk Hvals Hsame.
      induction Hsame as [|[k x] [k1 x1] items items1 [Hk Hx] Hsame IH];
        simpl in *; [done|]. subst k1 x1.
      apply Forall_cons in Hvals as [Hx Hvals].
      destruct (String.eqb k "to_world") eqn:Ek.
      + apply String.eqb_eq in Ek as ->. injection Hlk as Hlk.
        constructor.
        * simpl. split; [done|]. right. split; [done|]. split; [done|].
          split; [|by eexists].
          apply rename_ref_inv in Hlk as [a0 ->].
          apply val_in_ref in Hx as [a0' Ha0]. apply is_container_below.
          by eapply Hm.
        * eapply Forall2_impl; [exact Hsame|]. intros e e' [? ?]. auto.
      + constructor; [simpl; auto|]. by apply IH. }
  exists items2. split; [done|].
  apply Forall2_same_length_lookup. apply Forall2_same_length_lookup in Hall as [Hlen Hall].
  split; [done|]. intros i e e' He He'.
  destruct (Hall i e e' He He') as [Hk Hv]. split; [done|]. split.
  - intros Hr Hkey Hc. destruct Hv as [Hv|(_ & _ & _ & Hv)]; [|done].
    apply is_container_true in Hc as (a0 & Hc & _).
    destruct e as [k v], e' as [k' v']. simpl in *. subst k k' v v'. simpl in *.
    destruct (Hdone Hr items2 (default a0 (m !! a0)) Ho2).
    apply dict_lookup_NoDup; [by rewrite Hkeys|].
    by eapply list_elem_of_lookup_2.
  - intros Hnot. destruct Hv as [Hv|(Hr & Hkey & Hc & _)]; [done|].
    by destruct Hnot.
Qed.

End Result.

Lemma rename_below m n v :
  (forall a a', m !! a = Some a' -> (a' < n)%nat) ->
  val_in m v -> val_below n (rename m v).
Proof.
  intros Hm. induction v as [| | | | |items IH| |l] using val_ind_items;
    try (intros _; by apply val_below_atom).
  - intros Hin%val_in_tuple. simpl. apply val_below_tuple.
    induction IH as [|v items Hv _ IHitems]; [constructor|].
    apply Forall_cons in Hin as [Hin Hitems]. simpl. constructor; auto.
  - intros [l' Hl]%val_in_ref. simpl. rewrite Hl. simpl.
    apply val_below_ref. by eapply Hm.
Qed.

Lemma copy_inv_start h : copy_inv h (∅, h).
Proof.
  split; [done|]. split; [done|]. split; [|split]; simpl.
  - intros l l'. by rewrite lookup_empty.
  - intros l1 l2 l'. by rewrite lookup_empty.
  - intros l' Hl. lia.
Qed.

(** [copy.deepcopy] of a value of a well-formed store: the result is the
    value redirected through a one-to-one map [m] from the objects it holds
    to new objects, each the copy of its original, and the store is
    well-formed again. *)
Lemma copy_deepcopy_copies d x h y h1 :
  store_ok h -> val_below (length h) x ->
  copy_deepcopy d x h = (Ok y, h1) ->
  exists m : gmap nat nat,
    y = rename m x /\ val_in m x /\
    (forall a a', m !! a = Some a' ->
       (a < length h)%nat /\ (length h <= a' < length h1)%nat /\ copied h m h1 a a') /\
    (forall a1 a2 a', m !! a1 = Some a' -> m !! a2 = Some a' -> a1 = a2) /\
    no_dangling h1 /\ val_below (length h1) y.
Proof.
  intros Hok Hx E. unfold copy_deepcopy in E.
  destruct (deepcopy d x (∅, h)) as [r [m h1']] eqn:Ed. injection E as -> ->.
  destruct (deepcopy_copies h Hok d x _ _ _ Ed (copy_inv_start h) Hx)
    as (Hinv & _ & _ & Hy & Hin & Hnew). simpl in *.
  destruct Hinv as (I1 & I2 & I3 & I4 & I5). simpl in *.
  assert (forall a a', m !! a = Some a' -> (a' < length h1)%nat) as Hlt.
  { intros a a' Ha. destruct (I3 _ _ Ha). lia. }
  exists m. split; [done|]. split; [done|]. split; [|split; [done|split]].
  - intros a a' Ha. destruct (I3 _ _ Ha) as [? ?]. split; [done|]. split; [done|].
    by apply Hnew.
  - intros l o Hl. destruct (decide (l < length h)%nat) as [Hlh|Hlh].
    + rewrite I1 in Hl by done.
      eapply Forall_below_mono; [by apply (proj2 Hok l)|done].
    + destruct (I5 l) as [a Ha].
      { apply lookup_lt_Some in Hl. lia. }
      destruct (Hnew _ _ Ha (lookup_empty _)) as (o0 & _ & Ho & Hvals).
      rewrite Hl in Ho. injection Ho as ->.
      assert (obj_vals (rename_obj m o0) = map (rename m) (obj_vals o0)) as ->.
      { destruct o0 as [items|items]; simpl; [|done].
        rewrite <- !list_fmap_compose. by apply list_fmap_ext. }
      apply Forall_fmap. eapply Forall_impl; [exact Hvals|].
      intros v Hv. by apply rename_below.
  - subst y. by apply rename_below.
Qed.

(** C9, as amended.  [preprocess_transforms] changes no object of the store
    it is called in, whether it returns or raises.  When it returns, for a
    well-formed store, there is a one-to-one map [m] from the lists and
    dictionaries that the argument leads to (by any way, tuples and
    ['to_world'] included) to objects made by the call, and the result is
    the argument redirected through [m].  The object made for a list has
    the items of the list, redirected.  The object made for a dictionary
    has its entries, same keys in the same order, with the values
    redirected, but for one case: where the processing reaches the
    dictionary (through items of lists and values of dictionaries under
    other keys than ['to_world'], not through tuples) and its ['to_world']
    is a list or a dictionary, the value there is an object of the
    renderer. *)
Theorem preprocess_transforms_copies mi d x h :
  store_ok h -> val_below (length h) x ->
  h `prefix_of` (preprocess_transforms mi d x h).2 /\
  forall r h',
    preprocess_transforms mi d x h = (Ok r, h') ->
    exists m : gmap nat nat,
      r = rename m x /\
      (forall l1 l2 l', m !! l1 = Some l' -> m !! l2 = Some l' -> l1 = l2) /\
      (forall l, reachable h x l -> is_Some (m !! l)) /\
      (forall l l', m !! l = Some l' ->
         (length h <= l')%nat /\
         exists o o', h !! l = Some o /\ h' !! l' = Some o' /\
                      object_copied h m (visited h x l) o o').
Proof.
  intros Hok Hx. split; [apply preprocess_transforms_prefix|].
  intros r h' E. unfold preprocess_transforms in E.
  apply bind_eq in E as [(y & h1 & E1 & E)|(? & _ & ?)]; [|done].
  apply bind_eq in E as [([] & h2 & E2 & E)|(? & _ & ?)]; [|done].
  injection E as <- <-.
  destruct (copy_deepcopy_copies _ _ _ _ _ Hok Hx E1)
    as (m & -> & Hin & Hm & Hinj & Hnd & Hy).
  destruct (process_recursive_processes mi (visited h1 (rename m x)) d _ _ Hnd Hy
              (fun l H => H) _ _ E2) as (Hupd & _ & Hproc).
  specialize (Hproc tt eq_refl).
  assert (forall a a', m !! a = Some a' -> (a < length h)%nat) as Hdom
    by (intros a a' Ha; by destruct (Hm _ _ Ha)).
  assert (forall a a', m !! a = Some a' -> copied h m h1 a a') as Hcopied
    by (intros a a' Ha; by destruct (Hm _ _ Ha) as (_ & _ & ?)).
  exists m. split; [done|]. split; [done|]. split.
  - intros l Hr. by eapply reachable_in.
  - intros l l' Hl. destruct (Hm _ _ Hl) as (_ & [Hge _] & (o & Ho & _)).
    split; [done|]. exists o.
    destruct (object_copied_after h h1 h2 m _ Hok Hdom Hcopied Hupd
                (visited h x l) l l' o Hl Ho) as (o' & Ho' & Hc); [| |by eauto].
    + intros Hvis items v Hd.
      destruct (visited_copy h h1 h2 m _ Hcopied Hupd x l Hvis Hin)
        as (l'' & Hl'' & Hvis').
      rewrite Hl in Hl''. injection Hl'' as <-.
      by apply (Hproc l' items v).
    + intros HS.
      destruct (visited_back h h1 m Hcopied _ _ HS x eq_refl Hin) as (l2 & Hl2 & Hvis).
      by rewrite (Hinj l l2 l' Hl Hl2).
Qed.

Lemma demo_pickled_ok : store_ok demo_pickled.1.
Proof.
  split.
  - intros l items Hl.
    do 6 (destruct l as [|l]; [injection Hl as <- || discriminate Hl;
                               simpl; apply (bool_decide_unpack _); by vm_compute|]).
    done.
  - intros l o Hl.
    do 6 (destruct l as [|l]; [injection Hl as <-;
                               repeat constructor; simpl; lia|]).
    done.
Qed.

Lemma preprocess_transforms_copies_witness :
  demo_pickled.1 `prefix_of` (preprocess_transforms demo_mi 20 (VRef 3) demo_pickled.1).2 /\
  exists r h',
    preprocess_transforms demo_mi 20 (VRef 3) demo_pickled.1 = (Ok r, h') /\
    exists m : gmap nat nat,
      r = rename m (VRef 3) /\
      (forall l1 l2 l', m !! l1 = Some l' -> m !! l2 = Some l' -> l1 = l2) /\
      (forall l, reachable demo_pickled.1 (VRef 3) l -> is_Some (m !! l)) /\
      (forall l l', m !! l = Some l' ->
         (length demo_pickled.1 <= l')%nat /\
         exists o o', demo_pickled.1 !! l = Some o /\ h' !! l' = Some o' /\
                      object_copied demo_pickled.1 m
                        (visited demo_pickled.1 (VRef 3) l) o o').
Proof.
  destruct (preprocess_transforms_copies demo_mi 20 (VRef 3) demo_pickled.1)
    as [Hpre Hcopy].
  - exact demo_pickled_ok.
  - apply val_below_ref. simpl. lia.
  - split; [exact Hpre|]. eexists _, _. split; [vm_compute; reflexivity|].
    apply Hcopy. vm_compute. reflexivity.
Defined.

Lemma tuple_scene_ok : store_ok tuple_scene.
Proof.
  split.
  - intros l items Hl.
    do 4 (destruct l as [|l]; [injection Hl as <- || discriminate Hl;
                               simpl; apply (bool_decide_unpack _); by vm_compute|]).
    done.
  - intros l o Hl.
    do 4 (destruct l as [|l]; [injection Hl as <-;
                               repeat constructor; simpl; lia|]).
    done.
Qed.

(** C9 as stated fails where a dictionary is held in a tuple: the call
    returns the copy of the scene (object 4), whose ['shapes'] tuple holds
    the copy of the sphere (object 5), and that still has a dictionary under
    ['to_world'] (object 6, the copy of the ['translate'] dictionary): no
    transform was built, because [_process_recursive] enters dictionaries and
    lists only. *)
Lemma preprocess_transforms_skips_tuples :
  let h' :=
    tuple_scene ++
    [ ODict [("type", VStr "scene"); ("shapes", VTuple [VRef 5])];
      ODict [("type", VStr "sphere"); ("to_world", VRef 6)];
      ODict [("type", VStr "translate"); ("value", VRef 7)];
      OList [VInt 1; VInt 0; VInt 0] ] in
  store_ok tuple_scene /\
  preprocess_transforms demo_mi 8 (VRef 3) tuple_scene = (Ok (VRef 4), h') /\
  ~ exists m : gmap nat nat,
      VRef 4 = rename m (VRef 3) /\
      forall l l', m !! l = Some l' ->
        exists o o', tuple_scene !! l = Some o /\ h' !! l' = Some o' /\
                     object_copied tuple_scene m True o o'.
Proof.
  intros h'. split; [exact tuple_scene_ok|]. split; [by vm_compute|].
  intros (m & Hr & Hall). simpl in Hr.
  destruct (m !! 3%nat) as [l3|] eqn:E3; simpl in Hr; [|done].
  injection Hr as <-.
  destruct (Hall _ _ E3) as (o & o' & [= <-] & [= <-] & (items' & [= <-] & HF)).
  apply Forall2_cons in HF as [_ HF]. apply Forall2_cons in HF as [(_ & _ & Hv) _].
  simpl in Hv. specialize (Hv ltac:(by intros (_ & [=] & _))).
  destruct (m !! 2%nat) as [l2|] eqn:E2; simpl in Hv; [|done].
  injection Hv as <-.
  destruct (Hall _ _ E2) as (o & o' & [= <-] & [= <-] & (items' & [= <-] & HF)).
  apply Forall2_cons in HF as [_ HF]. apply Forall2_cons in HF as [(_ & Hv & _) _].
  by destruct (Hv I eq_refl eq_refl) as [t ?].
Qed.

(** * Further properties of the code *)

(** ** [strip_ansi_codes] *)

Lemma ansi_sub_sublist : forall s skip, sublist (ansi_sub skip s) s.
Proof.
  induction s as [|c s IH]; intros skip; cbn [ansi_sub]; [constructor|].
  destruct skip as [|k]; [|apply sublist_cons, IH].
  destruct (ansi_escape_match (c :: s)); [apply sublist_cons, IH|apply sublist_skip, IH].
Qed.

Lemma ansi_escape_match_plain c s : c <> 27%N -> ansi_escape_match (c :: s) = None.
Proof.
  intros Hc. unfold ansi_escape_match.
  destruct c as [|p]; [done|]. destruct s; repeat (destruct p as [p|p|]; try done).
Qed.

Lemma ansi_sub_plain s : 27%N ∉ s -> ansi_sub O s = s.
Proof.
  induction s as [|c s IH]; [done|].
  intros [Hc Hs]%not_elem_of_cons.
  cbn [ansi_sub]. rewrite ansi_escape_match_plain by done. by rewrite IH.
Qed.

(** X1: [strip_ansi_codes] only deletes characters: what it returns is a
    subsequence of the text; and a text without the escape character
    (U+001B) is returned as it is. *)
Theorem strip_ansi_codes_only_deletes text :
  sublist (strip_ansi_codes text) text /\
  (27%N ∉ text -> strip_ansi_codes text = text).
Proof. split; [apply ansi_sub_sublist|apply ansi_sub_plain]. Qed.

Lemma span_len_all p (a : pystr) c rest :
  Forall (fun x => p x = true) a -> p c = false ->
  span_len p (a ++ c :: rest) = length a.
Proof.
  intros Ha Hc. induction Ha as [|x a Hx _ IH]; simpl; [by rewrite Hc|].
  by rewrite Hx, IH.
Qed.

Lemma ansi_sub_skip : forall s k, ansi_sub k s = ansi_sub O (drop k s).
Proof.
  induction s as [|c s IH]; intros [|k]; try done. simpl. apply IH.
Qed.

Lemma in_range_disjoint lo hi lo' hi' c :
  (hi < lo')%N -> in_range lo' hi' c = true -> in_range lo hi c = false.
Proof.
  unfold in_range. intros Hlt [H1 H2]%andb_true_iff.
  apply N.leb_le in H1. apply andb_false_iff. right. apply N.leb_gt. lia.
Qed.

(** X2: a control sequence (ESC, ['['], parameter bytes [0-?], intermediate
    bytes [ -/], a final byte [@-~]), such as the colour codes of a
    terminal, is removed whole, and the text after it is treated on its
    own. *)
Theorem strip_ansi_codes_removes_csi params inter final rest :
  Forall (fun c => in_range 48 63 c = true) params ->
  Forall (fun c => in_range 32 47 c = true) inter ->
  in_range 64 126 final = true ->
  strip_ansi_codes (27 :: 91 :: params ++ inter ++ final :: rest)%N
  = strip_ansi_codes rest.
Proof.
  intros Hp Hi Hf. unfold strip_ansi_codes.
  cbn [ansi_sub ansi_escape_match in_range N.leb N.compare Pos.compare
       Pos.compare_cont andb orb N.eqb Pos.eqb].
  assert (span_len (in_range 48 63) (params ++ inter ++ final :: rest)
          = length params) as ->.
  { destruct inter as [|i inter]; simpl.
    - apply span_len_all; [done|]. by apply (in_range_disjoint _ _ 64 126); [lia|].
    - apply span_len_all; [done|]. apply Forall_cons in Hi as [Hi _].
      unfold in_range in *. apply andb_true_iff in Hi as [H1 H2].
      apply N.leb_le in H1, H2. apply andb_false_iff. left. apply N.leb_gt. lia. }
  rewrite drop_app_length.
  rewrite (span_len_all _ inter final rest Hi)
    by (by apply (in_range_disjoint _ _ 64 126); [lia|]).
  rewrite drop_app_length. rewrite Hf.
  etrans; [apply ansi_sub_skip|]. f_equal.
  lazymatch goal with
  | |- drop ?n _ = _ => change n with (S (length params + length inter))
  end.
  replace (S (length params + length inter))
    with (length (params ++ inter) + 1)%nat by (rewrite length_app; lia).
  by rewrite <- drop_drop, app_assoc, drop_app_length.
Qed.

Lemma strip_ansi_codes_removes_csi_witness :
  strip_ansi_codes ([27; 91; 49; 59; 51; 49; 109] ++ cp "LOG:ok")%N
  = strip_ansi_codes (cp "LOG:ok").
Proof.
  apply (strip_ansi_codes_removes_csi [49; 59; 51; 49]%N [] 109%N (cp "LOG:ok")).
  - repeat constructor.
  - constructor.
  - reflexivity.
Defined.

(** ** The parent side: what [_on_stdout] and [render_scene] leave alone *)

Section Parent.

Context {blob : Type}.
Implicit Types (w : world blob) (env : parent_env blob).

Lemma on_stdout_line_frame env w line :
  let w' := on_stdout_line env w line in
  process w' = process w /\ temp_files w' = temp_files w /\
  files w' = files w /\ objects w' = objects w /\ output_dir w' = output_dir w /\
  exists new, signals w' = signals w ++ new /\ Forall is_output_signal new.
Proof.
  unfold on_stdout_line.
  assert (forall w0 : world blob,
            exists new, signals w0 = signals w0 ++ new /\ Forall is_output_signal new)
    as Hnone by (intros w0; exists []; by rewrite app_nil_r).
  repeat case_match; simpl; repeat (split; [done|]); try apply Hnone.
  - eexists [_]. by repeat constructor.
  - eexists [_]. by repeat constructor.
Qed.

(** X3: [_on_stdout] changes nothing of the renderer: the process, the list
    of temp files, the files on disk and the output directory are as before;
    it emits only [progress_updated] and [log_message], never
    [render_complete] or [render_failed]; and without a process it does
    nothing at all. *)
Theorem on_stdout_frame env chunk w :
  let w' := _on_stdout env chunk w in
  process w' = process w /\ temp_files w' = temp_files w /\
  files w' = files w /\ objects w' = objects w /\ output_dir w' = output_dir w /\
  (exists new, signals w' = signals w ++ new /\ Forall is_output_signal new) /\
  (process w = None -> w' = w).
Proof.
  unfold _on_stdout.
  destruct (process w) as [p|] eqn:Hp.
  2: { do 5 (split; [done|]). split; [|done]. exists []. by rewrite app_nil_r. }
  generalize (split 10 (strip (strip_ansi_codes chunk))). intros lines.
  cut (let w' := foldl (on_stdout_line env) w lines in
       process w' = process w /\ temp_files w' = temp_files w /\
       files w' = files w /\ objects w' = objects w /\ output_dir w' = output_dir w /\
       exists new, signals w' = signals w ++ new /\ Forall is_output_signal new).
  { simpl. intros (? & ? & ? & ? & ? & ?). split; [congruence|].
    do 4 (split; [done|]). split; [done|]. intros [=]. }
  clear Hp. revert w. induction lines as [|line lines IH]; intros w; simpl.
  - do 5 (split; [done|]). exists []. by rewrite app_nil_r.
  - destruct (on_stdout_line_frame env w line) as (E1 & E2 & E3 & E4 & E5 & n1 & E6 & F1).
    destruct (IH (on_stdout_line env w line)) as (D1 & D2 & D3 & D4 & D5 & n2 & D6 & F2).
    simpl in *.
    rewrite D1, D2, D3, D4, D5, D6, E1, E2, E3, E4, E5, E6.
    repeat (split; [done|]). exists (n1 ++ n2).
    split; [by rewrite app_assoc|by apply Forall_app].
Qed.

(** X4: when pickling the scene raises, [render_scene] reports the failure
    with [log_message] and [render_failed] carrying [str(e)], and starts no
    process; the temp file, already created, stays on disk, holding what
    [pickle.dump] had written before it raised, and is not entered in
    [temp_files], so that [cleanup] will not delete it. *)
Theorem render_scene_pickle_failure env w scene_dict params output_filename name e :
  running w = false ->
  first_unused (p_candidates env) (files w) = Ok name ->
  p_pickle_dump env (VRef (length (objects w)))
    (objects w ++ [ODict [("scene_dict", scene_dict); ("params", params)]]) = Raise e ->
  let w' := render_scene env scene_dict params output_filename w in
  files w'
  = <[name := p_pickle_partial env (VRef (length (objects w)))
                (objects w ++ [ODict [("scene_dict", scene_dict); ("params", params)]])]>
      (files w) /\
  temp_files w' = temp_files w /\
  process w' = process w /\
  signals w'
  = signals w ++ [log_message (cross_mark ++ cp " Failed to start render: " ++ exn_msg e);
                  render_failed (exn_msg e)].
Proof.
  intros Hrun Hname Hdump. unfold render_scene. rewrite Hrun.
  unfold render_scene_try, bind, NamedTemporaryFile. rewrite Hname.
  unfold on_objects, alloc, pickle_dump. simpl. rewrite Hdump. simpl.
  rewrite lookup_insert_eq, insert_insert_eq. simpl.
  by rewrite <- app_assoc.
Qed.

(** X5: when the child does not start within the 3000 ms of
    [waitForStarted], [render_scene] has written the scene file and entered
    it in [temp_files], it has announced the start, and it reports the
    failure with [log_message] and with [render_failed] carrying
    ["Failed to start render process"]. *)
Theorem render_scene_start_failure env w scene_dict params output_filename name b :
  running w = false ->
  first_unused (p_candidates env) (files w) = Ok name ->
  p_pickle_dump env (VRef (length (objects w)))
    (objects w ++ [ODict [("scene_dict", scene_dict); ("params", params)]]) = Ok b ->
  p_started env = false ->
  let w' := render_scene env scene_dict params output_filename w in
  files w' = <[name := [b]]> (files w) /\
  temp_files w' = temp_files w ++ [name] /\
  signals w'
  = signals w ++
    [log_message (rocket ++ cp " Starting render process...");
     log_message (cross_mark ++ cp " Failed to start render: "
                  ++ cp "Failed to start render process");
     render_failed (cp "Failed to start render process")].
Proof.
  intros Hrun Hname Hdump Hst. unfold render_scene. rewrite Hrun.
  unfold render_scene_try, bind, NamedTemporaryFile. rewrite Hname.
  unfold on_objects, alloc, pickle_dump. simpl. rewrite Hdump. simpl.
  rewrite Hst. simpl. rewrite lookup_insert_eq. simpl.
  split; [by rewrite insert_insert_eq|]. split; [done|].
  by rewrite <- !app_assoc.
Qed.

End Parent.

(** ** A progress line, from the child to the parent *)

Lemma cp_String a s : cp (String a s) = Ascii.N_of_ascii a :: cp s.
Proof. reflexivity. Qed.

Lemma pretty_N_char_digit x : is_digit_or_minus (Ascii.N_of_ascii (pretty_N_char x)) = true.
Proof. unfold pretty_N_char. by repeat case_match. Qed.

Lemma pretty_N_go_chars x : forall s,
  Forall (fun c => is_digit_or_minus c = true) (cp s) ->
  Forall (fun c => is_digit_or_minus c = true) (cp (pretty_N_go x s)).
Proof.
  induction (N.lt_wf_0 x) as [x _ IH]. intros s Hs.
  destruct (decide (x = 0)%N) as [->|Hx]; [by rewrite pretty_N_go_0|].
  rewrite pretty_N_go_step by lia. apply IH.
  - apply N.div_lt; lia.
  - rewrite cp_String. constructor; [apply pretty_N_char_digit|done].
Qed.

Lemma pretty_N_go_nonempty x : forall s, s <> EmptyString -> pretty_N_go x s <> EmptyString.
Proof.
  induction (N.lt_wf_0 x) as [x _ IH]. intros s Hs.
  destruct (decide (x = 0)%N) as [->|Hx]; [by rewrite pretty_N_go_0|].
  rewrite pretty_N_go_step by lia. apply IH; [apply N.div_lt; lia|done].
Qed.

Lemma pretty_N_chars (x : N) :
  Forall (fun c => is_digit_or_minus c = true) (cp (pretty x)) /\ cp (pretty x) <> [].
Proof.
  unfold pretty, pretty_N. destruct (decide (x = 0)%N) as [->|Hx].
  - split; [by repeat constructor|done].
  - split; [apply pretty_N_go_chars; constructor|].
    rewrite pretty_N_go_step by lia.
    pose proof (pretty_N_go_nonempty (x `div` 10)
                  (String (pretty_N_char (x `mod` 10)) "") ltac:(done)) as Hne.
    destruct (pretty_N_go _ _); done.
Qed.

Lemma str_of_int_chars (z : Z) :
  Forall (fun c => is_digit_or_minus c = true) (str_of_int z) /\ str_of_int z <> [].
Proof.
  unfold str_of_int, pretty, pretty_Z. destruct z as [|p|p].
  - split; [by repeat constructor|done].
  - apply (pretty_N_chars (Npos p)).
  - change (cp ("-" +:+ pretty p)) with (45%N :: cp (pretty (Npos p))).
    split; [|done]. constructor; [done|]. apply (pretty_N_chars (Npos p)).
Qed.

Lemma split_no_sep sep s : sep ∉ s -> split sep s = [s].
Proof.
  induction s as [|c s IH]; [done|].
  intros [Hc Hs]%not_elem_of_cons. simpl.
  destruct (c =? sep)%N eqn:E; [apply N.eqb_eq in E; congruence|].
  by rewrite IH.
Qed.

Lemma split_app_sep sep a b :
  sep ∉ a -> split sep (a ++ sep :: b) = a :: split sep b.
Proof.
  induction a as [|c a IH]; simpl.
  - intros _. by rewrite N.eqb_refl.
  - intros [Hc Ha]%not_elem_of_cons.
    destruct (c =? sep)%N eqn:E; [apply N.eqb_eq in E; congruence|].
    by rewrite IH.
Qed.

Lemma lstrip_nonspace c s : isspace c = false -> lstrip (c :: s) = c :: s.
Proof. intros H. simpl. by rewrite H. Qed.

Lemma rstrip_snoc_space s c : isspace c = true -> rstrip (s ++ [c]) = rstrip s.
Proof. intros H. unfold rstrip. rewrite rev_unit. simpl. by rewrite H. Qed.

Lemma rstrip_snoc_nonspace s c : isspace c = false -> rstrip (s ++ [c]) = s ++ [c].
Proof.
  intros H. unfold rstrip. rewrite rev_unit. simpl. rewrite H.
  simpl. by rewrite rev_involutive.
Qed.

Lemma digit_or_minus_facts c :
  is_digit_or_minus c = true ->
  isspace c = false /\ c <> 27%N /\ c <> 10%N /\ c <> 58%N.
Proof.
  unfold is_digit_or_minus, in_range, isspace.
  intros H. apply orb_true_iff in H as [[H1 H2]%andb_true_iff|H].
  - apply N.leb_le in H1, H2.
    assert (c = 48 \/ c = 49 \/ c = 50 \/ c = 51 \/ c = 52 \/ c = 53 \/ c = 54
            \/ c = 55 \/ c = 56 \/ c = 57)%N as Hc by lia.
    destruct Hc as [->|[->|[->|[->|[->|[->|[->|[->|[->| ->]]]]]]]]]; by vm_compute.
  - apply N.eqb_eq in H as ->. by vm_compute.
Qed.

Section ProgressLine.

Context {blob : Type}.
Implicit Types (w : world blob) (env : parent_env blob).

(** X6: a progress line as the child prints it is read back by the parent as
    the value the child gave: for every integer [z] that [int] reads back
    from its decimal text, [_on_stdout], given the line
    [PROGRESS:<z>] with its newline, emits [progress_updated z] and nothing
    else. *)
Theorem progress_line_round_trip env w p z :
  process w = Some p ->
  p_int env (str_of_int z) = Some z ->
  signals (_on_stdout env (progress_text z) w) = signals w ++ [progress_updated z].
Proof.
  intros Hp Hint. unfold _on_stdout. rewrite Hp.
  destruct (str_of_int_chars z) as [Hchars Hne].
  assert (forall c, c ∈ str_of_int z ->
            isspace c = false /\ c <> 27%N /\ c <> 10%N /\ c <> 58%N) as Hc.
  { intros c Hin. apply digit_or_minus_facts.
    rewrite Forall_forall in Hchars. by apply Hchars. }
  set (line := cp "PROGRESS:" ++ str_of_int z).
  assert (forall c, c ∈ line -> c <> 27%N /\ c <> 10%N) as Hline.
  { intros c [Hin|Hin]%elem_of_app.
    - unfold cp in Hin. simpl in Hin.
      repeat (apply elem_of_cons in Hin as [->|Hin]; [by split|]).
      by apply elem_of_nil in Hin.
    - by destruct (Hc c Hin) as (_ & ? & ? & _). }
  assert (strip_ansi_codes (progress_text z) = progress_text z) as ->.
  { apply ansi_sub_plain. unfold progress_text. rewrite app_assoc. fold line.
    intros [Hin|Hin]%elem_of_app.
    - by destruct (Hline _ Hin).
    - by apply list_elem_of_singleton in Hin. }
  assert (strip (progress_text z) = line) as ->.
  { unfold strip, progress_text.
    change (cp "PROGRESS:" ++ str_of_int z ++ [10%N])
      with (80%N :: (cp "ROGRESS:" ++ str_of_int z ++ [10%N])).
    rewrite lstrip_nonspace by done.
    change (80%N :: (cp "ROGRESS:" ++ str_of_int z ++ [10%N]))
      with (cp "PROGRESS:" ++ str_of_int z ++ [10%N]).
    rewrite app_assoc. fold line. rewrite rstrip_snoc_space by done.
    destruct (exists_last Hne) as (ds & d & Hd).
    unfold line. rewrite Hd, app_assoc.
    apply rstrip_snoc_nonspace. apply Hc. rewrite Hd.
    apply elem_of_app. right. by left. }
  rewrite split_no_sep.
  2: { intros Hin. by destruct (Hline _ Hin). }
  simpl. unfold on_stdout_line.
  assert (nonempty line = true) as -> by done.
  assert (startswith (cp "PROGRESS:") line = true) as -> by done.
  assert (split 58 line = [cp "PROGRESS"; str_of_int z]) as ->.
  { unfold line. change (cp "PROGRESS:") with (cp "PROGRESS" ++ [58%N]).
    rewrite <- app_assoc. simpl ([58%N] ++ _).
    rewrite split_app_sep.
    - f_equal. apply split_no_sep. intros Hin. by destruct (Hc _ Hin) as (_ & _ & _ & ?).
    - unfold cp. simpl. intros Hin.
      repeat (apply elem_of_cons in Hin as [Hin|Hin]; [done|]).
      by apply elem_of_nil in Hin. }
  simpl. by rewrite Hint.
Qed.

End ProgressLine.

Lemma progress_line_round_trip_witness :
  process (demo_world (blob := unit) (Some (demo_process Running)))
  = Some (demo_process Running) /\
  int_ascii (str_of_int 80) = Some 80 /\
  signals (_on_stdout (demo_parent_env (fun _ _ => Ok tt)) (progress_text 80)
             (demo_world (Some (demo_process Running))))
  = signals (demo_world (blob := unit) (Some (demo_process Running)))
    ++ [progress_updated 80].
Proof.
  split; [reflexivity|]. split; [by vm_compute|].
  apply (progress_line_round_trip (demo_parent_env (fun _ _ => Ok tt))
           (demo_world (Some (demo_process Running))) (demo_process Running) 80).
  - reflexivity.
  - by vm_compute.
Defined.

Lemma render_scene_pickle_failure_witness :
  let w := demo_world (blob := unit) None in
  let w' := render_scene demo_parent_env_unpicklable (VInt 1) (VInt 2) (cp "render.png") w in
  files w' = <[cp "/tmp/tmp1.pkl" := [tt]]> (files w) /\
  temp_files w' = temp_files w /\
  process w' = process w /\
  signals w'
  = signals w ++ [log_message (cross_mark ++ cp " Failed to start render: "
                               ++ cp "Can't pickle object");
                  render_failed (cp "Can't pickle object")].
Proof.
  intros w w'.
  apply (render_scene_pickle_failure demo_parent_env_unpicklable w (VInt 1) (VInt 2)
           (cp "render.png") (cp "/tmp/tmp1.pkl")
           (Exn "PicklingError" (cp "Can't pickle object"))).
  - reflexivity.
  - by vm_compute.
  - reflexivity.
Defined.

Lemma render_scene_start_failure_witness :
  let w := demo_world (blob := unit) None in
  let w' := render_scene demo_parent_env_stalled (VInt 1) (VInt 2) (cp "render.png") w in
  files w' = <[cp "/tmp/tmp1.pkl" := [tt]]> (files w) /\
  temp_files w' = temp_files w ++ [cp "/tmp/tmp1.pkl"] /\
  signals w'
  = signals w ++
    [log_message (rocket ++ cp " Starting render process...");
     log_message (cross_mark ++ cp " Failed to start render: "
                  ++ cp "Failed to start render process");
     render_failed (cp "Failed to start render process")].
Proof.
  intros w w'.
  apply (render_scene_start_failure demo_parent_env_stalled w (VInt 1) (VInt 2)
           (cp "render.png") (cp "/tmp/tmp1.pkl") tt).
  - reflexivity.
  - by vm_compute.
  - reflexivity.
  - reflexivity.
Defined.

(** ** The two preprocessings compared *)

Lemma bind_cong {S A B} (m : M S A) (k1 k2 : A -> M S B) s :
  (forall a s1, m s = (Ok a, s1) -> k1 a s1 = k2 a s1) -> bind m k1 s = bind m k2 s.
Proof. intros H. unfold bind. destruct (m s) as [[a|e] s1]; auto. Qed.

Lemma bind_cong_l {S A B} (m1 m2 : M S A) (k : A -> M S B) s :
  m1 s = m2 s -> bind m1 k s = bind m2 k s.
Proof. unfold bind. by intros ->. Qed.

Lemma bind_assoc {S A B C} (m : M S A) (f : A -> M S B) (g : B -> M S C) s :
  bind (bind m f) g s = bind m (fun a => bind (f a) g) s.
Proof. unfold bind. by destruct (m s) as [[a|e] s1]. Qed.

Lemma py_get_state d key dflt (h : heap) : (py_get d key dflt h).2 = h.
Proof. unfold py_get. destruct d; try done. by destruct (h !! l) as [[]|]. Qed.

Lemma py_getitem_state d key (h : heap) : (py_getitem d key h).2 = h.
Proof. unfold py_getitem. destruct d; try done. by destruct (h !! l) as [[]|]. Qed.

Lemma py_contains_state d key (h : heap) : (py_contains d key h).2 = h.
Proof. unfold py_contains. destruct d; try done. by destruct (h !! l) as [[]|]. Qed.

Lemma py_first_state l (h : heap) : (py_first l h).2 = h.
Proof.
  unfold py_first. destruct l as [| | | | | | |a]; try done.
  by destruct (h !! a) as [[|[|]]|].
Qed.

#[local] Instance any_preorder {S} : PreOrder (fun _ _ : S => True).
Proof. by split. Qed.

(** A property of stores that allocating a list and putting an object of the
    renderer under ['to_world'] preserve is preserved by the transform
    builders and by the traversals. *)
Section Invariant.

Variable mi : mitsuba.
Variable G : heap -> Prop.
Hypothesis G_alloc : forall h items, G h -> G (h ++ [OList items]).
Hypothesis G_set : forall h l items t,
  G h -> h !! l = Some (ODict items) ->
  G (<[l := ODict (dict_set "to_world" (VObject t) items)]> h).

Abbreviation inv := (holds G (fun _ _ : heap => True)).

Lemma inv_pure {A} (m : M heap A) h :
  (m h).2 = h -> G h -> inv m h (fun _ _ => True).
Proof. intros Hm HG r h' E. rewrite E in Hm. simpl in Hm. by subst. Qed.

Lemma inv_alloc items h : G h -> inv (alloc (OList items)) h (fun _ _ => True).
Proof. intros HG r h' [= <- <-]. split; [done|]. split; [by apply G_alloc|done]. Qed.

Lemma inv_py_setitem l t h :
  G h -> inv (py_setitem l "to_world" (VObject t)) h (fun _ _ => True).
Proof.
  intros HG r h' E. unfold py_setitem in E.
  destruct (h !! l) as [[items|]|] eqn:El; injection E as <- <-; try done.
  split; [done|]. split; [by eapply G_set|done].
Qed.

Ltac inv_leaf :=
  first [ apply inv_alloc | apply inv_py_setitem
        | apply inv_pure;
          [first [apply py_get_state | apply py_getitem_state | apply py_contains_state
                 | apply py_first_state | reflexivity]|] ];
  try done.

Ltac inv_step :=
  lazymatch goal with
  | |- holds _ _ (bind _ _) _ _ =>
      eapply holds_bind' with (P := fun _ _ => True); [apply _| |intros ? ? _ ? _]
  | |- holds _ _ (if ?b then _ else _) _ _ => destruct b eqn:?
  | |- holds _ _ _ _ _ => inv_leaf
  end.

Lemma build_transform_inv d : forall v h,
  G h -> inv (_build_transform mi d v) h (fun _ _ => True).
Proof.
  induction d as [|d IH]; intros v h HG; simpl; [by apply inv_pure|].
  repeat inv_step. all: by apply IH.
Qed.

Lemma build_transform_from_dict_inv d : forall v h,
  G h -> inv (_build_transform_from_dict mi d v) h (fun _ _ => True).
Proof.
  induction d as [|d IH]; intros v h HG; simpl; [by apply inv_pure|].
  repeat inv_step. all: by apply IH.
Qed.

Lemma inv_for_each {A} (body : A -> M heap unit) xs : forall h,
  G h -> (forall x h, G h -> inv (body x) h (fun _ _ => True)) ->
  inv (for_each xs body) h (fun _ _ => True).
Proof.
  intros h HG Hb. apply holds_for_each; [apply _|done|]. intros x h1 _ _ HG1. by apply Hb.
Qed.

Lemma process_recursive_inv d : forall v h,
  G h -> inv (_process_recursive mi d v) h (fun _ _ => True).
Proof.
  induction d as [|d IH]; intros v h HG; simpl; [by apply inv_pure|].
  eapply holds_bind' with (P := fun a s => a = h /\ s = h);
    [apply _|by apply holds_get_store|].
  intros ? ? _ _ [-> ->].
  destruct v as [| | | | | | |l]; try by apply inv_pure.
  destruct (h !! l) as [[items|items]|] eqn:El; [| |by apply inv_pure].
  - eapply holds_bind' with (P := fun _ _ => True); [apply _| |].
    + destruct (dict_lookup "to_world" items) as [tw|]; [|by apply inv_pure].
      repeat inv_step. all: by apply build_transform_inv.
    + intros [] h1 _ HG1 _.
      eapply holds_bind' with (P := fun a s => a = s);
        [apply _|by apply holds_get_store|].
      intros ? h2 _ HG2 ->.
      destruct (h2 !! l) as [[items'|]|]; try by apply inv_pure.
      apply inv_for_each; [done|]. intros [k x] h3 HG3. simpl.
      destruct (String.eqb k "to_world"); [by apply inv_pure|by apply IH].
  - apply inv_for_each; [done|]. intros x h2 HG2. by apply IH.
Qed.

End Invariant.

Lemma no_look_at_alloc h items : no_look_at h -> no_look_at (h ++ [OList items]).
Proof.
  intros Hn l its Hl. apply lookup_app_Some in Hl as [Hl|[_ Hl]]; [by eapply Hn|].
  by apply list_lookup_singleton_Some in Hl as [_ [=]].
Qed.

Lemma dict_lookup_set_ne key k v items :
  k <> key -> dict_lookup k (dict_set key v items) = dict_lookup k items.
Proof.
  intros Hne. induction items as [|[k' x] items IH]; simpl.
  - destruct (String.eqb key k) eqn:E; [|done].
    apply String.eqb_eq in E. congruence.
  - destruct (String.eqb k' key) eqn:E; simpl.
    + apply String.eqb_eq in E as ->.
      destruct (String.eqb key k) eqn:E'; [|done].
      apply String.eqb_eq in E'. congruence.
    + by rewrite IH.
Qed.

Lemma no_look_at_set h l items t :
  no_look_at h -> h !! l = Some (ODict items) ->
  no_look_at (<[l := ODict (dict_set "to_world" (VObject t) items)]> h).
Proof.
  intros Hn Hl l' its Hl'.
  apply list_lookup_insert_Some in Hl' as [(-> & [= <-] & _)|[_ Hl']]; [|by eapply Hn].
  rewrite dict_lookup_set_ne by done. by eapply Hn.
Qed.

Lemma py_get_type h v ty h1 :
  no_look_at h -> py_get v "type" (VStr "identity") h = (Ok ty, h1) ->
  h1 = h /\ eq_str ty "look_at" = false.
Proof.
  intros Hn E. pose proof (py_get_state v "type" (VStr "identity") h) as Hs.
  rewrite E in Hs. simpl in Hs. subst h1. split; [done|].
  unfold py_get in E. destruct v as [| | | | | | |l]; try done.
  destruct (h !! l) as [[items|]|] eqn:El; try done. injection E as <-.
  specialize (Hn l items El).
  destruct (dict_lookup "type" items) as [v|]; [|done].
  destruct v as [| | | |s| | |]; try done. simpl.
  destruct (String.eqb s "look_at") eqn:Es; [|done].
  apply String.eqb_eq in Es. congruence.
Qed.

Section Agree.

Variable mi : mitsuba.

Ltac look_inv :=
  first [ apply build_transform_inv | apply build_transform_from_dict_inv
        | apply process_recursive_inv ];
  first [apply no_look_at_alloc | apply no_look_at_set | done].

(** Where no dictionary is a ['look_at'], the two builders do the same. *)
Lemma build_transform_agree d : forall v h,
  no_look_at h ->
  _build_transform_from_dict mi d v h = _build_transform mi d v h.
Proof.
  induction d as [|d IH]; intros v h Hn; [done|].
  cbn [_build_transform_from_dict _build_transform].
  apply bind_cong. intros ty h1 E1.
  destruct (py_get_type _ _ _ _ Hn E1) as [-> ->].
  match goal with
  | |- bind ?blk _ _ = _ =>
      assert (holds no_look_at (fun _ _ => True) blk h (fun _ _ => True)) as Hblk
  end.
  { repeat (lazymatch goal with
            | |- holds _ _ (bind _ _) _ _ =>
                eapply holds_bind' with (P := fun _ _ => True);
                  [apply _| |intros ? ? _ ? _]
            | |- holds _ _ (if ?b then _ else _) _ _ => destruct b
            | |- holds _ _ (alloc (OList _)) _ _ =>
                apply (inv_alloc no_look_at no_look_at_alloc)
            | |- holds _ _ _ _ _ =>
                apply inv_pure;
                  [first [apply py_get_state | reflexivity]|]
            end; try done). }
  apply bind_cong. intros transform h2 E2.
  destruct (Hblk _ _ E2) as (_ & Hn2 & _).
  apply bind_cong. intros has_child h3 E3.
  pose proof (py_contains_state v "child" h2) as Hs3. rewrite E3 in Hs3.
  simpl in Hs3. subst h3.
  destruct has_child; [|done].
  apply bind_cong. intros child h4 E4.
  pose proof (py_getitem_state v "child" h2) as Hs4. rewrite E4 in Hs4.
  simpl in Hs4. subst h4.
  apply bind_cong_l. by apply IH.
Qed.

Lemma for_each_agree {A} (f g : A -> M heap unit) xs : forall h,
  no_look_at h ->
  (forall x h, no_look_at h -> f x h = g x h) ->
  (forall x h, no_look_at h -> no_look_at (g x h).2) ->
  for_each xs f h = for_each xs g h.
Proof.
  induction xs as [|x xs IH]; intros h Hn Hfg Hg; [done|]. simpl.
  etrans; [apply bind_cong_l, Hfg; done|].
  apply bind_cong. intros [] h1 E1. apply IH; [|done..].
  specialize (Hg x h Hn). by rewrite E1 in Hg.
Qed.

Lemma process_recursive_no_look_at d v h :
  no_look_at h -> no_look_at (_process_recursive mi d v h).2.
Proof.
  intros Hn. destruct (_process_recursive mi d v h) as [r h'] eqn:E.
  assert (holds no_look_at (fun _ _ => True) (_process_recursive mi d v) h
            (fun _ _ => True)) as H by look_inv.
  by destruct (H _ _ E) as (_ & ? & _).
Qed.

(** ... and so do the two traversals. *)
Lemma process_recursive_agree d : forall v h,
  no_look_at h ->
  _process_transforms_recursive mi d v h = _process_recursive mi d v h.
Proof.
  induction d as [|d IH]; intros v h Hn; [done|].
  cbn [_process_transforms_recursive _process_recursive].
  apply bind_cong. intros ? ? [= <- <-].
  destruct v as [| | | | | | |l]; try done.
  destruct (h !! l) as [[items|items]|] eqn:El; [| |done].
  2: { apply for_each_agree; [done|by apply IH|].
       intros x h1 Hn1. by apply process_recursive_no_look_at. }
  match goal with
  | |- bind ?m1 _ _ = bind ?m2 _ _ => assert (m1 h = m2 h) as Hstage
  end.
  { destruct (dict_lookup "to_world" items) as [tw|]; [|done].
    destruct (isinstance_list h tw); [|destruct (isinstance_dict h tw); [|done]].
    - apply bind_cong. intros first h1 E1.
      apply bind_cong. intros ? ? [= <- <-].
      destruct (isinstance_list h1 first); [done|].
      by rewrite bind_assoc.
    - apply bind_cong_l. by apply build_transform_agree. }
  etrans; [by apply bind_cong_l|].
  match goal with
  | |- bind ?m2 _ _ = _ =>
      assert (holds no_look_at (fun _ _ => True) m2 h (fun _ _ => True)) as Hinv
  end.
  { destruct (dict_lookup "to_world" items) as [tw|]; [|by apply inv_pure].
    repeat (lazymatch goal with
            | |- holds _ _ (bind _ _) _ _ =>
                eapply holds_bind' with (P := fun _ _ => True);
                  [apply _| |intros ? ? _ ? _]
            | |- holds _ _ (if ?b then _ else _) _ _ => destruct b
            | |- holds _ _ (py_setitem _ _ _) _ _ =>
                apply (inv_py_setitem no_look_at no_look_at_set)
            | |- holds _ _ (_build_transform _ _ _) _ _ => look_inv
            | |- holds _ _ _ _ _ =>
                apply inv_pure; [first [apply py_first_state | reflexivity]|]
            end; try done). }
  apply bind_cong. intros [] h1 E1.
  destruct (Hinv _ _ E1) as (_ & Hn1 & _).
  apply bind_cong. intros ? ? [= <- <-].
  destruct (h1 !! l) as [[items'|]|]; try done.
  apply for_each_agree; [done| |].
  - intros [k x] h2 Hn2. simpl. destruct (String.eqb k "to_world"); [done|by apply IH].
  - intros [k x] h2 Hn2. simpl. destruct (String.eqb k "to_world"); [done|].
    by apply process_recursive_no_look_at.
Qed.

End Agree.

Lemma dict_lookup_fmap (f : val -> val) key items :
  dict_lookup key (map (fun kv : string * val => (kv.1, f kv.2)) items)
  = f <$> dict_lookup key items.
Proof.
  induction items as [|[k x] items IH]; simpl; [done|].
  by destruct (String.eqb k key).
Qed.

(** The copy made by [copy.deepcopy] has no ['look_at'] dictionary where the
    original store has none. *)
Lemma copy_deepcopy_no_look_at d x h y h1 :
  store_ok h -> val_below (length h) x -> no_look_at h ->
  copy_deepcopy d x h = (Ok y, h1) -> no_look_at h1.
Proof.
  intros Hok Hx Hn E. unfold copy_deepcopy in E.
  destruct (deepcopy d x (∅, h)) as [r [m h1']] eqn:Ed. injection E as -> ->.
  destruct (deepcopy_copies h Hok d x _ _ _ Ed (copy_inv_start h) Hx)
    as (Hinv & _ & _ & _ & _ & Hnew). simpl in *.
  destruct Hinv as (I1 & I2 & I3 & I4 & I5). simpl in *.
  intros l items Hl. destruct (decide (l < length h)%nat) as [Hlt|Hge].
  - rewrite I1 in Hl by done. by eapply Hn.
  - destruct (I5 l) as [a Ha].
    { apply lookup_lt_Some in Hl. lia. }
    destruct (Hnew _ _ Ha (lookup_empty _)) as (o & Ho & Ho' & _).
    rewrite Hl in Ho'. destruct o as [items0|]; [|done].
    injection Ho' as ->. rewrite dict_lookup_fmap.
    specialize (Hn a items0 Ho).
    destruct (dict_lookup "type" items0) as [v|]; [|done]. simpl.
    destruct v; try done.
Qed.

(** X7: on every scene in whose store no dictionary has ['type'] equal to
    ['look_at'], [RenderWorker._preprocess_scene_dict] and
    [preprocess_transforms] of the child process do the same: they return
    the same result (or raise the same exception) and leave the same
    store. *)
Theorem preprocessings_agree_without_look_at mi d x h :
  store_ok h -> val_below (length h) x -> no_look_at h ->
  _preprocess_scene_dict mi d x h = preprocess_transforms mi d x h.
Proof.
  intros Hok Hx Hn. unfold _preprocess_scene_dict, preprocess_transforms.
  apply bind_cong. intros y h1 E1.
  apply bind_cong_l. apply process_recursive_agree.
  by eapply copy_deepcopy_no_look_at.
Qed.

(** X8: [RenderWorker._preprocess_scene_dict] changes no object that
    existed before the call, whether it returns or raises: the store it was
    given is a prefix of the store it leaves. *)
Theorem preprocess_scene_dict_frame mi d x h :
  h `prefix_of` (_preprocess_scene_dict mi d x h).2.
Proof.
  destruct (_preprocess_scene_dict mi d x h) as [r h'] eqn:E.
  apply keeps_prefix.
  by destruct (preprocess_scene_dict_framed mi (length h) d x h (good_length h) r h' E).
Qed.

Lemma ground_scene_ok : store_ok ground_scene.
Proof.
  split.
  - intros l items Hl.
    do 5 (destruct l as [|l]; [injection Hl as <- || discriminate Hl;
                               simpl; apply (bool_decide_unpack _); by vm_compute|]).
    done.
  - intros l o Hl.
    do 5 (destruct l as [|l]; [injection Hl as <-;
                               repeat constructor; simpl; lia|]).
    done.
Qed.

Lemma ground_scene_no_look_at : no_look_at ground_scene.
Proof.
  intros l items Hl.
  do 5 (destruct l as [|l]; [injection Hl as <- || discriminate Hl; by vm_compute|]).
  done.
Qed.

Lemma preprocessings_agree_without_look_at_witness :
  _preprocess_scene_dict demo_mi 8 (VRef 4) ground_scene
  = preprocess_transforms demo_mi 8 (VRef 4) ground_scene.
Proof.
  apply (preprocessings_agree_without_look_at demo_mi 8 (VRef 4) ground_scene).
  - exact ground_scene_ok.
  - apply val_below_ref. simpl. lia.
  - exact ground_scene_no_look_at.
Defined.

Example preprocess_ground_scene :
  exists h',
    preprocess_transforms demo_mi 8 (VRef 4) ground_scene = (Ok (VRef 5), h') /\
    h' !! 6%nat = Some (ODict [("type", VStr "rectangle"); ("to_world", VObject 42)]).
Proof. eexists. by vm_compute. Qed.

(** ** Waiting for the child: the slots that run meanwhile *)

Section Waiting.

Context {blob : Type}.
Implicit Types (w : world blob) (env : parent_env blob).

Lemma same_files_refl w : same_files w w.
Proof. done. Qed.

Lemma same_files_trans w1 w2 w3 :
  same_files w1 w2 -> same_files w2 w3 -> same_files w1 w3.
Proof. intros (?&?&?&?) (?&?&?&?). repeat split; congruence. Qed.

Lemma on_stdout_keeps env chunk w :
  let w' := _on_stdout env chunk w in
  process w' = process w /\ same_files w w' /\
  exists out, signals w' = signals w ++ out /\ Forall is_output_signal out.
Proof.
  unfold _on_stdout. destruct (process w) as [p|] eqn:Hp.
  2: { rewrite Hp. do 2 (split; [done|]). exists []. by rewrite app_nil_r. }
  rewrite <- Hp. clear Hp.
  generalize (split 10 (strip (strip_ansi_codes chunk))). intros lines.
  revert w. induction lines as [|line lines IH]; intros w; simpl.
  - do 2 (split; [done|]). exists []. by rewrite app_nil_r.
  - destruct (on_stdout_line_frame env w line) as (E1 & E2 & E3 & E4 & E5 & n1 & E6 & F1).
    destruct (IH (on_stdout_line env w line)) as (D1 & (D2 & D3 & D4 & D5) & n2 & D6 & F2).
    simpl in *. split; [congruence|]. split; [repeat split; congruence|].
    exists (n1 ++ n2). split; [by rewrite D6, E6, app_assoc|by apply Forall_app].
Qed.

Lemma on_stderr_keeps data w :
  let w' := _on_stderr data w in
  process w' = process w /\ same_files w w' /\ signals w' = signals w.
Proof.
  unfold _on_stderr. destruct (process w) as [p|] eqn:Hp; [|by rewrite Hp].
  rewrite <- Hp. by repeat case_match.
Qed.

Lemma pipe_events_keep env events : forall w,
  let w' := foldl (on_pipe_event env) w events in
  process w' = process w /\ same_files w w' /\
  exists out, signals w' = signals w ++ out /\ Forall is_output_signal out.
Proof.
  induction events as [|e events IH]; intros w; simpl.
  - do 2 (split; [done|]). exists []. by rewrite app_nil_r.
  - destruct (IH (on_pipe_event env w e)) as (D1 & D2 & n2 & D6 & F2).
    assert (process (on_pipe_event env w e) = process w /\
            same_files w (on_pipe_event env w e) /\
            exists out, signals (on_pipe_event env w e) = signals w ++ out /\
                        Forall is_output_signal out) as (E1 & E2 & n1 & E6 & F1).
    { destruct e as [chunk|data]; simpl.
      - apply on_stdout_keeps.
      - destruct (on_stderr_keeps data w) as (? & ? & ?).
        do 2 (split; [done|]). exists []. by rewrite app_nil_r. }
    simpl in *. split; [congruence|]. split; [by eapply same_files_trans|].
    exists (n1 ++ n2). split; [by rewrite D6, E6, app_assoc|by apply Forall_app].
Qed.

Lemma on_finished_emits env path w p :
  process w = Some p ->
  let w' := (_on_finished env path w).2 in
  process w' = Some p /\ same_files w w' /\
  signals w' = signals w ++ finished_signals env path (exitCode p).
Proof.
  intros Hp. unfold _on_finished, finished_signals. rewrite Hp.
  destruct (exitCode p =? 0).
  - destruct (p_Image_open env path) as [img|e];
      [destruct (p_np_array env img)|]; simpl; repeat split; try done.
    by rewrite <- app_assoc.
  - simpl. repeat split; try done. by rewrite <- app_assoc.
Qed.

Lemma on_process_keeps f w p :
  process w = Some p ->
  process (on_process f w) = Some (f p) /\ same_files w (on_process f w) /\
  signals (on_process f w) = signals w.
Proof. intros Hp. unfold on_process. by rewrite Hp. Qed.

(** One wait: the call is recorded, the output of the child is handled,
    and if the child ends, [_on_finished] has run before the call
    returns. *)
Lemma waitForFinished_spec env msecs events finished code w p :
  process w = Some p ->
  let r := waitForFinished env msecs events finished code w in
  let p1 := qcall_on (WaitForFinished msecs) p in
  r.1 = finished /\
  process r.2 = Some (if finished then set_exit code (set_state NotRunning p1) else p1) /\
  same_files w r.2 /\
  exists out,
    Forall is_output_signal out /\
    signals r.2 = signals w ++ out
                  ++ (if finished then finished_signals env (finished_slot p) code else []).
Proof.
  intros Hp. unfold waitForFinished.
  destruct (on_process_keeps (qcall_on (WaitForFinished msecs)) w p Hp)
    as (P1 & F1 & S1).
  destruct (pipe_events_keep env events (on_process (qcall_on (WaitForFinished msecs)) w))
    as (P2 & F2 & out & S2 & Hout).
  cbv zeta in P2, F2, S2. rewrite P1 in P2. rewrite S1 in S2.
  set (w2 := foldl (on_pipe_event env) _ events) in *.
  destruct finished; simpl.
  - destruct (on_process_keeps (fun p => set_exit code (set_state NotRunning p)) w2 _ P2)
      as (P3 & F3 & S3).
    rewrite P3.
    destruct (on_finished_emits env
                (finished_slot (set_exit code (set_state NotRunning
                                                 (qcall_on (WaitForFinished msecs) p))))
                _ _ P3) as (P4 & F4 & S4).
    cbv zeta in P4, F4, S4. split; [done|]. split; [done|].
    split; [eauto using same_files_trans|].
    exists out. split; [done|]. rewrite S4, S3, S2. simpl. by rewrite <- app_assoc.
  - split; [done|]. split; [done|]. split; [eauto using same_files_trans|].
    exists out. split; [done|]. by rewrite app_nil_r.
Qed.

(** The two waits of [cancel_render] and of [cleanup]; [mid] is what is
    done between them apart from the calls on the process. *)
Lemma two_waits env m1 m2 (mid : world blob -> world blob) w p :
  (forall w0, process (mid w0) = process w0 /\ same_files w0 (mid w0) /\
              signals (mid w0) = signals w0) ->
  process w = Some p ->
  let r1 := waitForFinished env m1 (p_events_after_terminate env)
              (p_finished_after_terminate env) (p_exit_after_terminate env)
              (on_process (qcall_on Terminate) w) in
  let w' := if r1.1 then r1.2
            else (waitForFinished env m2 (p_events_after_kill env)
                    (p_finished_after_kill env) (p_exit_after_kill env)
                    (on_process (qcall_on Kill) (mid r1.2))).2 in
  process w' = Some (stopped env m1 m2 p) /\ same_files w w' /\
  exists out,
    Forall is_output_signal out /\
    signals w' = signals w ++ out ++ stop_signals env (finished_slot p).
Proof.
  intros Hmid Hp. unfold stopped, stop_signals.
  destruct (on_process_keeps (qcall_on Terminate) w p Hp) as (P0 & F0 & S0).
  destruct (waitForFinished_spec env m1 (p_events_after_terminate env)
              (p_finished_after_terminate env) (p_exit_after_terminate env)
              _ _ P0) as (R1 & P1 & F1 & out1 & Hout1 & S1).
  cbv zeta in *. rewrite R1. rewrite S0 in S1.
  destruct (p_finished_after_terminate env).
  - split; [done|]. split; [eauto using same_files_trans|]. by exists out1.
  - set (w1 := (waitForFinished env m1 _ false _ _).2) in *.
    destruct (Hmid w1) as (Pm & Fm & Sm). rewrite P1 in Pm.
    destruct (on_process_keeps (qcall_on Kill) (mid w1) _ Pm) as (P2 & F2 & S2).
    destruct (waitForFinished_spec env m2 (p_events_after_kill env)
                (p_finished_after_kill env) (p_exit_after_kill env)
                _ _ P2) as (R3 & P3 & F3 & out2 & Hout2 & S3).
    cbv zeta in *. split; [by rewrite P3; destruct (p_finished_after_kill env)|].
    split; [eauto 6 using same_files_trans|].
    exists (out1 ++ out2). split; [by apply Forall_app|].
    rewrite S3, S2, Sm, S1, app_nil_r.
    destruct (p_finished_after_kill env); simpl; by rewrite <- !app_assoc.
Qed.

Lemma cancel_render_spec env w p :
  process w = Some p -> state p = Running ->
  let w' := cancel_render env w in
  process w' = Some (stopped env 3000 1000 p) /\ same_files w w' /\
  exists out,
    Forall is_output_signal out /\
    signals w' = signals w ++ out ++ stop_signals env (finished_slot p)
                 ++ [log_message (cross_mark ++ cp " Render cancelled")].
Proof.
  intros Hp Hst. unfold cancel_render. rewrite Hp, Hst.
  set (w0 := logger INFO (cp "Terminating render process") w).
  destruct (two_waits env 3000 1000
              (logger WARNING (cp "Process did not terminate gracefully, killing..."))
              w0 p) as (P & F & out & Hout & S); [done..|].
  cbv zeta in P, F, S.
  destruct (waitForFinished env 3000 _ _ _ _) as [fin w1]. simpl in *.
  split; [done|]. split; [done|]. exists out. split; [done|].
  rewrite S. by rewrite <- !app_assoc.
Qed.

(** C6: when the child is [Running], [cancel_render] calls [terminate],
    waits up to 3000 ms, calls [kill] (and waits up to 1000 ms) exactly
    when the child had not ended within the first wait, and then emits the
    cancellation message.  Before that message come only the signals of
    the slots that run while it waits: output of the child
    ([progress_updated], [log_message]) and, if the child ends within a
    wait, what [_on_finished] emits for its exit code.  The temp files are
    left alone.  When no child is running it leaves everything as it is
    and emits nothing. *)
Theorem cancel_render_kills_running_child env w :
  if running w then
    exists p p' out,
      process w = Some p /\
      process (cancel_render env w) = Some p' /\
      qcalls p' = qcalls p ++ [Terminate; WaitForFinished 3000]
                  ++ (if p_finished_after_terminate env then []
                      else [Kill; WaitForFinished 1000]) /\
      Forall is_output_signal out /\
      signals (cancel_render env w)
      = signals w ++ out ++ stop_signals env (finished_slot p)
        ++ [log_message (cross_mark ++ cp " Render cancelled")] /\
      temp_files (cancel_render env w) = temp_files w /\
      files (cancel_render env w) = files w
  else cancel_render env w = w.
Proof.
  unfold running.
  destruct (process w) as [p|] eqn:Hp; [|by unfold cancel_render; rewrite Hp].
  destruct (state p) eqn:Hst; try (by unfold cancel_render; rewrite Hp, Hst).
  destruct (cancel_render_spec env w p Hp Hst) as (P & (F1 & F2 & _) & out & Hout & S).
  exists p, (stopped env 3000 1000 p), out. repeat split; try done.
  unfold stopped. destruct (p_finished_after_terminate env); simpl.
  - by rewrite <- app_assoc.
  - destruct (p_finished_after_kill env); simpl; by rewrite <- !app_assoc.
Qed.

End Waiting.

(** A cancel during which a progress line arrives and the child, killed,
    ends with exit code 9. *)
Example cancel_render_demo :
  signals (cancel_render (demo_parent_env (fun _ _ => Ok tt))
             (demo_world (blob := unit) (Some (demo_process Running))))
  = [progress_updated 30;
     log_message (cross_mark ++ cp " Render failed with exit code 9");
     render_failed (cp "Render failed with exit code 9");
     log_message (cross_mark ++ cp " Render cancelled")].
Proof. vm_compute. reflexivity. Qed.

(** ** [_on_stderr] and [cleanup] *)

Lemma startswith_app needle post : startswith needle (needle ++ post) = true.
Proof.
  induction needle as [|a needle IH]; simpl; [done|]. by rewrite N.eqb_refl.
Qed.

Lemma contains_startswith needle text :
  startswith needle text = true -> contains needle text = true.
Proof. intros H. destruct text; simpl; by rewrite H. Qed.

Lemma contains_app needle pre post : contains needle (pre ++ needle ++ post) = true.
Proof.
  induction pre as [|c pre IH]; simpl.
  - apply contains_startswith, startswith_app.
  - rewrite IH. by rewrite orb_true_r.
Qed.

Section Housekeeping.

Context {blob : Type}.
Implicit Types (w : world blob) (env : parent_env blob).

(** X9: what the child writes to stderr never becomes a signal:
    [_on_stderr] changes nothing but the log, to which it adds at most one
    record; and when the text contains ["mode"] (or one of the other three
    markers) the record is at debug level, whatever else the text says. *)
Theorem on_stderr_only_logs data w :
  let w' := _on_stderr data w in
  signals w' = signals w /\ process w' = process w /\
  temp_files w' = temp_files w /\ files w' = files w /\
  (logged w' = logged w \/
   exists lv msg, logged w' = logged w ++ [(lv, msg ++ strip data)] /\
     (lv = DEBUG \/
      lv = ERROR_ /\ contains (cp "jitc_llvm_init") data = false /\
      contains (cp "LLVM") data = false /\
      contains (cp "DeprecationWarning") data = false /\
      contains (cp "mode") data = false)) /\
  (forall p pre post,
     process w = Some p -> nonempty (strip data) = true ->
     data = pre ++ cp "mode" ++ post ->
     exists msg, logged w' = logged w ++ [(DEBUG, msg)]).
Proof.
  unfold _on_stderr. destruct (process w) as [p|] eqn:Hp.
  2: { do 4 (split; [done|]). split; [by left|]. by intros. }
  destruct (nonempty (strip data)) eqn:Hne.
  2: { do 4 (split; [done|]). split; [by left|]. by intros. }
  destruct (contains (cp "jitc_llvm_init") data) eqn:E1.
  { do 4 (split; [done|]). split; [right; eexists DEBUG, _; split; [reflexivity|by left]|].
    intros; by eexists. }
  destruct (contains (cp "LLVM") data) eqn:E2.
  { do 4 (split; [done|]). split; [right; eexists DEBUG, _; split; [reflexivity|by left]|].
    intros; by eexists. }
  destruct (contains (cp "DeprecationWarning") data) eqn:E3.
  { do 4 (split; [done|]). split; [right; eexists DEBUG, _; split; [reflexivity|by left]|].
    intros; by eexists. }
  destruct (contains (cp "mode") data) eqn:E4.
  { do 4 (split; [done|]). split; [right; eexists DEBUG, _; split; [reflexivity|by left]|].
    intros; by eexists. }
  do 4 (split; [done|]). split.
  - right. eexists ERROR_, _. split; [reflexivity|]. right. by repeat split.
  - intros p' pre post _ _ ->. by rewrite contains_app in E4.
Qed.

Lemma cleanup_file_frame unlink_error w f :
  let w' := cleanup_file unlink_error w f in
  signals w' = signals w /\ process w' = process w /\
  temp_files w' = temp_files w /\
  (forall g, g <> f -> files w' !! g = files w !! g) /\
  (files w' !! f = None \/
   files w' !! f = files w !! f /\ is_Some (unlink_error f)) /\
  (forall g, files w !! g = None -> files w' !! g = None).
Proof.
  unfold cleanup_file.
  destruct (files w !! f) eqn:Hf.
  2: { do 4 (split; [done|]). split; [by left|done]. }
  destruct (unlink_error f) eqn:Hu.
  - do 4 (split; [done|]). split; [|done]. right. by split.
  - do 3 (split; [done|]). cbn [files set_files]. split; [|split].
    + intros g Hg. by rewrite lookup_delete_ne.
    + left. by rewrite lookup_delete_eq.
    + intros g Hg. destruct (decide (g = f)) as [->|Hne];
        [by rewrite lookup_delete_eq|by rewrite lookup_delete_ne].
Qed.

Lemma cleanup_files_frame unlink_error fs : forall w,
  let w' := foldl (cleanup_file unlink_error) w fs in
  signals w' = signals w /\ process w' = process w /\
  temp_files w' = temp_files w /\
  (forall g, g ∉ fs -> files w' !! g = files w !! g) /\
  (forall g, g ∈ fs -> unlink_error g = None -> files w' !! g = None) /\
  (forall g, files w !! g = None -> files w' !! g = None).
Proof.
  induction fs as [|f fs IH]; intros w; cbn [foldl].
  - do 4 (split; [done|]). split; [|done]. by intros g ?%elem_of_nil.
  - destruct (cleanup_file_frame unlink_error w f) as (E1 & E2 & E3 & E4 & E5 & E6).
    destruct (IH (cleanup_file unlink_error w f)) as (D1 & D2 & D3 & D4 & D5 & D6).
    cbv zeta in *. rewrite D1, D2, D3, E1, E2, E3. do 3 (split; [done|]).
    split; [|split].
    + intros g [Hg Hgs]%not_elem_of_cons. rewrite D4 by done. by apply E4.
    + intros g [->|Hg]%elem_of_cons Hu; [|by apply D5].
      apply D6. destruct E5 as [E5|[_ [e He]]]; [done|congruence].
    + intros g Hg. by apply D6, E6.
Qed.

(** What [cleanup] does about the process. *)
Lemma cleanup_process env unlink_error w :
  exists w1 during,
    cleanup env unlink_error w
    = (match temp_files w1 with
       | [] => w1
       | _ :: _ =>
           set_temp_files []
             (foldl (cleanup_file unlink_error)
                (logger DEBUG (cp "Cleaning up "
                               ++ str_of_int (Z.of_nat (length (temp_files w1)))
                               ++ cp " temp files...") w1) (temp_files w1))
       end,
       match process w with
       | Some p => Some (if running w then stopped env 2000 500 p else p)
       | None => None
       end) /\
    process w1 = None /\ temp_files w1 = temp_files w /\ files w1 = files w /\
    signals w1 = signals w ++ during /\
    (running w = false -> during = []).
Proof.
  unfold cleanup, running.
  destruct (process w) as [p|] eqn:Hp.
  2: { rewrite Hp. exists w, []. rewrite app_nil_r.
       split; [cbn [temp_files logger]; by destruct (temp_files w)|done]. }
  destruct (state p) eqn:Hst.
  1, 2: rewrite Hp; eexists (set_process None w), []; rewrite app_nil_r;
    split; [cbn [temp_files logger set_process]; by destruct (temp_files w)|done].
  set (w0 := logger INFO (cp "Cleaning up running subprocess...") w).
  destruct (two_waits env 2000 500 (fun w => w) w0 p) as (P & F & out & Hout & S);
    [done..|].
  cbv zeta in P, F, S.
  destruct (waitForFinished env 2000 _ _ _ _) as [fin w1]. simpl in *.
  set (w2 := if fin then w1 else _) in *. rewrite P.
  destruct F as (F1 & F2 & _).
  exists (set_process None w2), (out ++ stop_signals env (finished_slot p)).
  split; [cbn [temp_files logger set_process]; by destruct (temp_files w2)|].
  by repeat split.
Qed.

Lemma cleanup_files env unlink_error w :
  let w' := (cleanup env unlink_error w).1 in
  process w' = None /\ temp_files w' = [] /\
  (running w = false -> signals w' = signals w) /\
  (exists during, signals w' = signals w ++ during) /\
  (forall f, f ∉ temp_files w -> files w' !! f = files w !! f) /\
  (forall f, f ∈ temp_files w -> unlink_error f = None -> files w' !! f = None) /\
  (forall f, files w !! f = None -> files w' !! f = None).
Proof.
  destruct (cleanup_process env unlink_error w)
    as (w1 & during & -> & P1 & P2 & P4 & P3 & Hd).
  cbn [fst].
  assert (running w = false -> signals w1 = signals w) as Hs.
  { intros Hr. by rewrite P3, (Hd Hr), app_nil_r. }
  destruct (temp_files w1) as [|f fs] eqn:Ht; simpl.
  { rewrite <- P2, <- P4. repeat split; auto; [by eexists|].
    intros g Hg. by apply elem_of_nil in Hg. }
  destruct (cleanup_files_frame unlink_error (f :: fs)
              (logger DEBUG (cp "Cleaning up "
                             ++ str_of_int (Z.of_nat (length (f :: fs)))
                             ++ cp " temp files...") w1))
    as (D1 & D2 & D3 & D4 & D5 & D6).
  simpl in *. rewrite D1, D2, P1. rewrite <- P2, <- P4. repeat split; auto.
  by eexists.
Qed.

(** X10: [cleanup] lets go of the process and empties [temp_files],
    whatever fails on the way.  It emits no signal of its own: when no
    child is running, none is emitted (while it waits for a running child,
    the slots of the renderer may emit theirs).  On disk it deletes at most
    the files entered in [temp_files]: every other file is as before, a
    temp file that the operating system lets it delete is gone, and it
    creates none. *)
Theorem cleanup_removes_tracked_files env unlink_error w :
  let w' := (cleanup env unlink_error w).1 in
  process w' = None /\ temp_files w' = [] /\
  (running w = false -> signals w' = signals w) /\
  (exists during, signals w' = signals w ++ during) /\
  (forall f, f ∉ temp_files w -> files w' !! f = files w !! f) /\
  (forall f, f ∈ temp_files w -> unlink_error f = None -> files w' !! f = None) /\
  (forall f, files w !! f = None -> files w' !! f = None).
Proof. apply cleanup_files. Qed.

(** X11: a child that is still running when [cleanup] is called is asked to
    terminate, given 2000 ms, and killed (and given 500 ms more) exactly
    when it had not finished by then. *)
Theorem cleanup_stops_running_child env unlink_error w p :
  process w = Some p -> state p = Running ->
  exists p',
    (cleanup env unlink_error w).2 = Some p' /\
    qcalls p' = qcalls p ++ [Terminate; WaitForFinished 2000]
                ++ (if p_finished_after_terminate env then []
                    else [Kill; WaitForFinished 500]).
Proof.
  intros Hp Hst.
  destruct (cleanup_process env unlink_error w) as (w1 & during & -> & _).
  unfold running. rewrite Hp, Hst. eexists. split; [done|].
  unfold stopped. destruct (p_finished_after_terminate env); simpl.
  - by rewrite <- app_assoc.
  - destruct (p_finished_after_kill env); simpl; by rewrite <- !app_assoc.
Qed.


Lemma render_scene_files env w scene_dict params output_filename name :
  running w = false ->
  first_unused (p_candidates env) (files w) = Ok name ->
  let w' := render_scene env scene_dict params output_filename w in
  match p_pickle_dump env (VRef (length (objects w)))
          (objects w ++ [ODict [("scene_dict", scene_dict); ("params", params)]]) with
  | Ok b => files w' = <[name := [b]]> (files w) /\ temp_files w' = temp_files w ++ [name]
  | Raise _ =>
      files w'
      = <[name := p_pickle_partial env (VRef (length (objects w)))
                    (objects w ++ [ODict [("scene_dict", scene_dict);
                                          ("params", params)]])]> (files w) /\
      temp_files w' = temp_files w
  end.
Proof.
  intros Hrun Hname. unfold render_scene. rewrite Hrun.
  unfold render_scene_try, bind, NamedTemporaryFile. rewrite Hname.
  unfold on_objects, alloc, pickle_dump. cbn.
  destruct (p_pickle_dump env _ _) as [b|e]; cbn;
    rewrite lookup_insert_eq; cbn; [|by rewrite insert_insert_eq].
  destruct (p_started env); cbn; by rewrite insert_insert_eq.
Qed.

(** X20: [render_scene] followed by [cleanup].  The scene file of a render
    that got as far as pickling is deleted by [cleanup] (when the operating
    system lets it); the file left behind when pickling raised is not: it
    is still on disk after [cleanup], with what [pickle.dump] had written
    to it. *)
Theorem cleanup_after_render_scene env unlink_error w scene_dict params
    output_filename name :
  running w = false ->
  first_unused (p_candidates env) (files w) = Ok name ->
  name ∉ temp_files w ->
  let w' := render_scene env scene_dict params output_filename w in
  let w'' := (cleanup env unlink_error w').1 in
  match p_pickle_dump env (VRef (length (objects w)))
          (objects w ++ [ODict [("scene_dict", scene_dict); ("params", params)]]) with
  | Ok _ => unlink_error name = None -> files w'' !! name = None
  | Raise _ =>
      files w'' !! name
      = Some (p_pickle_partial env (VRef (length (objects w)))
                (objects w ++ [ODict [("scene_dict", scene_dict); ("params", params)]]))
  end.
Proof.
  intros Hrun Hname Hnotin w' w''.
  pose proof (render_scene_files env w scene_dict params output_filename name
                Hrun Hname) as Hfiles.
  destruct (cleanup_files env unlink_error w') as (_ & _ & _ & _ & Hkeep & Hgone & _).
  fold w' in Hfiles. fold w'' in Hkeep, Hgone.
  destruct (p_pickle_dump env _ _) as [b|e]; destruct Hfiles as [Hf Ht].
  - intros Hu. apply Hgone; [|done]. rewrite Ht. apply elem_of_app. right. by left.
  - rewrite Hkeep by by rewrite Ht. rewrite Hf. by rewrite lookup_insert_eq.
Qed.

End Housekeeping.

Lemma cleanup_stops_running_child_witness :
  exists p',
    (cleanup (demo_parent_env (fun _ _ => Ok tt)) (fun _ => None)
       (demo_world (blob := unit) (Some (demo_process Running)))).2 = Some p' /\
    qcalls p' = qcalls (demo_process Running)
                ++ [Terminate; WaitForFinished 2000] ++ [Kill; WaitForFinished 500].
Proof.
  apply (cleanup_stops_running_child (demo_parent_env (fun _ _ => Ok tt)) (fun _ => None)
           (demo_world (Some (demo_process Running))) (demo_process Running));
    reflexivity.
Defined.

Lemma cleanup_after_render_scene_witness :
  let w := demo_world (blob := unit) None in
  let w' := render_scene demo_parent_env_unpicklable (VInt 1) (VInt 2) (cp "render.png") w in
  files (cleanup demo_parent_env_unpicklable (fun _ => None) w').1 !! cp "/tmp/tmp1.pkl"
  = Some [tt].
Proof.
  intros w w'.
  apply (cleanup_after_render_scene demo_parent_env_unpicklable (fun _ => None) w
           (VInt 1) (VInt 2) (cp "render.png") (cp "/tmp/tmp1.pkl")).
  - reflexivity.
  - by vm_compute.
  - intros Hin. apply list_elem_of_singleton in Hin. by vm_compute in Hin.
Defined.

(** ** [RenderWorker.run] *)

Lemma wk_on_heap_eq {A} (m : M heap A) s r s' :
  wk_on_heap m s = (r, s') ->
  exists h', m (wk_heap s) = (r, h') /\
    s' = {| wk_heap := h'; wk_signals := wk_signals s; wk_trace := wk_trace s |}.
Proof.
  unfold wk_on_heap. destruct (m (wk_heap s)) as [r0 h']. intros [= <- <-]. eauto.
Qed.

Lemma wk_ext_eq {A} st (f : heap -> result A) s r s' :
  wk_ext st f s = (r, s') ->
  f (wk_heap s) = r /\
    s' = {| wk_heap := wk_heap s; wk_signals := wk_signals s;
            wk_trace := wk_trace s ++ [(st, is_ok r)] |}.
Proof. unfold wk_ext. by intros [= <- <-]. Qed.

Lemma reraise_eq {S A} what (m : M S A) s r s' :
  reraise what m s = (r, s') ->
  (exists a, m s = (Ok a, s') /\ r = Ok a) \/
  (exists e, m s = (Raise e, s') /\
             r = Raise (Exn "Exception" (cp what ++ cp ": " ++ exn_msg e))).
Proof.
  unfold reraise. destruct (m s) as [[a|e] s1]; intros [= <- <-]; eauto.
Qed.

Ltac worker_prim E :=
  lazymatch type of E with
  | wk_emit _ _ = _ => unfold wk_emit in E; injection E as ? ?
  | ret _ _ = _ => unfold ret in E; injection E as ? ?
  | wk_on_heap _ _ = _ => apply wk_on_heap_eq in E as (? & E & ?)
  | wk_ext _ _ _ = _ => apply wk_ext_eq in E as [E ?]
  | _ => idtac
  end;
  try discriminate; simplify_eq; cbn [wk_heap wk_signals wk_trace] in *.

Ltac worker_step E :=
  let E1 := fresh "E" in
  lazymatch type of E with
  | bind _ _ _ = _ =>
      apply bind_eq in E as [(? & ? & E1 & E)|(? & E1 & ->)];
      [ try (apply reraise_eq in E1 as [(? & E1 & ?)|(? & E1 & ?)]);
        simplify_eq; worker_inner E1
      | try (apply reraise_eq in E1 as [(? & E1 & ?)|(? & E1 & ?)]);
        simplify_eq; worker_inner E1 ]
  | (if ?b then _ else _) _ = _ => destruct b eqn:?
  | _ => worker_prim E
  end
with worker_inner E :=
  lazymatch type of E with
  | bind _ _ _ = _ =>
      let E1 := fresh "E" in
      apply bind_eq in E as [(? & ? & E1 & E)|(? & E1 & ?)];
      [ worker_prim E1; worker_inner E | worker_prim E1 ]
  | _ => worker_prim E
  end.

Ltac run_worker E := unfold run_try in E; repeat worker_step E.

(** X12: a run of the worker ends in at most one of [finished] and
    [error], and that one is its last signal; it ends in neither only when
    it found [_is_cancelled] set.  The values it sends with [progress] are
    a prefix of 10, 20, 90, 100; [finished] comes only after all four and
    after the four calls (load, render, bitmap, array) have returned; a
    message sent with [error] starts with ["Render error: "]. *)
Theorem run_outcome env self_scene_dict self_params h :
  let s := run env self_scene_dict self_params h in
  worker_progress (wk_signals s) `prefix_of` [10; 20; 90; 100] /\
  (List.filter is_terminal (wk_signals s) = [] /\
   (wk_cancelled_after_load env = true \/ wk_cancelled_after_render env = true) \/
   exists t, List.filter is_terminal (wk_signals s) = [t] /\
             last (wk_signals s) = Some t) /\
  (forall img, w_finished img ∈ wk_signals s ->
     worker_progress (wk_signals s) = [10; 20; 90; 100] /\
     (wk_trace s).*2 = [true; true; true; true]) /\
  (forall msg, w_error msg ∈ wk_signals s ->
     exists m, msg = cp "Render error: " ++ m).
Proof.
  unfold run.
  destruct (run_try env self_scene_dict self_params _) as [r s] eqn:E.
  run_worker E.
  all: cbn [wk_signals wk_trace app worker_progress omap List.filter is_terminal].
  all: split; [by eexists|].
  all: split; [first [by left; auto | by right; eexists]|].
  all: split;
    [ intros img Hin; repeat (apply elem_of_cons in Hin as [Hin|Hin]; [by simplify_eq|]);
      by apply elem_of_nil in Hin
    | intros msg Hin; repeat (apply elem_of_cons in Hin as [Hin|Hin];
                              [try done; simplify_eq; by eexists|]);
      by apply elem_of_nil in Hin ].
Qed.

Lemma preprocess_scene_dict_prefix mi d x h r h' :
  _preprocess_scene_dict mi d x h = (r, h') -> h `prefix_of` h'.
Proof.
  intros E. apply keeps_prefix.
  by destruct (preprocess_scene_dict_framed mi (length h) d x h (good_length h) r h' E).
Qed.

Ltac worker_heap :=
  repeat match goal with
  | H : py_get _ _ _ _ = _ |- _ =>
      pose proof (py_get_store _ _ _ _ _ _ H); subst; clear H
  end.

(** X13: the worker passes [self.params.get('spp', 256)] to [mi.render] as
    it is: with a params dictionary, every call of [mi.render] that a run
    makes has for [spp] the value stored under ['spp'], or 256 when there is
    none. *)
Theorem run_passes_spp env self_scene_dict pl items h :
  h !! pl = Some (ODict items) ->
  Forall (renders_with (default (VInt 256) (dict_lookup "spp" items)))
    (wk_trace (run env self_scene_dict (VRef pl) h)).
Proof.
  intros Hitems. unfold run.
  destruct (run_try env self_scene_dict (VRef pl) _) as [r s] eqn:E.
  run_worker E.
  all: cbn [wk_trace app].
  all: try by repeat constructor.
  all: match goal with
       | H : _preprocess_scene_dict _ _ _ _ = _ |- _ =>
           pose proof (prefix_lookup_Some _ _ _ _ Hitems
                         (preprocess_scene_dict_prefix _ _ _ _ _ _ H)) as Hpl
       end.
  all: repeat match goal with
       | H : py_get _ "integrator" _ _ = _ |- _ =>
           pose proof (py_get_store _ _ _ _ _ _ H); subst; clear H
       | H : py_get _ "spp" _ _ = _ |- _ =>
           rewrite (py_get_dict _ _ _ _ _ Hpl) in H; simplify_eq
       end.
  all: by repeat constructor.
Qed.

(** X14: a run of the worker changes no object that existed when it
    started, [self.scene_dict] and [self.params] among them: the renderer is
    given a copy. *)
Theorem run_frame env self_scene_dict self_params h :
  h `prefix_of` wk_heap (run env self_scene_dict self_params h).
Proof.
  unfold run.
  destruct (run_try env self_scene_dict self_params _) as [r s] eqn:E.
  run_worker E.
  all: cbn [wk_heap].
  all: worker_heap.
  all: by eapply preprocess_scene_dict_prefix.
Qed.

Lemma run_passes_spp_witness :
  Forall (renders_with (VInt 64))
    (wk_trace (run demo_worker_env (VRef 3) (VRef 4) demo_pickled.1)).
Proof.
  apply (run_passes_spp demo_worker_env (VRef 3) 4 [("spp", VInt 64)] demo_pickled.1).
  reflexivity.
Defined.

Example run_demo :
  wk_signals (run demo_worker_env (VRef 3) (VRef 4) demo_pickled.1)
  = [w_log [Lit "Starting render..."]; w_log [Lit "Preprocessing scene..."];
     w_log [Lit "Scene preprocessing complete"]; w_progress 10;
     w_log [Lit "Loading scene..."]; w_log [Lit "Scene loaded successfully"];
     w_progress 20;
     w_log [Lit "Rendering with "; Fmt (VStr "path"); Lit " integrator (";
            Fmt (VInt 64); Lit " spp)..."];
     w_progress 90; w_log [Lit "Post-processing..."]; w_progress 100;
     w_log [Lit "Render complete!"]; w_finished 103] /\
  (wk_trace (run demo_worker_env (VRef 3) (VRef 4) demo_pickled.1)).*1
  = [LoadDict (VRef 6); Render 100 (VInt 64); MakeBitmap 101; ToArray 102].
Proof. by vm_compute. Qed.

(** ** [MitsubaRenderer] *)

(** X15: [MitsubaRenderer.cancel_render] cannot cancel: [RenderWorker] has
    no [cancel], and unless [QObject] provides one the call raises
    [AttributeError] before the thread is joined, [_is_rendering] reset or
    anything emitted.  The renderer is left as it was, so a following
    [render_scene] is refused with the warning. *)
Theorem mitsuba_renderer_cannot_cancel env h wk scene_dict params r :
  g_qobject_has env "cancel" = false ->
  current_worker r = Some wk ->
  _is_rendering r = true ->
  mr_cancel_render env r
  = (Raise (Exn "AttributeError"
              (cp "'RenderWorker' object has no attribute 'cancel'")), r) /\
  let r' := mr_render_scene env h scene_dict params r in
  mr_signals r'
  = mr_signals r ++ [log_message (warning_sign ++ cp "  Render already in progress")] /\
  mr_calls r' = mr_calls r /\ current_worker r' = Some wk /\ _is_rendering r' = true.
Proof.
  intros Hq Hw Hr. split.
  - unfold mr_cancel_render. rewrite Hw, Hr.
    unfold worker_method. rewrite Hq.
    assert (bool_decide ("cancel" ∈ RenderWorker_attributes) = false) as ->
      by by vm_compute.
    reflexivity.
  - unfold mr_render_scene. rewrite Hr. by rewrite <- Hw, <- Hr.
Qed.

(** X16: [_on_render_complete] always clears [_is_rendering] and emits
    exactly one signal: [render_complete] with the array it was given and
    the output path with the suffix [.png], after the image was saved there;
    or [render_failed] with a message that starts with
    ["Failed to save render: "]. *)
Theorem on_render_complete_ends_render env image_array filename r :
  let r' := _on_render_complete env image_array filename r in
  let png_path :=
    g_with_suffix_png env (g_path_join env (mr_output_dir r) filename) in
  _is_rendering r' = false /\ current_worker r' = current_worker r /\
  exists sg,
    mr_signals r' = mr_signals r ++ [sg] /\
    (sg = render_complete image_array png_path /\
     (exists img, mr_calls r' = mr_calls r ++ [SaveImage img png_path] /\
                  g_save env img png_path = Ok tt)
     \/
     exists m, sg = render_failed (cp "Failed to save render: " ++ m)).
Proof.
  unfold _on_render_complete.
  cbn [set_is_rendering mr_output_dir].
  unfold bind, lift, mr_call, mr_emit.
  destruct (g_clip env image_array) as [n|e]; cbn.
  2: { do 2 (split; [done|]). eexists. split; [done|]. right. by eexists. }
  destruct (g_to_uint8 env n) as [u|e]; cbn.
  2: { do 2 (split; [done|]). eexists. split; [done|]. right. by eexists. }
  destruct (g_fromarray env u _) as [img|e]; cbn.
  2: { do 2 (split; [done|]). eexists. split; [done|]. right. by eexists. }
  destruct (g_save env img _) as [[]|e] eqn:Es; cbn.
  - do 2 (split; [done|]). eexists. split; [done|]. left. split; [done|]. by exists img.
  - do 2 (split; [done|]). eexists. split; [done|]. right. by eexists.
Qed.

(** X17: a [render_scene] that is not refused either starts one thread on
    the worker's [run], as its last call, and leaves [_is_rendering] set
    without emitting anything; or it emits [render_failed] (after a
    [log_message]) and leaves [_is_rendering] clear.  [mi.set_variant] is
    called before the thread is started, never after. *)
Theorem mr_render_scene_starts_or_fails env h scene_dict params r :
  let r' := mr_render_scene env h scene_dict params r in
  _is_rendering r = false ->
  exists variant_calls,
    Forall (fun c => exists v, c = SetVariantMain v) variant_calls /\
    (_is_rendering r' = true /\ mr_signals r' = mr_signals r /\
     mr_calls r' = mr_calls r ++ variant_calls ++ [ThreadStart scene_dict params] /\
     current_worker r' = Some (scene_dict, params) /\
     g_thread_start env = Ok tt
     \/
     _is_rendering r' = false /\
     (exists e, mr_signals r'
                = mr_signals r ++
                  [log_message (cross_mark ++ cp " Failed to start render: " ++ exn_msg e);
                   render_failed (exn_msg e)]) /\
     (mr_calls r' = mr_calls r ++ variant_calls \/
      mr_calls r' = mr_calls r ++ variant_calls ++ [ThreadStart scene_dict params] /\
      is_ok (g_thread_start env) = false)).
Proof.
  intros r' Hr. subst r'. unfold mr_render_scene. rewrite Hr.
  unfold mr_render_scene_try, bind, reading, mr_call, mr_emit, set_current_worker,
    set_is_rendering, set_current_thread, ret.
  destruct ((py_contains params "variant" h).1) as [[|]|e]; cbn.
  - destruct ((py_getitem params "variant" h).1) as [v|e]; cbn.
    + destruct (g_set_variant env v h) as [[]|e]; cbn.
      * destruct (g_thread_start env) as [[]|e]; cbn.
        -- exists [SetVariantMain v]. split; [by repeat econstructor|]. left.
           repeat split; try done. by rewrite <- app_assoc.
        -- exists [SetVariantMain v]. split; [by repeat econstructor|]. right.
           split; [done|]. split; [exists e; by rewrite <- app_assoc|].
           right. by rewrite <- app_assoc.
      * exists [SetVariantMain v]. split; [by repeat econstructor|]. right.
        split; [done|]. split; [exists e; by rewrite <- app_assoc|]. by left.
    + exists []. split; [constructor|]. right.
      split; [done|]. split; [exists e; by rewrite <- app_assoc|].
      left. by rewrite app_nil_r.
  - destruct (g_thread_start env) as [[]|e]; cbn.
    + exists []. split; [constructor|]. left. by repeat split.
    + exists []. split; [constructor|]. right.
      split; [done|]. split; [exists e; by rewrite <- app_assoc|]. by right.
  - exists []. split; [constructor|]. right.
    split; [done|]. split; [exists e; by rewrite <- app_assoc|].
    left. by rewrite app_nil_r.
Qed.

Lemma mitsuba_renderer_cannot_cancel_witness :
  mr_cancel_render demo_gui_env (demo_renderer true)
  = (Raise (Exn "AttributeError"
              (cp "'RenderWorker' object has no attribute 'cancel'")),
     demo_renderer true) /\
  let r' := mr_render_scene demo_gui_env demo_pickled.1 (VRef 3) (VRef 4)
              (demo_renderer true) in
  mr_signals r'
  = mr_signals (demo_renderer true)
    ++ [log_message (warning_sign ++ cp "  Render already in progress")] /\
  mr_calls r' = mr_calls (demo_renderer true) /\
  current_worker r' = Some (VRef 3, VRef 4) /\ _is_rendering r' = true.
Proof.
  apply (mitsuba_renderer_cannot_cancel demo_gui_env demo_pickled.1 (VRef 3, VRef 4)
           (VRef 3) (VRef 4) (demo_renderer true)); reflexivity.
Defined.

Lemma mr_render_scene_starts_or_fails_witness :
  let r := demo_renderer false in
  let r' := mr_render_scene demo_gui_env demo_pickled.1 (VRef 3) (VRef 4) r in
  _is_rendering r = false /\
  exists variant_calls,
    Forall (fun c => exists v, c = SetVariantMain v) variant_calls /\
    (_is_rendering r' = true /\ mr_signals r' = mr_signals r /\
     mr_calls r' = mr_calls r ++ variant_calls ++ [ThreadStart (VRef 3) (VRef 4)] /\
     current_worker r' = Some (VRef 3, VRef 4) /\
     g_thread_start demo_gui_env = Ok tt
     \/
     _is_rendering r' = false /\
     (exists e, mr_signals r'
                = mr_signals r ++
                  [log_message (cross_mark ++ cp " Failed to start render: " ++ exn_msg e);
                   render_failed (exn_msg e)]) /\
     (mr_calls r' = mr_calls r ++ variant_calls \/
      mr_calls r' = mr_calls r ++ variant_calls ++ [ThreadStart (VRef 3) (VRef 4)] /\
      is_ok (g_thread_start demo_gui_env) = false)).
Proof.
  intros r r'. split; [reflexivity|].
  apply (mr_render_scene_starts_or_fails demo_gui_env demo_pickled.1 (VRef 3) (VRef 4) r).
  reflexivity.
Defined.

(** ** More on [BasicSceneGenerator.generate] *)









(** ** A render request, and a transform given as an empty list *)

Section Request.

Context {blob : Type}.
Implicit Types (w : world blob) (env : parent_env blob).



End Request.

Section EmptyMatrix.

Variable mi : mitsuba.

(** X22: a ['to_world'] that is an empty list makes both preprocessings
    raise [IndexError] where they look at its first item: nothing is
    replaced, and the dictionaries after it are not visited. *)
Theorem process_recursive_empty_matrix d l items a h :
  h !! l = Some (ODict items) ->
  dict_lookup "to_world" items = Some (VRef a) ->
  h !! a = Some (OList []) ->
  _process_recursive mi (S d) (VRef l) h
  = (Raise (IndexError "list index out of range"), h) /\
  _process_transforms_recursive mi (S d) (VRef l) h
  = (Raise (IndexError "list index out of range"), h).
Proof.
  intros Hl Htw Ha.
  split; cbn [_process_recursive _process_transforms_recursive];
    unfold bind at 1; cbn [get_store]; rewrite Hl, Htw;
    cbn [isinstance_list]; rewrite Ha;
    unfold bind, py_first; by rewrite Ha.
Qed.

End EmptyMatrix.


Lemma process_recursive_empty_matrix_witness :
  let h := [OList []; ODict [("type", VStr "rectangle"); ("to_world", VRef 0)]] in
  _process_recursive demo_mi 3 (VRef 1) h
  = (Raise (IndexError "list index out of range"), h) /\
  _process_transforms_recursive demo_mi 3 (VRef 1) h
  = (Raise (IndexError "list index out of range"), h).
Proof.
  intros h.
  apply (process_recursive_empty_matrix demo_mi 2 1
           [("type", VStr "rectangle"); ("to_world", VRef 0)] 0 h); reflexivity.
Defined.

(** ** After the child has finished, and after a cancel *)

Section Finished.

Context {blob : Type}.
Implicit Types (w : world blob) (env : parent_env blob).

(** X23: [_on_finished] changes nothing of the renderer but the signals
    emitted and the log: afterwards [self.process] is still the finished
    process, and the scene file is neither deleted nor taken off
    [temp_files]; only [cleanup] does that. *)
Theorem on_finished_frame env output_path w :
  let w' := (_on_finished env output_path w).2 in
  process w' = process w /\ temp_files w' = temp_files w /\
  files w' = files w /\ objects w' = objects w /\ output_dir w' = output_dir w.
Proof.
  unfold _on_finished. destruct (process w) as [p|] eqn:Hp; [|done].
  destruct (exitCode p =? 0); [|by rewrite <- Hp].
  destruct (p_Image_open env output_path) as [img|e]; [|by rewrite <- Hp].
  destruct (p_np_array env img); by rewrite <- Hp.
Qed.

(** X24: after [cancel_render] on a running child, the renderer counts as
    running exactly when the child finished neither after [terminate] nor
    after [kill]; so a [render_scene] that follows a cancel is refused only
    in that case. *)
Theorem running_after_cancel env w :
  running w = true ->
  running (cancel_render env w)
  = negb (p_finished_after_terminate env || p_finished_after_kill env).
Proof.
  unfold running at 1.
  destruct (process w) as [p|] eqn:Hp; [|done].
  destruct (state p) eqn:Hst; try done. intros _.
  destruct (cancel_render_spec env w p Hp Hst) as (P & _).
  unfold running. rewrite P. unfold stopped.
  destruct (p_finished_after_terminate env); [done|].
  destruct (p_finished_after_kill env); cbn; [done|]. by rewrite Hst.
Qed.

End Finished.

Lemma running_after_cancel_witness :
  running (cancel_render (demo_parent_env (fun _ _ => Ok tt))
             (demo_world (blob := unit) (Some (demo_process Running))))
  = false.
Proof.
  apply (running_after_cancel (demo_parent_env (fun _ _ => Ok tt))
           (demo_world (Some (demo_process Running)))).
  reflexivity.
Defined.

(** ** A log line, from the child to the signal *)

Lemma lstrip_snoc_nonspace u c :
  isspace c = false -> lstrip (u ++ [c]) = lstrip u ++ [c].
Proof.
  intros Hc. induction u as [|d u IH]; simpl; [by rewrite Hc|].
  by destruct (isspace d).
Qed.

Lemma lstrip_idemp s : lstrip (lstrip s) = lstrip s.
Proof.
  induction s as [|c s IH]; [done|]. simpl.
  destruct (isspace c) eqn:E; [done|]. simpl. by rewrite E.
Qed.

Lemma elem_of_lstrip c s : c ∈ lstrip s -> c ∈ s.
Proof.
  induction s as [|d s IH]; [done|]. simpl.
  destruct (isspace d); [|done]. intros H. right. by apply IH.
Qed.

Lemma rstrip_cons_nonspace c s :
  isspace c = false -> rstrip (c :: s) = c :: rstrip s.
Proof.
  intros Hc. unfold rstrip. simpl rev.
  rewrite lstrip_snoc_nonspace by done. by rewrite rev_unit.
Qed.

Lemma rstrip_idemp s : rstrip (rstrip s) = rstrip s.
Proof. unfold rstrip. by rewrite rev_involutive, lstrip_idemp. Qed.

Lemma elem_of_rstrip c s : c ∈ rstrip s -> c ∈ s.
Proof.
  unfold rstrip. intros H. apply list_elem_of_In, in_rev.
  apply list_elem_of_In, elem_of_lstrip, list_elem_of_In, in_rev.
  by apply list_elem_of_In.
Qed.

Section LogLine.

Context {blob : Type}.
Implicit Types (w : world blob) (env : parent_env blob).

(** X25: a log line as the child prints it reaches the GUI as one
    [log_message]: when neither the time stamp nor the message holds a
    newline or an escape character, [_on_stdout], given the line
    [LOG:[<time>] <message>] with its newline, emits [log_message] with
    [[<time>] <message>], trailing white space removed, and nothing else. *)
Theorem log_line_round_trip env w p ts m :
  process w = Some p ->
  10%N ∉ ts ++ m -> 27%N ∉ ts ++ m ->
  signals (_on_stdout env (log_text ts m) w)
  = signals w ++ [log_message (rstrip (cp "[" ++ ts ++ cp "] " ++ m))].
Proof.
  intros Hp H10 H27. unfold _on_stdout. rewrite Hp.
  set (t := ts ++ cp "] " ++ m).
  assert (forall c, c ∈ t -> c <> 10%N /\ c <> 27%N) as Ht.
  { intros c Hin. unfold t in Hin. rewrite app_assoc in Hin.
    apply elem_of_app in Hin as [[Hin|Hin]%elem_of_app|Hin].
    - split; intros ->; [apply H10|apply H27]; apply elem_of_app; by left.
    - unfold cp in Hin. simpl in Hin.
      repeat (apply elem_of_cons in Hin as [->|Hin]; [by split|]).
      by apply elem_of_nil in Hin.
    - split; intros ->; [apply H10|apply H27]; apply elem_of_app; by right. }
  assert (log_text ts m = [76; 79; 71; 58; 91]%N ++ t ++ [10%N]) as ->.
  { unfold log_text, t. by rewrite <- !app_assoc. }
  assert (strip_ansi_codes ([76; 79; 71; 58; 91]%N ++ t ++ [10%N])
          = [76; 79; 71; 58; 91]%N ++ t ++ [10%N]) as ->.
  { apply ansi_sub_plain. intros Hin.
    apply elem_of_app in Hin as [Hin|[Hin|Hin]%elem_of_app].
    - repeat (apply elem_of_cons in Hin as [Hin|Hin]; [done|]).
      by apply elem_of_nil in Hin.
    - by destruct (Ht _ Hin).
    - by apply list_elem_of_singleton in Hin. }
  assert (strip ([76; 79; 71; 58; 91]%N ++ t ++ [10%N])
          = [76; 79; 71; 58; 91]%N ++ rstrip t) as ->.
  { unfold strip. cbn [app]. rewrite lstrip_nonspace by done.
    change (76 :: 79 :: 71 :: 58 :: 91 :: t ++ [10])%N
      with (([76; 79; 71; 58; 91] ++ t) ++ [10])%N.
    rewrite rstrip_snoc_space by done. cbn [app].
    by rewrite !rstrip_cons_nonspace by done. }
  rewrite split_no_sep.
  2: { intros Hin. apply elem_of_app in Hin as [Hin|Hin].
       - repeat (apply elem_of_cons in Hin as [Hin|Hin]; [done|]).
         by apply elem_of_nil in Hin.
       - apply elem_of_rstrip in Hin. by destruct (Ht _ Hin). }
  cbn [foldl app]. unfold on_stdout_line.
  assert (nonempty (76 :: 79 :: 71 :: 58 :: 91 :: rstrip t)%N = true) as -> by done.
  assert (startswith (cp "PROGRESS:") (76 :: 79 :: 71 :: 58 :: 91 :: rstrip t)%N
          = false) as -> by done.
  assert (startswith (cp "LOG:") (76 :: 79 :: 71 :: 58 :: 91 :: rstrip t)%N
          = true) as -> by done.
  cbn [drop]. unfold strip. rewrite lstrip_nonspace by done.
  rewrite rstrip_cons_nonspace by done. rewrite rstrip_idemp.
  by rewrite <- (rstrip_cons_nonspace 91 t).
Qed.

End LogLine.

Lemma log_line_round_trip_witness :
  let w := demo_world (blob := unit) (Some (demo_process Running)) in
  signals (_on_stdout (demo_parent_env (fun _ _ => Ok tt))
             (log_text (cp "12:00:01") (cp "Loading scene...  ")) w)
  = signals w ++ [log_message (cp "[12:00:01] Loading scene...")].
Proof.
  intros w.
  apply (log_line_round_trip (demo_parent_env (fun _ _ => Ok tt)) w
           (demo_process Running) (cp "12:00:01") (cp "Loading scene...  ")).
  - reflexivity.
  - apply (bool_decide_unpack _). by vm_compute.
  - apply (bool_decide_unpack _). by vm_compute.
Defined.

(** ** [RenderWorker._preprocess_scene_dict] returns a copy *)

Section UpdateWorker.

Variable mi : mitsuba.
Variable S : nat -> Prop.

Abbreviation grows := (holds no_dangling prefix).
Abbreviation updates := (holds no_dangling (upd_in S)).

Ltac below :=
  first [ apply val_below_atom; reflexivity
        | eapply val_below_mono; [eassumption|lia]
        | apply Forall_nil_2
        | apply Forall_cons_2; below ].

Ltac grows_leaf :=
  first [ apply grows_alloc | apply grows_py_get | apply grows_py_getitem
        | apply grows_py_contains | apply grows_call | apply grows_lift
        | apply holds_raise | apply holds_ret ];
  try (match goal with |- PreOrder _ => apply _ end);
  try done; try (cbv beta in *; simpl; below).

Ltac grows_step :=
  lazymatch goal with
  | |- holds _ _ (bind _ _) _ _ =>
      eapply holds_bind';
        try (match goal with |- PreOrder _ => apply _ end);
        [ | let HR := fresh "HR" in
            intros ? ? HR ? ?; apply prefix_length in HR ]
  | |- holds _ _ (if ?b then _ else _) _ _ => destruct b eqn:?
  | |- holds _ _ _ _ (fun _ _ => True) =>
      first [ grows_leaf
            | eapply holds_true;
              try (match goal with |- PreOrder _ => apply _ end); grows_leaf ]
  | |- holds _ _ _ _ _ => grows_leaf
  end.

Lemma build_transform_from_dict_grows d : forall v h,
  no_dangling h -> val_below (length h) v ->
  grows (_build_transform_from_dict mi d v) h (fun _ _ => True).
Proof.
  induction d as [|d IH]; intros v h Hg Hv; simpl.
  - apply holds_raise; [apply _|done].
  - repeat grows_step.
    all: try (eapply holds_true;
              try (match goal with |- PreOrder _ => apply _ end);
              apply IH; [done|cbv beta in *; below]).
Qed.

(** [_process_transforms_recursive] changes the store only by putting
    objects of the renderer in the place of lists and dictionaries under
    ['to_world'], it does so only in the dictionaries it reaches, and when
    it returns it has done so in every one of them. *)
Lemma process_transforms_recursive_processes d : forall v h,
  no_dangling h -> val_below (length h) v ->
  (forall l, visited h v l -> S l) ->
  updates (_process_transforms_recursive mi d v) h (fun _ h' => processed h' v).
Proof.
  induction d as [|d IH]; intros v h Hg Hv HS; simpl.
  - apply holds_raise; [apply _|done].
  - eapply holds_bind'; [apply _|apply reads_get_store; [apply _|done..]|].
    intros ? ? _ _ [-> ->].
    destruct v as [| | | | | | |l];
      try (apply holds_ret; [apply _|done|by apply processed_atom]).
    pose proof Hv as Hvl. apply val_below_ref in Hv.
    destruct (h !! l) as [[items|items]|] eqn:El.
    + eapply holds_bind' with
        (P := fun _ h1 => forall items1 a,
                h1 !! l = Some (ODict items1) ->
                dict_lookup "to_world" items1 <> Some (VRef a)); [apply _| |].
      * destruct (dict_lookup "to_world" items) as [tw|] eqn:Etw.
        2: { apply holds_ret; [apply _|done|].
             intros items1 a. rewrite El. intros [= <-]. by rewrite Etw. }
        assert (val_below (length h) tw) as Htw
          by (eapply no_dangling_entry; eauto using dict_lookup_elem).
        destruct (isinstance_list h tw) eqn:Elist;
          [|destruct (isinstance_dict h tw) eqn:Edict].
        -- destruct (isinstance_list_ref _ _ Elist) as [a ->].
           eapply holds_bind'; [apply _|apply reads_py_first; [apply _|done..]|].
           intros first ? _ _ [-> _].
           eapply holds_bind'; [apply _|apply reads_get_store; [apply _|done..]|].
           intros ? ? _ _ [-> ->].
           destruct (isinstance_list h first).
           ++ eapply holds_bind'; [apply _|apply reads_call; [apply _|done..]|].
              intros ? ? _ _ ->.
              eapply holds_bind'; [apply _|apply reads_lift; [apply _|done..]|].
              intros t ? _ _ ->.
              eapply updates_py_setitem; [done..|]. apply HS. constructor.
           ++ eapply holds_bind'; [apply _|apply reads_call; [apply _|done..]|].
              intros ? ? _ _ ->.
              eapply holds_bind'; [apply _|apply reads_lift; [apply _|done..]|].
              intros ? ? _ _ ->.
              eapply holds_bind'; [apply _|apply reads_lift; [apply _|done..]|].
              intros t ? _ _ ->.
              eapply updates_py_setitem; [done..|]. apply HS. constructor.
        -- destruct (isinstance_dict_ref _ _ Edict) as [a ->].
           eapply holds_bind';
             [apply _|by apply grows_updates, build_transform_from_dict_grows|].
           intros t h1 _ Hg1 [Hp _].
           eapply updates_py_setitem; [done| |done|].
           ++ by eapply prefix_lookup_Some.
           ++ apply HS. constructor.
        -- apply holds_ret; [apply _|done|].
           intros items1 a. rewrite El. intros [= <-]. rewrite Etw.
           intros [= ->]. apply val_below_ref in Htw.
           by eapply is_container_ref.
      * intros [] h1 HR1 Hg1 HP1.
        eapply holds_bind'; [apply _|apply reads_get_store; [apply _|done..]|].
        intros ? ? _ _ [-> ->].
        destruct (proj2 (proj1 HR1) _ _ El) as (o1 & El1 & Hupd1).
        apply obj_upd_dict in Hupd1 as (items' & -> & Hback & _).
        rewrite El1.
        assert (forall k x s1 l0, (k, x) ∈ items' -> k <> "to_world" ->
                  upd_in S h1 s1 -> visited s1 x l0 -> S l0) as Hsub.
        { intros k x s1 l0 Hin Hne HRa Hvis.
          pose proof (Hback _ _ Hne Hin) as Hin0.
          apply HS. eapply visited_entry; [done..|].
          eapply (visited_upd_back h s1); [done| |by eapply no_dangling_entry|done].
          apply proj1 in HR1, HRa. by etrans. }
        eapply holds_mono.
        { apply holds_for_each_all with
            (Q := fun kv s => kv.1 <> "to_world" -> processed s kv.2);
            [apply _| |done|].
          - intros [k x] s1 s2 Hin HRa Hga HRb HQ Hne. simpl in *.
            eapply processed_upd; [done|by apply HRb| |by apply HQ].
            eapply val_below_mono; [by eapply (no_dangling_entry h1)|].
            by apply upd_length, HRa.
          - intros [k x] s1 Hin HRa Hga. simpl.
            destruct (String.eqb k "to_world") eqn:Ek.
            + apply holds_ret; [apply _|done|].
              intros Hne. by apply String.eqb_eq in Ek.
            + eapply holds_mono; [apply IH; [done| |]|by intros].
              * eapply val_below_mono; [by eapply (no_dangling_entry h1)|].
                by apply upd_length, HRa.
              * intros l0. apply (Hsub k x s1 l0 Hin); [|done].
                intros ->. by rewrite String.eqb_refl in Ek. }
        intros [] h2 HR2 Hg2 HQ x itemsx a Hvis Hx Hlk. simpl in HQ.
        destruct (proj2 (proj1 HR2) _ _ El1) as (o2 & El2 & Hupd2).
        apply obj_upd_dict in Hupd2 as (items2 & -> & Hsub2 & Hsame).
        inversion Hvis as [|? its ? ? Hl0|? its k v0 ? Hl0 Hin Hne Hv0]; subst.
        -- rewrite El2 in Hx. injection Hx as <-.
           rewrite (Hsame _ Hlk) in Hlk. by eapply HP1.
        -- by rewrite El2 in Hl0.
        -- rewrite El2 in Hl0. injection Hl0 as <-.
           rewrite Forall_forall in HQ.
           by eapply (HQ (k, v0) (Hsub2 _ _ Hne Hin)).
    + eapply holds_mono.
      { apply holds_for_each_all with (Q := fun x s => processed s x);
          [apply _| |done|].
        - intros x s1 s2 Hin HRa Hga HRb HQ.
          eapply processed_upd; [done|by apply HRb| |done].
          eapply val_below_mono; [by eapply (no_dangling_item h)|].
          by apply upd_length, HRa.
        - intros x s1 Hin HRa Hga. apply IH; [done| |].
          + eapply val_below_mono; [by eapply (no_dangling_item h)|].
            by apply upd_length, HRa.
          + intros l0 Hvis. apply HS. eapply visited_item; [done..|].
            eapply (visited_upd_back h s1);
              [done|by apply HRa|by eapply no_dangling_item|done]. }
      intros [] h2 HR2 Hg2 HQ x itemsx a Hvis Hx Hlk. simpl in HQ.
      destruct (proj2 (proj1 HR2) _ _ El) as (o2 & El2 & Hupd2).
      apply obj_upd_list in Hupd2 as ->.
      inversion Hvis as [|? its ? ? Hl0 Hin Hv0|? its k v0 ? Hl0]; subst.
      -- by rewrite El2 in Hx.
      -- rewrite El2 in Hl0. injection Hl0 as <-.
         rewrite Forall_forall in HQ. by eapply (HQ _ Hin).
      -- by rewrite El2 in Hl0.
    + apply holds_raise; [apply _|done].
Qed.

End UpdateWorker.

(** X26: [RenderWorker._preprocess_scene_dict] changes no object of the
    store it is called in, whether it returns or raises.  When it returns,
    for a well-formed store, there is a one-to-one map [m] from the lists
    and dictionaries that the argument leads to (by any way, tuples and
    ['to_world'] included) to objects made by the call, and the result is
    the argument redirected through [m].  The object made for a list has
    the items of the list, redirected.  The object made for a dictionary
    has its entries, same keys in the same order, with the values
    redirected, but for one case: where the processing reaches the
    dictionary (through items of lists and values of dictionaries under
    other keys than ['to_world'], not through tuples) and its ['to_world']
    is a list or a dictionary, the value there is an object of the
    renderer. *)
Theorem preprocess_scene_dict_copies mi d x h :
  store_ok h -> val_below (length h) x ->
  h `prefix_of` (_preprocess_scene_dict mi d x h).2 /\
  forall r h',
    _preprocess_scene_dict mi d x h = (Ok r, h') ->
    exists m : gmap nat nat,
      r = rename m x /\
      (forall l1 l2 l', m !! l1 = Some l' -> m !! l2 = Some l' -> l1 = l2) /\
      (forall l, reachable h x l -> is_Some (m !! l)) /\
      (forall l l', m !! l = Some l' ->
         (length h <= l')%nat /\
         exists o o', h !! l = Some o /\ h' !! l' = Some o' /\
                      object_copied h m (visited h x l) o o').
Proof.
  intros Hok Hx. split.
  { destruct (_preprocess_scene_dict mi d x h) as [r h'] eqn:E.
    by eapply preprocess_scene_dict_prefix. }
  intros r h' E. unfold _preprocess_scene_dict in E.
  apply bind_eq in E as [(y & h1 & E1 & E)|(? & _ & ?)]; [|done].
  apply bind_eq in E as [([] & h2 & E2 & E)|(? & _ & ?)]; [|done].
  injection E as <- <-.
  destruct (copy_deepcopy_copies _ _ _ _ _ Hok Hx E1)
    as (m & -> & Hin & Hm & Hinj & Hnd & Hy).
  destruct (process_transforms_recursive_processes mi (visited h1 (rename m x)) d _ _
              Hnd Hy (fun l H => H) _ _ E2) as (Hupd & _ & Hproc).
  specialize (Hproc tt eq_refl).
  assert (forall a a', m !! a = Some a' -> (a < length h)%nat) as Hdom
    by (intros a a' Ha; by destruct (Hm _ _ Ha)).
  assert (forall a a', m !! a = Some a' -> copied h m h1 a a') as Hcopied
    by (intros a a' Ha; by destruct (Hm _ _ Ha) as (_ & _ & ?)).
  exists m. split; [done|]. split; [done|]. split.
  - intros l Hr. by eapply reachable_in.
  - intros l l' Hl. destruct (Hm _ _ Hl) as (_ & [Hge _] & (o & Ho & _)).
    split; [done|]. exists o.
    destruct (object_copied_after h h1 h2 m _ Hok Hdom Hcopied Hupd
                (visited h x l) l l' o Hl Ho) as (o' & Ho' & Hc); [| |by eauto].
    + intros Hvis items v Hd.
      destruct (visited_copy h h1 h2 m _ Hcopied Hupd x l Hvis Hin)
        as (l'' & Hl'' & Hvis').
      rewrite Hl in Hl''. injection Hl'' as <-.
      by apply (Hproc l' items v).
    + intros HS.
      destruct (visited_back h h1 m Hcopied _ _ HS x eq_refl Hin) as (l2 & Hl2 & Hvis).
      by rewrite (Hinj l l2 l' Hl Hl2).
Qed.

Lemma preprocess_scene_dict_copies_witness :
  demo_pickled.1 `prefix_of` (_preprocess_scene_dict demo_mi 20 (VRef 3) demo_pickled.1).2 /\
  exists r h',
    _preprocess_scene_dict demo_mi 20 (VRef 3) demo_pickled.1 = (Ok r, h') /\
    exists m : gmap nat nat,
      r = rename m (VRef 3) /\
      (forall l1 l2 l', m !! l1 = Some l' -> m !! l2 = Some l' -> l1 = l2) /\
      (forall l, reachable demo_pickled.1 (VRef 3) l -> is_Some (m !! l)) /\
      (forall l l', m !! l = Some l' ->
         (length demo_pickled.1 <= l')%nat /\
         exists o o', demo_pickled.1 !! l = Some o /\ h' !! l' = Some o' /\
                      object_copied demo_pickled.1 m
                        (visited demo_pickled.1 (VRef 3) l) o o').
Proof.
  destruct (preprocess_scene_dict_copies demo_mi 20 (VRef 3) demo_pickled.1)
    as [Hpre Hcopy].
  - exact demo_pickled_ok.
  - apply val_below_ref. simpl. lia.
  - split; [exact Hpre|]. eexists _, _. split; [vm_compute; reflexivity|].
    apply Hcopy. vm_compute. reflexivity.
Defined.

(** ** A line that arrives in two chunks *)

Lemma digit_or_minus_not_letter c :
  is_digit_or_minus c = true -> (80 =? c)%N = false /\ (76 =? c)%N = false.
Proof.
  intros H. unfold is_digit_or_minus, in_range in H.
  apply orb_true_iff in H as [[H1 H2]%andb_true_iff|H].
  - apply N.leb_le in H1, H2. split; apply N.eqb_neq; lia.
  - apply N.eqb_eq in H as ->. by split.
Qed.

Lemma strip_digits d :
  d <> [] -> Forall (fun c => is_digit_or_minus c = true) d ->
  forall a, rstrip (a ++ d) = a ++ d.
Proof.
  intros Hne Hd a. destruct (exists_last Hne) as (ds & c & ->).
  rewrite app_assoc. apply rstrip_snoc_nonspace.
  apply Forall_app in Hd as [_ [Hc _]%Forall_cons].
  by destruct (digit_or_minus_facts c Hc).
Qed.

Section Chunks.

Context {blob : Type}.
Implicit Types (w : world blob) (env : parent_env blob).

(** A chunk that is one line. *)
Lemma on_stdout_one_line env w p chunk line :
  process w = Some p -> 27%N ∉ chunk -> strip chunk = line -> 10%N ∉ line ->
  _on_stdout env chunk w = on_stdout_line env w line.
Proof.
  intros Hp H27 Hs H10. unfold _on_stdout. rewrite Hp.
  unfold strip_ansi_codes. rewrite ansi_sub_plain by done.
  by rewrite Hs, split_no_sep.
Qed.

(** X27: [_on_stdout] does not join chunks.  When a progress line arrives
    in two chunks, cut inside its digits, the first chunk is read as a
    progress line of its own (so [PROGRESS:80] cut after the [8] reports
    8), and the rest is dropped as other output. *)
Theorem on_stdout_split_progress_line env w p d1 d2 z1 :
  process w = Some p ->
  d1 <> [] -> d2 <> [] ->
  Forall (fun c => is_digit_or_minus c = true) (d1 ++ d2) ->
  p_int env d1 = Some z1 ->
  signals (_on_stdout env (d2 ++ [10%N]) (_on_stdout env (cp "PROGRESS:" ++ d1) w))
  = signals w ++ [progress_updated z1].
Proof.
  intros Hp Hn1 Hn2 [Hd1 Hd2]%Forall_app Hint.
  assert (forall c, c ∈ d1 ++ d2 ->
            isspace c = false /\ c <> 27%N /\ c <> 10%N /\ c <> 58%N) as Hc.
  { intros c Hin. apply digit_or_minus_facts.
    apply elem_of_app in Hin as [Hin|Hin];
      [rewrite Forall_forall in Hd1; by apply Hd1
      |rewrite Forall_forall in Hd2; by apply Hd2]. }
  assert (forall c, c ∈ cp "PROGRESS:" -> c <> 27%N /\ c <> 10%N) as Hlit.
  { intros c Hin. unfold cp in Hin. simpl in Hin.
    repeat (apply elem_of_cons in Hin as [->|Hin]; [by split|]).
    by apply elem_of_nil in Hin. }
  rewrite (on_stdout_one_line env w p (cp "PROGRESS:" ++ d1) (cp "PROGRESS:" ++ d1) Hp).
  2: { intros [Hin|Hin]%elem_of_app; [by destruct (Hlit _ Hin)|].
       destruct (Hc 27%N) as (_ & ? & _); [apply elem_of_app; by left|done]. }
  2: { unfold strip.
       change (cp "PROGRESS:" ++ d1) with (80%N :: (cp "ROGRESS:" ++ d1)).
       rewrite lstrip_nonspace by done.
       change (80%N :: (cp "ROGRESS:" ++ d1)) with (cp "PROGRESS:" ++ d1).
       by apply strip_digits. }
  2: { intros [Hin|Hin]%elem_of_app; [by destruct (Hlit _ Hin)|].
       destruct (Hc 10%N) as (_ & _ & ? & _); [apply elem_of_app; by left|done]. }
  assert (on_stdout_line env w (cp "PROGRESS:" ++ d1) = emit (progress_updated z1) w)
    as ->.
  { unfold on_stdout_line.
    assert (nonempty (cp "PROGRESS:" ++ d1) = true) as -> by done.
    assert (startswith (cp "PROGRESS:") (cp "PROGRESS:" ++ d1) = true) as -> by done.
    assert (split 58 (cp "PROGRESS:" ++ d1) = [cp "PROGRESS"; d1]) as ->.
    { change (cp "PROGRESS:") with (cp "PROGRESS" ++ [58%N]).
      rewrite <- app_assoc. simpl ([58%N] ++ _).
      rewrite split_app_sep.
      - f_equal. apply split_no_sep. intros Hin.
        destruct (Hc 58%N) as (_ & _ & _ & ?); [apply elem_of_app; by left|done].
      - unfold cp. simpl. intros Hin.
        repeat (apply elem_of_cons in Hin as [Hin|Hin]; [done|]).
        by apply elem_of_nil in Hin. }
    simpl. by rewrite Hint. }
  destruct d2 as [|c d2']; [done|].
  assert (is_digit_or_minus c = true) as Hdc by by apply Forall_cons in Hd2 as [? _].
  rewrite (on_stdout_one_line env _ p ((c :: d2') ++ [10%N]) (c :: d2')).
  - unfold on_stdout_line. cbn [nonempty].
    destruct (digit_or_minus_not_letter c Hdc) as [HP HL].
    assert (startswith (cp "PROGRESS:") (c :: d2') = false) as ->
      by (change (cp "PROGRESS:") with (80%N :: cp "ROGRESS:");
          cbn [startswith]; by rewrite HP).
    assert (startswith (cp "LOG:") (c :: d2') = false) as ->
      by (change (cp "LOG:") with (76%N :: cp "OG:");
          cbn [startswith]; by rewrite HL).
    done.
  - done.
  - intros [Hin|Hin]%elem_of_app.
    + destruct (Hc 27%N) as (_ & ? & _); [apply elem_of_app; by right|done].
    + by apply list_elem_of_singleton in Hin.
  - unfold strip. cbn [app]. rewrite lstrip_nonspace
      by by destruct (digit_or_minus_facts c Hdc).
    change (c :: d2' ++ [10%N]) with ((c :: d2') ++ [10%N]).
    rewrite rstrip_snoc_space by done. by apply (strip_digits (c :: d2') Hn2 Hd2 []).
  - intros Hin.
    destruct (Hc 10%N) as (_ & _ & ? & _); [apply elem_of_app; by right|done].
Qed.

End Chunks.

Lemma on_stdout_split_progress_line_witness :
  let w := demo_world (blob := unit) (Some (demo_process Running)) in
  let env := demo_parent_env (fun _ _ => Ok tt) in
  signals (_on_stdout env (cp "PROGRESS:80" ++ [10%N]) w)
  = signals w ++ [progress_updated 80] /\
  signals (_on_stdout env (cp "0" ++ [10%N]) (_on_stdout env (cp "PROGRESS:" ++ cp "8") w))
  = signals w ++ [progress_updated 8].
Proof.
  intros w env. split; [by vm_compute|].
  apply (on_stdout_split_progress_line env w (demo_process Running)
           (cp "8") (cp "0") 8).
  - reflexivity.
  - done.
  - done.
  - by repeat constructor.
  - by vm_compute.
Defined.
